(** * Crab CFG layer: a shallow embedding of [include/crab/cfg/cfg.hpp]

    The development follows the header top-down: typed variables and linear
    expressions, the live set, the statement variants with their
    constructors, basic blocks with their builders, the CFG with clone /
    insert / remove / simplify, the reversed view, the type checker and the
    signature hash.  A call of [CRAB_ERROR] is a fatal error; it is the
    [CrabError] outcome of the [result] monad below.  The variable factory
    of [include/ikos/cfg/VarFactory.hpp], which interns the names of the
    variables, follows the CFG layer. *)

From stdpp Require Import gmap strings list fin_maps.
From Stdlib Require Import NArith ZArith.

Set Default Proof Using "Type".
Open Scope list_scope.

(* ===================================================================== *)
(** ** Outcomes: a value, or the fatal error raised by [CRAB_ERROR]      *)
(* ===================================================================== *)

Inductive result (A : Type) : Type :=
| Ok (a : A)
| CrabError (msg : string).
Arguments Ok {A} a.
Arguments CrabError {A} msg.

#[global] Instance result_ret : MRet result := λ A a, Ok a.
#[global] Instance result_bind : MBind result := λ A B f r,
  match r with
  | Ok a => f a
  | CrabError msg => CrabError msg
  end.

Definition is_ok {A} (r : result A) : bool :=
  match r with Ok _ => true | CrabError _ => false end.

Definition is_error {A} (r : result A) : bool := negb (is_ok r).

(** A left-to-right loop whose body may raise. *)
Fixpoint foldM {A B} (f : B → A → result B) (l : list A) (acc : B) : result B :=
  match l with
  | [] => Ok acc
  | x :: l' => acc' ← f acc x; foldM f l' acc'
  end.

(* ===================================================================== *)
(** ** Variable and type model                                           *)
(* ===================================================================== *)

(** enum tracked_precision { NUM = 0, PTR = 1, ARR = 2 } *)
Inductive tracked_precision := NUM | PTR | ARR.

Definition prec_code (p : tracked_precision) : N :=
  match p with NUM => 0 | PTR => 1 | ARR => 2 end%N.

#[global] Instance tracked_precision_eq_dec : EqDecision tracked_precision.
Proof. solve_decision. Defined.

(** Modelled from the spec: the enum [variable_type] of
    [crab/common/types.hpp], which is not part of the sources at hand.  The
    members and their order are those of the flat lattice listed at the top
    of [cfg.hpp]; the order matters because the array constructors test
    [array_type() < ARR_BOOL_TYPE]. *)
Inductive variable_type :=
| BOOL_TYPE | INT_TYPE | REAL_TYPE | PTR_TYPE
| ARR_BOOL_TYPE | ARR_INT_TYPE | ARR_REAL_TYPE | ARR_PTR_TYPE.

Definition type_code (t : variable_type) : N :=
  match t with
  | BOOL_TYPE => 0 | INT_TYPE => 1 | REAL_TYPE => 2 | PTR_TYPE => 3
  | ARR_BOOL_TYPE => 4 | ARR_INT_TYPE => 5 | ARR_REAL_TYPE => 6
  | ARR_PTR_TYPE => 7
  end%N.

#[global] Instance variable_type_eq_dec : EqDecision variable_type.
Proof. solve_decision. Defined.

(** [VariableName] is the interned name: [IndexedString] of
    [VarFactory.hpp] compares, orders and hashes by its [index_t] only. *)
Definition varname_t := N.

(** Modelled from the spec: [ikos::variable] (its header is not part of
    the sources at hand) is a (name, type, width) triple; [bitwidth_t] is an
    unsigned integer on which only comparisons are performed. *)
Record variable_t := mk_var {
  var_name : varname_t;
  get_type : variable_type;
  get_bitwidth : N
}.

(** Modelled from the spec: two variables are equal iff their identity
    is equal; this is the [operator==] that [std::find] uses below. *)
Definition variable_eqb (v w : variable_t) : bool :=
  (var_name v =? var_name w)%N.

(** Modelled from the spec: [ikos::linear_expression] (absent from the
    sources at hand) is an affine combination of typed variables: the
    coefficient of each variable, in the iteration order of the expression,
    and a constant. *)
Record linear_expression := mk_lin_exp {
  le_terms : list (Z * variable_t);
  le_cst : Z
}.

Definition le_variables (e : linear_expression) : list variable_t :=
  (le_terms e).*2.

Definition le_is_constant (e : linear_expression) : bool :=
  match le_terms e with [] => true | _ => false end.

(** [get_variable] answers only for the expression [1 * v + 0]. *)
Definition le_get_variable (e : linear_expression) : option variable_t :=
  match le_terms e with
  | [(c, v)] => if ((c =? 1) && (le_cst e =? 0))%Z then Some v else None
  | _ => None
  end.

Definition var_exp (v : variable_t) : linear_expression :=
  {| le_terms := [(1%Z, v)]; le_cst := 0 |}.

Definition num_exp (n : Z) : linear_expression :=
  {| le_terms := []; le_cst := n |}.

Inductive cst_kind := EQUALITY | DISEQUATION | INEQUALITY | STRICT_INEQUALITY.

(** Modelled from the spec: [ikos::linear_constraint] is a linear
    expression compared with zero. *)
Record linear_constraint := mk_lin_cst {
  lc_exp : linear_expression;
  lc_kind : cst_kind
}.

Definition lc_variables (c : linear_constraint) : list variable_t :=
  le_variables (lc_exp c).

(** Modelled from the spec: [pointer_constraint<variable_t>] of
    [crab/common/types.hpp], through the observers the statement
    constructors call: [is_tautology], [is_contradiction], [is_unary],
    [lhs] and [rhs]. *)
Inductive ptr_cst_t :=
| PtrTautology
| PtrContradiction
| PtrUnary (negated : bool) (lhs : variable_t)
| PtrBinary (negated : bool) (lhs rhs : variable_t).

(** Modelled from the spec: the operation enumerations of
    [crab/common/types.hpp], with the members that [cfg.hpp] names. *)
Inductive binary_operation_t :=
| BINOP_ADD | BINOP_SUB | BINOP_MUL | BINOP_SDIV | BINOP_UDIV
| BINOP_SREM | BINOP_UREM | BINOP_AND | BINOP_OR | BINOP_XOR.

Inductive bool_binary_operation_t := BINOP_BAND | BINOP_BOR | BINOP_BXOR.

Inductive cast_operation_t := CAST_TRUNC | CAST_SEXT | CAST_ZEXT.

(* ===================================================================== *)
(** ** Live sets                                                         *)
(* ===================================================================== *)

Record Live := mk_live {
  m_uses : list variable_t;
  m_defs : list variable_t
}.

Definition live_empty : Live := {| m_uses := []; m_defs := [] |}.

(** [std::find] with the variables' [operator==]. *)
Definition live_find (s : list variable_t) (v : variable_t) : bool :=
  existsb (variable_eqb v) s.

Definition live_add (s : list variable_t) (v : variable_t) : list variable_t :=
  if live_find s v then s else s ++ [v].

Definition add_use (v : variable_t) (l : Live) : Live :=
  {| m_uses := live_add (m_uses l) v; m_defs := m_defs l |}.

Definition add_def (v : variable_t) (l : Live) : Live :=
  {| m_uses := m_uses l; m_defs := live_add (m_defs l) v |}.

(** [for (auto v : vs) m_live.add_use (v)] *)
Definition add_uses (vs : list variable_t) (l : Live) : Live :=
  fold_left (λ acc v, add_use v acc) vs l.

Definition add_defs (vs : list variable_t) (l : Live) : Live :=
  fold_left (λ acc v, add_def v acc) vs l.

Record debug_info := mk_dbg {
  m_file : string;
  m_line : Z;
  m_col : Z
}.

Definition no_debug_info : debug_info :=
  {| m_file := ""; m_line := -1; m_col := -1 |}.

(* ===================================================================== *)
(** ** Statements                                                        *)
(* ===================================================================== *)

(** The closed set of statement variants with the operands each class
    stores. *)
Inductive stmt_body :=
| BinOp (lhs : variable_t) (op : binary_operation_t) (op1 op2 : linear_expression)
| Assign (lhs : variable_t) (rhs : linear_expression)
| Assume (cst : linear_constraint)
| Unreach
| Havoc (lhs : variable_t)
| Select (lhs : variable_t) (cond : linear_constraint) (e1 e2 : linear_expression)
| Assert (cst : linear_constraint)
| IntCast (op : cast_operation_t) (src dst : variable_t)
| ArrAssume (arr : variable_t) (elem_size : N) (lb ub val : linear_expression)
| ArrStore (arr : variable_t) (index value : linear_expression)
           (elem_size : N) (is_singleton : bool)
| ArrLoad (lhs arr : variable_t) (index : linear_expression) (elem_size : N)
| ArrAssign (lhs rhs : variable_t)
| PtrLoad (lhs rhs : variable_t)
| PtrStore (lhs rhs : variable_t)
| PtrAssign (lhs rhs : variable_t) (offset : linear_expression)
| PtrObject (lhs : variable_t) (address : N)
| PtrFunction (lhs : variable_t) (func : varname_t)
| PtrNull (lhs : variable_t)
| PtrAssume (cst : ptr_cst_t)
| PtrAssert (cst : ptr_cst_t)
| Callsite (func_name : string) (lhs args : list variable_t)
| Return (ret : list variable_t)
| BoolAssignCst (lhs : variable_t) (rhs : linear_constraint)
| BoolAssignVar (lhs rhs : variable_t) (is_rhs_negated : bool)
| BoolBinOp (lhs : variable_t) (op : bool_binary_operation_t) (op1 op2 : variable_t)
| BoolAssume (var : variable_t) (is_negated : bool)
| BoolSelect (lhs cond b1 b2 : variable_t)
| BoolAssert (var : variable_t).

Record statement := mk_stmt {
  m_live : Live;
  m_dbg_info : debug_info;
  m_body : stmt_body
}.

(** enum stmt_code *)
Definition m_stmt_code (s : statement) : N :=
  match m_body s with
  | BinOp _ _ _ _ => 20 | Assign _ _ => 21 | Assume _ => 22 | Unreach => 23
  | Select _ _ _ _ => 24 | Assert _ => 25
  | ArrAssume _ _ _ _ _ => 31 | ArrStore _ _ _ _ _ => 32
  | ArrLoad _ _ _ _ => 33 | ArrAssign _ _ => 34
  | PtrLoad _ _ => 40 | PtrStore _ _ => 41 | PtrAssign _ _ _ => 42
  | PtrObject _ _ => 43 | PtrFunction _ _ => 44 | PtrNull _ => 45
  | PtrAssume _ => 46 | PtrAssert _ => 47
  | Callsite _ _ _ => 50 | Return _ => 51
  | Havoc _ => 60
  | BoolBinOp _ _ _ _ => 70 | BoolAssignCst _ _ => 71 | BoolAssignVar _ _ _ => 72
  | BoolAssume _ _ => 73 | BoolSelect _ _ _ _ => 74 | BoolAssert _ => 75
  | IntCast _ _ _ => 80
  end%N.

(** *** The statement constructors: each derives the live set once. *)

Definition binary_op (lhs : variable_t) (op : binary_operation_t)
    (op1 op2 : linear_expression) (dbg : debug_info) : statement :=
  {| m_live := add_uses (le_variables op2)
                 (add_uses (le_variables op1) (add_def lhs live_empty));
     m_dbg_info := dbg;
     m_body := BinOp lhs op op1 op2 |}.

Definition assignment (lhs : variable_t) (rhs : linear_expression) : statement :=
  {| m_live := add_uses (le_variables rhs) (add_def lhs live_empty);
     m_dbg_info := no_debug_info;
     m_body := Assign lhs rhs |}.

Definition assume_stmt (cst : linear_constraint) : statement :=
  {| m_live := add_uses (lc_variables cst) live_empty;
     m_dbg_info := no_debug_info;
     m_body := Assume cst |}.

Definition unreachable_stmt : statement :=
  {| m_live := live_empty; m_dbg_info := no_debug_info; m_body := Unreach |}.

Definition havoc_stmt (lhs : variable_t) : statement :=
  {| m_live := add_def lhs live_empty;
     m_dbg_info := no_debug_info;
     m_body := Havoc lhs |}.

Definition select_stmt (lhs : variable_t) (cond : linear_constraint)
    (e1 e2 : linear_expression) : statement :=
  {| m_live := add_uses (le_variables e2)
                 (add_uses (le_variables e1)
                    (add_uses (lc_variables cond) (add_def lhs live_empty)));
     m_dbg_info := no_debug_info;
     m_body := Select lhs cond e1 e2 |}.

Definition assert_stmt (cst : linear_constraint) (dbg : debug_info) : statement :=
  {| m_live := add_uses (lc_variables cst) live_empty;
     m_dbg_info := dbg;
     m_body := Assert cst |}.

Definition int_cast_stmt (op : cast_operation_t) (src dst : variable_t)
    (dbg : debug_info) : statement :=
  {| m_live := add_def dst (add_use src live_empty);
     m_dbg_info := dbg;
     m_body := IntCast op src dst |}.

Definition is_number_or_variable (e : linear_expression) : bool :=
  le_is_constant e || bool_decide (is_Some (le_get_variable e)).

Definition is_array_type (t : variable_type) : bool :=
  negb (type_code t <? type_code ARR_BOOL_TYPE)%N.

Definition array_assume_stmt (arr : variable_t) (elem_size : N)
    (lb ub val : linear_expression) : result statement :=
  if negb (is_number_or_variable lb) then
    CrabError "array_assume third parameter can only be number or variable"
  else if negb (is_number_or_variable ub) then
    CrabError "array_assume forth parameter can only be number or variable"
  else if negb (is_number_or_variable val) then
    CrabError "array_assume fifth parameter can only be number or variable"
  else
    Ok {| m_live := add_uses (le_variables val)
                      (add_uses (le_variables ub)
                         (add_uses (le_variables lb) (add_use arr live_empty)));
          m_dbg_info := no_debug_info;
          m_body := ArrAssume arr elem_size lb ub val |}.

Definition array_store_stmt (arr : variable_t) (index value : linear_expression)
    (elem_size : N) (is_sing : bool) : result statement :=
  if negb (is_array_type (get_type arr)) then
    CrabError "array_store must have array type"
  else if negb (is_number_or_variable value) then
    CrabError "array_store forth parameter only number or variable"
  else
    Ok {| m_live := add_uses (le_variables value)
                      (add_uses (le_variables index) (add_use arr live_empty));
          m_dbg_info := no_debug_info;
          m_body := ArrStore arr index value elem_size is_sing |}.

Definition array_load_stmt (lhs arr : variable_t) (index : linear_expression)
    (elem_size : N) : result statement :=
  if negb (is_array_type (get_type arr)) then
    CrabError "array_load must have array type"
  else
    Ok {| m_live := add_uses (le_variables index)
                      (add_use arr (add_def lhs live_empty));
          m_dbg_info := no_debug_info;
          m_body := ArrLoad lhs arr index elem_size |}.

Definition array_assign_stmt (lhs rhs : variable_t) : result statement :=
  if negb (is_array_type (get_type lhs))
     || negb (bool_decide (get_type lhs = get_type rhs)) then
    CrabError "array_assign must have array type"
  else
    Ok {| m_live := add_use rhs (add_def lhs live_empty);
          m_dbg_info := no_debug_info;
          m_body := ArrAssign lhs rhs |}.

(** p = *q *)
Definition ptr_load_stmt (lhs rhs : variable_t) (dbg : debug_info) : statement :=
  {| m_live := add_use rhs (add_use lhs live_empty);
     m_dbg_info := dbg;
     m_body := PtrLoad lhs rhs |}.

(** *p = q *)
Definition ptr_store_stmt (lhs rhs : variable_t) (dbg : debug_info) : statement :=
  {| m_live := add_use rhs (add_use lhs live_empty);
     m_dbg_info := dbg;
     m_body := PtrStore lhs rhs |}.

(** p = q + n *)
Definition ptr_assign_stmt (lhs rhs : variable_t) (offset : linear_expression)
    : statement :=
  {| m_live := add_use rhs (add_def lhs live_empty);
     m_dbg_info := no_debug_info;
     m_body := PtrAssign lhs rhs offset |}.

(** lhs = &a *)
Definition ptr_object_stmt (lhs : variable_t) (address : N) : statement :=
  {| m_live := add_def lhs live_empty;
     m_dbg_info := no_debug_info;
     m_body := PtrObject lhs address |}.

(** lhs = &func *)
Definition ptr_function_stmt (lhs : variable_t) (func : varname_t) : statement :=
  {| m_live := add_def lhs live_empty;
     m_dbg_info := no_debug_info;
     m_body := PtrFunction lhs func |}.

(** lhs := null *)
Definition ptr_null_stmt (lhs : variable_t) : statement :=
  {| m_live := add_def lhs live_empty;
     m_dbg_info := no_debug_info;
     m_body := PtrNull lhs |}.

(** The uses of a pointer constraint: none for a tautology or a
    contradiction, [lhs] for a unary one, [lhs] then [rhs] otherwise. *)
Definition ptr_cst_live (cst : ptr_cst_t) : Live :=
  match cst with
  | PtrTautology | PtrContradiction => live_empty
  | PtrUnary _ l => add_use l live_empty
  | PtrBinary _ l r => add_use r (add_use l live_empty)
  end.

Definition ptr_assume_stmt (cst : ptr_cst_t) : statement :=
  {| m_live := ptr_cst_live cst;
     m_dbg_info := no_debug_info;
     m_body := PtrAssume cst |}.

Definition ptr_assert_stmt (cst : ptr_cst_t) (dbg : debug_info) : statement :=
  {| m_live := ptr_cst_live cst;
     m_dbg_info := dbg;
     m_body := PtrAssert cst |}.

Definition callsite_stmt (func_name : string) (lhs args : list variable_t)
    : statement :=
  {| m_live := add_defs lhs (add_uses args live_empty);
     m_dbg_info := no_debug_info;
     m_body := Callsite func_name lhs args |}.

Definition return_stmt (ret_vals : list variable_t) : statement :=
  {| m_live := add_uses ret_vals live_empty;
     m_dbg_info := no_debug_info;
     m_body := Return ret_vals |}.

Definition bool_assign_cst (lhs : variable_t) (rhs : linear_constraint) : statement :=
  {| m_live := add_uses (lc_variables rhs) (add_def lhs live_empty);
     m_dbg_info := no_debug_info;
     m_body := BoolAssignCst lhs rhs |}.

Definition bool_assign_var (lhs rhs : variable_t) (is_not_rhs : bool) : statement :=
  {| m_live := add_use rhs (add_def lhs live_empty);
     m_dbg_info := no_debug_info;
     m_body := BoolAssignVar lhs rhs is_not_rhs |}.

Definition bool_binary_op (lhs : variable_t) (op : bool_binary_operation_t)
    (op1 op2 : variable_t) (dbg : debug_info) : statement :=
  {| m_live := add_use op2 (add_use op1 (add_def lhs live_empty));
     m_dbg_info := dbg;
     m_body := BoolBinOp lhs op op1 op2 |}.

Definition bool_assume_stmt (v : variable_t) (is_negated : bool) : statement :=
  {| m_live := add_use v live_empty;
     m_dbg_info := no_debug_info;
     m_body := BoolAssume v is_negated |}.

(** select b1, b2, b3, b4: if b2 then b1 = b3 else b1 = b4 *)
Definition bool_select_stmt (lhs cond b1 b2 : variable_t) : statement :=
  {| m_live := add_use b2 (add_use b1 (add_use cond (add_def lhs live_empty)));
     m_dbg_info := no_debug_info;
     m_body := BoolSelect lhs cond b1 b2 |}.

Definition bool_assert_stmt (v : variable_t) (dbg : debug_info) : statement :=
  {| m_live := add_use v live_empty;
     m_dbg_info := dbg;
     m_body := BoolAssert v |}.

(** [statement::clone]: every class rebuilds itself through its own
    constructor, with the arguments the class passes (several drop the
    debug tag). *)
Definition stmt_clone (s : statement) : result statement :=
  match m_body s with
  | BinOp lhs op op1 op2 => Ok (binary_op lhs op op1 op2 (m_dbg_info s))
  | Assign lhs rhs => Ok (assignment lhs rhs)
  | Assume cst => Ok (assume_stmt cst)
  | Unreach => Ok unreachable_stmt
  | Havoc lhs => Ok (havoc_stmt lhs)
  | Select lhs cond e1 e2 => Ok (select_stmt lhs cond e1 e2)
  | Assert cst => Ok (assert_stmt cst (m_dbg_info s))
  | IntCast op src dst => Ok (int_cast_stmt op src dst (m_dbg_info s))
  | ArrAssume arr sz lb ub val => array_assume_stmt arr sz lb ub val
  | ArrStore arr idx val sz sing => array_store_stmt arr idx val sz sing
  | ArrLoad lhs arr idx sz => array_load_stmt lhs arr idx sz
  | ArrAssign lhs rhs => array_assign_stmt lhs rhs
  | PtrLoad lhs rhs => Ok (ptr_load_stmt lhs rhs (m_dbg_info s))
  | PtrStore lhs rhs => Ok (ptr_store_stmt lhs rhs no_debug_info)
  | PtrAssign lhs rhs off => Ok (ptr_assign_stmt lhs rhs off)
  | PtrObject lhs addr => Ok (ptr_object_stmt lhs addr)
  | PtrFunction lhs f => Ok (ptr_function_stmt lhs f)
  | PtrNull lhs => Ok (ptr_null_stmt lhs)
  | PtrAssume cst => Ok (ptr_assume_stmt cst)
  | PtrAssert cst => Ok (ptr_assert_stmt cst (m_dbg_info s))
  | Callsite f lhs args => Ok (callsite_stmt f lhs args)
  | Return ret => Ok (return_stmt ret)
  | BoolAssignCst lhs rhs => Ok (bool_assign_cst lhs rhs)
  | BoolAssignVar lhs rhs neg => Ok (bool_assign_var lhs rhs neg)
  | BoolBinOp lhs op op1 op2 => Ok (bool_binary_op lhs op op1 op2 (m_dbg_info s))
  | BoolAssume v neg => Ok (bool_assume_stmt v neg)
  | BoolSelect lhs cond b1 b2 => Ok (bool_select_stmt lhs cond b1 b2)
  | BoolAssert v => Ok (bool_assert_stmt v (m_dbg_info s))
  end.

(* ===================================================================== *)
(** ** Basic blocks                                                      *)
(* ===================================================================== *)

(** [BasicBlockLabel] is a template parameter; the repository's clients
    instantiate it with [std::string]. *)
Abbreviation BasicBlockLabel := string (only parsing).

(** Modelled from the spec: [ikos::discrete_domain<variable_t>] is a
    finite set of variables keyed by their identity; [bottom] is the empty
    set, [+=] adds one element and [|] is the union. *)
Abbreviation live_domain_t := (gset varname_t) (only parsing).

Record basic_block := mk_bb {
  m_bb_id : BasicBlockLabel;
  m_stmts : list statement;
  m_prev : list BasicBlockLabel;
  m_next : list BasicBlockLabel;
  m_track_prec : tracked_precision;
  m_insert_point_at_front : bool;
  m_bb_live : live_domain_t
}.

Definition insert_adjacent (c : list BasicBlockLabel) (e : BasicBlockLabel)
    : list BasicBlockLabel :=
  if bool_decide (e ∈ c) then c else c ++ [e].

(** [c.erase (std::remove (c.begin (), c.end (), e), c.end ())] *)
Definition remove_adjacent (c : list BasicBlockLabel) (e : BasicBlockLabel)
    : list BasicBlockLabel :=
  if bool_decide (e ∈ c) then filter (λ x, x ≠ e) c else c.

Definition bb_create (bb_id : BasicBlockLabel) (track_prec : tracked_precision)
    : basic_block :=
  {| m_bb_id := bb_id; m_stmts := []; m_prev := []; m_next := [];
     m_track_prec := track_prec; m_insert_point_at_front := false;
     m_bb_live := ∅ |}.

Definition live_names (vs : list variable_t) : live_domain_t :=
  list_to_set (var_name <$> vs).

(** [basic_block::insert]: at the front once if the flag is set, at the
    back otherwise; the block's live set absorbs the statement's uses and
    defs. *)
Definition bb_insert (stmt : statement) (bb : basic_block) : basic_block :=
  {| m_bb_id := m_bb_id bb;
     m_stmts := if m_insert_point_at_front bb
                then stmt :: m_stmts bb
                else m_stmts bb ++ [stmt];
     m_prev := m_prev bb;
     m_next := m_next bb;
     m_track_prec := m_track_prec bb;
     m_insert_point_at_front := false;
     m_bb_live := m_bb_live bb ∪ live_names (m_uses (m_live stmt))
                               ∪ live_names (m_defs (m_live stmt)) |}.

Definition set_insert_point_front (bb : basic_block) : basic_block :=
  {| m_bb_id := m_bb_id bb; m_stmts := m_stmts bb; m_prev := m_prev bb;
     m_next := m_next bb; m_track_prec := m_track_prec bb;
     m_insert_point_at_front := true; m_bb_live := m_bb_live bb |}.

Definition set_next (f : list BasicBlockLabel → list BasicBlockLabel)
    (bb : basic_block) : basic_block :=
  {| m_bb_id := m_bb_id bb; m_stmts := m_stmts bb; m_prev := m_prev bb;
     m_next := f (m_next bb); m_track_prec := m_track_prec bb;
     m_insert_point_at_front := m_insert_point_at_front bb;
     m_bb_live := m_bb_live bb |}.

Definition set_prev (f : list BasicBlockLabel → list BasicBlockLabel)
    (bb : basic_block) : basic_block :=
  {| m_bb_id := m_bb_id bb; m_stmts := m_stmts bb; m_prev := f (m_prev bb);
     m_next := m_next bb; m_track_prec := m_track_prec bb;
     m_insert_point_at_front := m_insert_point_at_front bb;
     m_bb_live := m_bb_live bb |}.

(** [basic_block::clone]: a fresh block of the same label and precision
    that receives a clone of every statement in order, the two adjacency
    vectors and the live set.  The insertion flag is the fresh block's. *)
Definition bb_clone (bb : basic_block) : result basic_block :=
  stmts ← foldM (λ acc s, s' ← stmt_clone s; Ok (acc ++ [s'])) (m_stmts bb) [];
  Ok {| m_bb_id := m_bb_id bb;
        m_stmts := stmts;
        m_prev := m_prev bb;
        m_next := m_next bb;
        m_track_prec := m_track_prec bb;
        m_insert_point_at_front := false;
        m_bb_live := m_bb_live bb |}.

(** [merge_back]: all statements of [other] at the back, live sets
    joined. *)
Definition merge_back (other : basic_block) (bb : basic_block) : basic_block :=
  {| m_bb_id := m_bb_id bb; m_stmts := m_stmts bb ++ m_stmts other;
     m_prev := m_prev bb; m_next := m_next bb;
     m_track_prec := m_track_prec bb;
     m_insert_point_at_front := m_insert_point_at_front bb;
     m_bb_live := m_bb_live bb ∪ m_bb_live other |}.

Definition merge_front (other : basic_block) (bb : basic_block) : basic_block :=
  {| m_bb_id := m_bb_id bb; m_stmts := m_stmts other ++ m_stmts bb;
     m_prev := m_prev bb; m_next := m_next bb;
     m_track_prec := m_track_prec bb;
     m_insert_point_at_front := m_insert_point_at_front bb;
     m_bb_live := m_bb_live bb ∪ m_bb_live other |}.

(** *** The block builders gated by the tracking precision *)

Definition prec_geb (p q : tracked_precision) : bool :=
  (prec_code q <=? prec_code p)%N.

Definition prec_ltb (p q : tracked_precision) : bool :=
  (prec_code p <? prec_code q)%N.

Definition bb_array_assume (a : variable_t) (elem_size : N)
    (lb_idx ub_idx v : linear_expression) (bb : basic_block) : result basic_block :=
  if bool_decide (m_track_prec bb = ARR) then
    s ← array_assume_stmt a elem_size lb_idx ub_idx v; Ok (bb_insert s bb)
  else Ok bb.

Definition bb_array_store (arr : variable_t) (idx v : linear_expression)
    (elem_size : N) (is_singleton : bool) (bb : basic_block) : result basic_block :=
  if bool_decide (m_track_prec bb = ARR) then
    s ← array_store_stmt arr idx v elem_size is_singleton; Ok (bb_insert s bb)
  else Ok bb.

Definition bb_array_load (lhs arr : variable_t) (idx : linear_expression)
    (elem_size : N) (bb : basic_block) : result basic_block :=
  if bool_decide (m_track_prec bb = ARR) then
    s ← array_load_stmt lhs arr idx elem_size; Ok (bb_insert s bb)
  else Ok bb.

Definition bb_array_assign (lhs rhs : variable_t) (bb : basic_block)
    : result basic_block :=
  if bool_decide (m_track_prec bb = ARR) then
    s ← array_assign_stmt lhs rhs; Ok (bb_insert s bb)
  else Ok bb.

Definition bb_ptr_store (lhs rhs : variable_t) (bb : basic_block)
    : result basic_block :=
  if prec_geb (m_track_prec bb) PTR
  then Ok (bb_insert (ptr_store_stmt lhs rhs no_debug_info) bb) else Ok bb.

Definition bb_ptr_load (lhs rhs : variable_t) (bb : basic_block)
    : result basic_block :=
  if prec_geb (m_track_prec bb) PTR
  then Ok (bb_insert (ptr_load_stmt lhs rhs no_debug_info) bb) else Ok bb.

Definition bb_ptr_assign (lhs rhs : variable_t) (offset : linear_expression)
    (bb : basic_block) : result basic_block :=
  if prec_geb (m_track_prec bb) PTR
  then Ok (bb_insert (ptr_assign_stmt lhs rhs offset) bb) else Ok bb.

Definition bb_ptr_new_object (lhs : variable_t) (address : N) (bb : basic_block)
    : result basic_block :=
  if prec_geb (m_track_prec bb) PTR
  then Ok (bb_insert (ptr_object_stmt lhs address) bb) else Ok bb.

Definition bb_ptr_new_func (lhs : variable_t) (func : N) (bb : basic_block)
    : result basic_block :=
  if prec_geb (m_track_prec bb) PTR
  then Ok (bb_insert (ptr_function_stmt lhs func) bb) else Ok bb.

Definition bb_ptr_null (lhs : variable_t) (bb : basic_block) : result basic_block :=
  if prec_geb (m_track_prec bb) PTR
  then Ok (bb_insert (ptr_null_stmt lhs) bb) else Ok bb.

Definition bb_ptr_assume (cst : ptr_cst_t) (bb : basic_block) : result basic_block :=
  if prec_geb (m_track_prec bb) PTR
  then Ok (bb_insert (ptr_assume_stmt cst) bb) else Ok bb.

Definition bb_ptr_assertion (cst : ptr_cst_t) (di : debug_info) (bb : basic_block)
    : result basic_block :=
  if prec_geb (m_track_prec bb) PTR
  then Ok (bb_insert (ptr_assert_stmt cst di) bb) else Ok bb.

(** One value per call of a gated builder, with the arguments of the
    call; [ptr_assertion] has an overload without a debug tag. *)
Inductive gated_builder_call :=
| Call_array_assume (a : variable_t) (elem_size : N) (lb ub v : linear_expression)
| Call_array_store (arr : variable_t) (idx v : linear_expression)
                   (elem_size : N) (is_singleton : bool)
| Call_array_load (lhs arr : variable_t) (idx : linear_expression) (elem_size : N)
| Call_array_assign (lhs rhs : variable_t)
| Call_ptr_store (lhs rhs : variable_t)
| Call_ptr_load (lhs rhs : variable_t)
| Call_ptr_assign (lhs rhs : variable_t) (offset : linear_expression)
| Call_ptr_new_object (lhs : variable_t) (address : N)
| Call_ptr_new_func (lhs : variable_t) (func : N)
| Call_ptr_null (lhs : variable_t)
| Call_ptr_assume (cst : ptr_cst_t)
| Call_ptr_assertion (cst : ptr_cst_t)
| Call_ptr_assertion_dbg (cst : ptr_cst_t) (di : debug_info).

Definition run_builder (c : gated_builder_call) (bb : basic_block)
    : result basic_block :=
  match c with
  | Call_array_assume a sz lb ub v => bb_array_assume a sz lb ub v bb
  | Call_array_store arr idx v sz sing => bb_array_store arr idx v sz sing bb
  | Call_array_load lhs arr idx sz => bb_array_load lhs arr idx sz bb
  | Call_array_assign lhs rhs => bb_array_assign lhs rhs bb
  | Call_ptr_store lhs rhs => bb_ptr_store lhs rhs bb
  | Call_ptr_load lhs rhs => bb_ptr_load lhs rhs bb
  | Call_ptr_assign lhs rhs off => bb_ptr_assign lhs rhs off bb
  | Call_ptr_new_object lhs addr => bb_ptr_new_object lhs addr bb
  | Call_ptr_new_func lhs f => bb_ptr_new_func lhs f bb
  | Call_ptr_null lhs => bb_ptr_null lhs bb
  | Call_ptr_assume cst => bb_ptr_assume cst bb
  | Call_ptr_assertion cst => bb_ptr_assertion cst no_debug_info bb
  | Call_ptr_assertion_dbg cst di => bb_ptr_assertion cst di bb
  end.

(** The statement family of a gated call: the precision it needs. *)
Definition required_precision (c : gated_builder_call) : tracked_precision :=
  match c with
  | Call_array_assume _ _ _ _ _ | Call_array_store _ _ _ _ _
  | Call_array_load _ _ _ _ | Call_array_assign _ _ => ARR
  | _ => PTR
  end.

(** Ungated builders used below to populate blocks. *)
Definition bb_havoc (lhs : variable_t) (bb : basic_block) : basic_block :=
  bb_insert (havoc_stmt lhs) bb.

Definition bb_assign (lhs : variable_t) (rhs : linear_expression)
    (bb : basic_block) : basic_block :=
  bb_insert (assignment lhs rhs) bb.

Definition bb_assume (cst : linear_constraint) (bb : basic_block) : basic_block :=
  bb_insert (assume_stmt cst) bb.

Definition bb_bin_op (op : binary_operation_t) (lhs : variable_t)
    (op1 op2 : linear_expression) (bb : basic_block) : basic_block :=
  bb_insert (binary_op lhs op op1 op2 no_debug_info) bb.

Definition bb_ret (ret_vals : list variable_t) (bb : basic_block) : basic_block :=
  bb_insert (return_stmt ret_vals) bb.

Definition bb_bool_select (lhs cond b1 b2 : variable_t) (bb : basic_block)
    : basic_block :=
  bb_insert (bool_select_stmt lhs cond b1 b2) bb.

(* ===================================================================== *)
(** ** Function declarations and the CFG                                 *)
(* ===================================================================== *)

Record function_decl := mk_fdecl {
  m_func_name : string;
  m_inputs : list variable_t;
  m_outputs : list variable_t
}.

(** The constructor collects inputs and outputs in a [std::set] and
    rejects the declaration when some variable occurs twice. *)
Definition function_decl_new (func_name : string) (inputs outputs : list variable_t)
    : result function_decl :=
  let s : gset varname_t := list_to_set (var_name <$> (inputs ++ outputs)) in
  if bool_decide (size s ≠ length inputs + length outputs) then
    CrabError "interprocedural analysis requires that for each function its set of inputs and outputs must be disjoint."
  else Ok {| m_func_name := func_name; m_inputs := inputs; m_outputs := outputs |}.

(** The blocks of a CFG: [boost::unordered_map] from label to block.  A
    reference to a block is the key under which the map stores it. *)
Abbreviation basic_block_map_t := (gmap string basic_block) (only parsing).

Record Cfg := mk_cfg {
  m_entry : BasicBlockLabel;
  m_exit : BasicBlockLabel;
  m_has_exit : bool;
  m_blocks : basic_block_map_t;
  m_cfg_track_prec : tracked_precision;
  m_func_decl : option function_decl
}.

(** [unordered_map::insert]: no effect when the key is already bound. *)
Definition unordered_insert (k : BasicBlockLabel) (v : basic_block)
    (m : basic_block_map_t) : basic_block_map_t :=
  match m !! k with
  | Some _ => m
  | None => <[k := v]> m
  end.

(** The three public constructors; the entry block is created at once.  A
    label that is not given is the value-initialised one. *)
Definition Cfg_new (entry : BasicBlockLabel) (track_prec : tracked_precision) : Cfg :=
  {| m_entry := entry; m_exit := ""%string; m_has_exit := false;
     m_blocks := unordered_insert entry (bb_create entry track_prec) ∅;
     m_cfg_track_prec := track_prec; m_func_decl := None |}.

Definition Cfg_new_exit (entry exit : BasicBlockLabel)
    (track_prec : tracked_precision) : Cfg :=
  {| m_entry := entry; m_exit := exit; m_has_exit := true;
     m_blocks := unordered_insert entry (bb_create entry track_prec) ∅;
     m_cfg_track_prec := track_prec; m_func_decl := None |}.

Definition Cfg_new_fdecl (entry exit : BasicBlockLabel) (func_decl : function_decl)
    (track_prec : tracked_precision) : Cfg :=
  {| m_entry := entry; m_exit := exit; m_has_exit := true;
     m_blocks := unordered_insert entry (bb_create entry track_prec) ∅;
     m_cfg_track_prec := track_prec; m_func_decl := Some func_decl |}.

Definition with_blocks (c : Cfg) (blocks : basic_block_map_t) : Cfg :=
  {| m_entry := m_entry c; m_exit := m_exit c; m_has_exit := m_has_exit c;
     m_blocks := blocks; m_cfg_track_prec := m_cfg_track_prec c;
     m_func_decl := m_func_decl c |}.

Definition set_exit (exit : BasicBlockLabel) (c : Cfg) : Cfg :=
  {| m_entry := m_entry c; m_exit := exit; m_has_exit := true;
     m_blocks := m_blocks c; m_cfg_track_prec := m_cfg_track_prec c;
     m_func_decl := m_func_decl c |}.

Definition set_func_decl (decl : function_decl) (c : Cfg) : Cfg :=
  {| m_entry := m_entry c; m_exit := m_exit c; m_has_exit := m_has_exit c;
     m_blocks := m_blocks c; m_cfg_track_prec := m_cfg_track_prec c;
     m_func_decl := Some decl |}.

Definition has_exit (c : Cfg) : bool := m_has_exit c.

Definition cfg_exit (c : Cfg) : result BasicBlockLabel :=
  if has_exit c then Ok (m_exit c)
  else CrabError "cfg does not have an exit block".

Definition cfg_entry (c : Cfg) : BasicBlockLabel := m_entry c.

Definition get_node (bb_id : BasicBlockLabel) (blocks : basic_block_map_t)
    : result basic_block :=
  match blocks !! bb_id with
  | Some bb => Ok bb
  | None => CrabError "Basic block not found in the CFG"
  end.

Definition next_nodes (bb_id : BasicBlockLabel) (blocks : basic_block_map_t)
    : result (list BasicBlockLabel) :=
  b ← get_node bb_id blocks; Ok (m_next b).

Definition prev_nodes (bb_id : BasicBlockLabel) (blocks : basic_block_map_t)
    : result (list BasicBlockLabel) :=
  b ← get_node bb_id blocks; Ok (m_prev b).

Definition cfg_size (c : Cfg) : nat := size (m_blocks c).

(** [Cfg::insert]: the existing block if the label is bound, a fresh empty
    block of the CFG's precision otherwise. *)
Definition cfg_insert (bb_id : BasicBlockLabel) (c : Cfg) : Cfg :=
  match m_blocks c !! bb_id with
  | Some _ => c
  | None =>
      with_blocks c (unordered_insert bb_id (bb_create bb_id (m_cfg_track_prec c))
                       (m_blocks c))
  end.

(** Apply a builder to the block stored under [bb_id]. *)
Definition on_block (bb_id : BasicBlockLabel) (f : basic_block → basic_block)
    (c : Cfg) : Cfg :=
  with_blocks c (alter f bb_id (m_blocks c)).

(** [a >> b]: add the edge from the block stored under [a] to the block
    stored under [b].  Both references must designate blocks of the map. *)
Definition add_edge (a b : BasicBlockLabel) (blocks : basic_block_map_t)
    : result basic_block_map_t :=
  this ← get_node a blocks;
  other ← get_node b blocks;
  Ok (alter (set_prev (λ c, insert_adjacent c (m_bb_id this))) b
        (alter (set_next (λ c, insert_adjacent c (m_bb_id other))) a blocks)).

(** [a -= b]: remove the edge from [a] to [b]. *)
Definition remove_edge (a b : BasicBlockLabel) (blocks : basic_block_map_t)
    : result basic_block_map_t :=
  this ← get_node a blocks;
  other ← get_node b blocks;
  Ok (alter (set_prev (λ c, remove_adjacent c (m_bb_id this))) b
        (alter (set_next (λ c, remove_adjacent c (m_bb_id other))) a blocks)).

(** [Cfg::remove]: collect the edges to and from the neighbours (a
    self-loop is skipped), cut them, erase the block. *)
Definition dead_edges (bb_id : BasicBlockLabel) (bb : basic_block)
    (blocks : basic_block_map_t)
    : result (list (BasicBlockLabel * BasicBlockLabel)) :=
  dead ← foldM (λ dead id,
                  if bool_decide (bb_id ≠ id)
                  then _ ← get_node id blocks; Ok (dead ++ [(id, bb_id)])
                  else Ok dead) (m_prev bb) [];
  foldM (λ dead id,
           if bool_decide (bb_id ≠ id)
           then _ ← get_node id blocks; Ok (dead ++ [(bb_id, id)])
           else Ok dead) (m_next bb) dead.

Definition cfg_remove (bb_id : BasicBlockLabel) (blocks : basic_block_map_t)
    : result basic_block_map_t :=
  bb ← get_node bb_id blocks;
  dead ← dead_edges bb_id bb blocks;
  blocks' ← foldM (λ g p, remove_edge p.1 p.2 g) dead blocks;
  Ok (delete bb_id blocks').

(** [Cfg::clone]: a fresh CFG built by the (entry, precision) constructor
    receives the exit, the declaration and, through [unordered_map::insert],
    a clone of every block. *)
Definition cfg_clone (c : Cfg) : result Cfg :=
  let _cfg := Cfg_new (m_entry c) (m_cfg_track_prec c) in
  blocks ← foldM (λ acc (p : string * basic_block),
                    copyBB ← bb_clone p.2;
                    Ok (unordered_insert (m_bb_id copyBB) copyBB acc))
                 (map_to_list (m_blocks c)) (m_blocks _cfg);
  Ok {| m_entry := m_entry _cfg;
        m_exit := if m_has_exit c then m_exit c else m_exit _cfg;
        m_has_exit := m_has_exit c;
        m_blocks := blocks;
        m_cfg_track_prec := m_cfg_track_prec _cfg;
        m_func_decl := m_func_decl c |}.

(** The union, over all blocks, of the blocks' live sets. *)
Definition get_vars (c : Cfg) : list varname_t :=
  elements (map_fold (λ _ b (ls : gset varname_t), ls ∪ m_bb_live b) ∅ (m_blocks c)).

(* ===================================================================== *)
(** ** The reversed view                                                  *)
(* ===================================================================== *)

(** [basic_block_rev] holds a reference to the block it presents. *)
Record basic_block_rev := mk_bb_rev { _bb : BasicBlockLabel }.

(** [cfg_rev] holds the (copyable) reference to the CFG and one reversed
    wrapper per block. *)
Record cfg_rev := mk_cfg_rev {
  _cfg : Cfg;
  _rev_bbs : gmap string basic_block_rev
}.

(** The converting constructor only fills [_rev_bbs]. *)
Definition cfg_rev_new (cfg : Cfg) : result cfg_rev :=
  Ok {| _cfg := cfg;
        _rev_bbs := map_fold (λ k bb (acc : gmap string basic_block_rev),
                                match acc !! m_bb_id bb with
                                | Some _ => acc
                                | None => <[m_bb_id bb := {| _bb := k |}]> acc
                                end) ∅ (m_blocks cfg) |}.

Definition rev_entry (r : cfg_rev) : result BasicBlockLabel :=
  if negb (has_exit (_cfg r)) then CrabError "Entry not found!"
  else cfg_exit (_cfg r).

Definition rev_has_exit (r : cfg_rev) : bool := true.

Definition rev_exit (r : cfg_rev) : BasicBlockLabel := cfg_entry (_cfg r).

Definition rev_next_nodes (bb : BasicBlockLabel) (r : cfg_rev)
    : result (list BasicBlockLabel) :=
  prev_nodes bb (m_blocks (_cfg r)).

Definition rev_prev_nodes (bb : BasicBlockLabel) (r : cfg_rev)
    : result (list BasicBlockLabel) :=
  next_nodes bb (m_blocks (_cfg r)).

Definition rev_get_node (bb_id : BasicBlockLabel) (r : cfg_rev)
    : result basic_block_rev :=
  match _rev_bbs r !! bb_id with
  | Some b => Ok b
  | None => CrabError "Basic block not found in the CFG"
  end.

(** The statements of a reversed block: those of the block, last first. *)
Definition rev_stmts (b : basic_block_rev) (r : cfg_rev) : result (list statement) :=
  bb ← get_node (_bb b) (m_blocks (_cfg r)); Ok (reverse (m_stmts bb)).

(* ===================================================================== *)
(** ** Simplification                                                    *)
(* ===================================================================== *)

Abbreviation visited_t := (gset string) (only parsing).

(** Recursive traversals carry fuel, which bounds the nesting of the
    calls; each nesting level marks one more block as visited.  [None] is
    fuel exhaustion, which no run of the program corresponds to. *)
Definition fbind {A B} (x : option (result A)) (f : A → option (result B))
    : option (result B) :=
  match x with
  | None => None
  | Some (CrabError msg) => Some (CrabError msg)
  | Some (Ok a) => f a
  end.

Fixpoint ffold {A B} (f : B → A → option (result B)) (l : list A) (acc : B)
    : option (result B) :=
  match l with
  | [] => Some (Ok acc)
  | x :: l' => fbind (f acc x) (ffold f l')
  end.

(** [donot_simplify_visitor]: the flag is raised by an assume, a boolean
    assume and an array load; every other statement leaves it alone. *)
Definition donot_simplify_visit (s : statement) (flag : bool) : bool :=
  match m_body s with
  | Assume _ | BoolAssume _ _ | ArrLoad _ _ _ _ => true
  | _ => flag
  end.

Definition do_not_simplify (stmts : list statement) : bool :=
  fold_left (λ flag s, donot_simplify_visit s flag) stmts false.

Definition has_one_child (b : BasicBlockLabel) (blocks : basic_block_map_t)
    : result bool :=
  rng ← next_nodes b blocks; Ok (bool_decide (length rng = 1)).

Definition has_one_parent (b : BasicBlockLabel) (blocks : basic_block_map_t)
    : result bool :=
  rng ← prev_nodes b blocks; Ok (bool_decide (length rng = 1)).

(** [get_child] and [get_parent] return the reference to the first
    neighbour, once it is found in the map. *)
Definition get_child (b : BasicBlockLabel) (blocks : basic_block_map_t)
    : result BasicBlockLabel :=
  rng ← next_nodes b blocks;
  match rng with
  | n :: _ => _ ← get_node n blocks; Ok n
  | [] => CrabError "assertion has_one_child failed"
  end.

Definition get_parent (b : BasicBlockLabel) (blocks : basic_block_map_t)
    : result BasicBlockLabel :=
  rng ← prev_nodes b blocks;
  match rng with
  | p :: _ => _ ← get_node p blocks; Ok p
  | [] => CrabError "assertion has_one_parent failed"
  end.

(** The fusion itself: the parent takes the statements of [cur], the
    block is removed, the parent is linked to the child; the traversal
    resumes at the child's label. *)
Definition fuse (parent child curId : BasicBlockLabel) (cur : basic_block)
    (blocks : basic_block_map_t) : result (basic_block_map_t * BasicBlockLabel) :=
  blocks1 ← Ok (alter (merge_back cur) parent blocks);
  blocks2 ← cfg_remove curId blocks1;
  blocks3 ← add_edge parent child blocks2;
  child_bb ← get_node child blocks3;
  Ok (blocks3, m_bb_id child_bb).

(** [merge_blocks_rec].  The range-for over the successors walks the
    vector as it stood when the loop was entered. *)
Fixpoint merge_blocks_rec (fuel : nat) (curId : BasicBlockLabel)
    (st : basic_block_map_t * visited_t)
    : option (result (basic_block_map_t * visited_t)) :=
  match fuel with
  | 0 => None
  | S fuel' =>
      if bool_decide (curId ∈ st.2) then Some (Ok st)
      else
        let visited : visited_t := st.2 ∪ {[curId]} in
        let descend (cur : basic_block) :=
          ffold (λ st' n, merge_blocks_rec fuel' n st') (m_next cur)
                (st.1, visited) in
        fbind (Some (get_node curId st.1)) (λ cur,
        fbind (Some (has_one_child curId st.1)) (λ one_child,
        fbind (Some (if one_child then has_one_parent curId st.1 else Ok false))
          (λ one_parent,
          if one_child && one_parent then
            fbind (Some (get_parent curId st.1)) (λ parent,
            fbind (Some (get_child curId st.1)) (λ child,
              if negb (do_not_simplify (m_stmts cur)) then
                fbind (Some (fuse parent child curId cur st.1)) (λ r,
                  merge_blocks_rec fuel' r.2 (r.1, visited))
              else descend cur))
          else descend cur)))
  end.

Definition merge_blocks (c : Cfg) : option (result Cfg) :=
  fbind (merge_blocks_rec (S (size (m_blocks c))) (cfg_entry c) (m_blocks c, ∅))
        (λ r, Some (Ok (with_blocks c r.1))).

(** [mark_alive_blocks] over any graph that answers [next_nodes]. *)
Fixpoint mark_alive_blocks (fuel : nat) (curId : BasicBlockLabel)
    (nexts : BasicBlockLabel → result (list BasicBlockLabel))
    (visited : visited_t) : option (result visited_t) :=
  match fuel with
  | 0 => None
  | S fuel' =>
      if bool_decide (curId ∈ visited) then Some (Ok visited)
      else
        fbind (Some (nexts curId)) (λ children,
          ffold (λ vis child, mark_alive_blocks fuel' child nexts vis) children
                (visited ∪ {[curId]}))
  end.

(** The labels of the blocks that are not in [keep]. *)
Definition labels_outside (keep : visited_t) (blocks : basic_block_map_t)
    : list BasicBlockLabel :=
  elements (list_to_set
    (filter (λ l, l ∉ keep) (m_bb_id <$> (map_to_list blocks).*2)) : gset string).

Definition remove_unreachable_blocks (c : Cfg) : option (result Cfg) :=
  fbind (mark_alive_blocks (S (size (m_blocks c))) (cfg_entry c)
           (λ l, next_nodes l (m_blocks c)) ∅) (λ alive,
  fbind (Some (foldM (λ g bb_id, cfg_remove bb_id g)
                 (labels_outside alive (m_blocks c)) (m_blocks c))) (λ g,
  Some (Ok (with_blocks c g)))).

Definition remove_useless_blocks (c : Cfg) : option (result Cfg) :=
  if negb (has_exit c) then Some (Ok c)
  else
    fbind (Some (cfg_rev_new c)) (λ rev_cfg,
    fbind (Some (rev_entry rev_cfg)) (λ entry,
    fbind (mark_alive_blocks (S (size (m_blocks c))) entry
             (λ l, rev_next_nodes l rev_cfg) ∅) (λ useful,
    fbind (Some (foldM (λ g bb_id, cfg_remove bb_id g)
                   (labels_outside useful (m_blocks c)) (m_blocks c))) (λ g,
    Some (Ok (with_blocks c g)))))).

Definition simplify (c : Cfg) : option (result Cfg) :=
  fbind (merge_blocks c) (λ c1,
  fbind (remove_unreachable_blocks c1) (λ c2,
  fbind (remove_useless_blocks c2) (λ c3,
  fbind (merge_blocks c3) (λ c4,
  merge_blocks c4)))).

(* ===================================================================== *)
(** ** The type checker                                                  *)
(* ===================================================================== *)

(** Every failed check raises the fatal error with the reason given by
    the caller (the rendering of the statement is left out). *)
Definition tc_error (msg : string) : result unit :=
  CrabError ("(type checking) " +:+ msg).

Definition check_num (v : variable_t) (msg : string) : result unit :=
  if bool_decide (get_type v ≠ INT_TYPE) && bool_decide (get_type v ≠ REAL_TYPE)
  then tc_error msg else Ok ().

Definition check_int_or_bool (v : variable_t) (msg : string) : result unit :=
  if bool_decide (get_type v ≠ INT_TYPE) && bool_decide (get_type v ≠ BOOL_TYPE)
  then tc_error msg else Ok ().

Definition check_int (v : variable_t) (msg : string) : result unit :=
  if bool_decide (get_type v ≠ INT_TYPE) || (get_bitwidth v <=? 1)%N
  then tc_error msg else Ok ().

Definition check_bool (v : variable_t) (msg : string) : result unit :=
  if bool_decide (get_type v ≠ BOOL_TYPE) || negb (get_bitwidth v =? 1)%N
  then tc_error msg else Ok ().

Definition check_bitwidth_if_int (v : variable_t) (msg : string) : result unit :=
  if bool_decide (get_type v = INT_TYPE) then
    if (get_bitwidth v <=? 1)%N then tc_error msg else Ok ()
  else Ok ().

Definition check_bitwidth_if_bool (v : variable_t) (msg : string) : result unit :=
  if bool_decide (get_type v = BOOL_TYPE) then
    if negb (get_bitwidth v =? 1)%N then tc_error msg else Ok ()
  else Ok ().

Definition check_same_type (v1 v2 : variable_t) (msg : string) : result unit :=
  if bool_decide (get_type v1 ≠ get_type v2) then tc_error msg else Ok ().

Definition check_same_bitwidth (v1 v2 : variable_t) (msg : string) : result unit :=
  if bool_decide (get_type v1 = INT_TYPE) || bool_decide (get_type v1 = BOOL_TYPE)
  then if negb (get_bitwidth v1 =? get_bitwidth v2)%N then tc_error msg else Ok ()
  else Ok ().

(** The loop shared by assume, assert and the right-hand side of a
    boolean assignment: every variable is numeric and agrees with the
    first one. *)
Definition check_all_like_first (vars : list variable_t)
    (msg_num msg_type msg_width : string) : result unit :=
  _ ← foldM (λ (first_var : option variable_t) v,
               _ ← check_num v msg_num;
               let fv := default v first_var in
               _ ← check_same_type fv v msg_type;
               _ ← check_same_bitwidth fv v msg_width;
               Ok (Some fv)) vars None;
  Ok ().

Definition check_all_like (lhs : variable_t) (vars : list variable_t)
    (msg_type msg_width : string) : result unit :=
  _ ← foldM (λ (_ : unit) v,
               _ ← check_same_type lhs v msg_type;
               check_same_bitwidth lhs v msg_width) vars ();
  Ok ().

Definition visit_int_cast (op : cast_operation_t) (src dst : variable_t)
    : result unit :=
  match op with
  | CAST_TRUNC =>
      _ ← check_int src "source operand must be integer";
      _ ← check_int_or_bool dst "destination must be integer or bool";
      _ ← check_bitwidth_if_bool dst
            "type and bitwidth of destination operand do not match";
      _ ← check_bitwidth_if_int dst
            "type and bitwidth of destination operand do not match";
      if (get_bitwidth src <=? get_bitwidth dst)%N then
        tc_error "bitwidth of source operand must be greater than destination"
      else Ok ()
  | CAST_SEXT | CAST_ZEXT =>
      _ ← check_int dst "destination operand must be integer";
      _ ← check_int_or_bool src "source must be integer or bool";
      _ ← check_bitwidth_if_bool src
            "type and bitwidth of source operand do not match";
      _ ← check_bitwidth_if_int src
            "type and bitwidth of source operand do not match";
      if (get_bitwidth dst <=? get_bitwidth src)%N then
        tc_error "bitwidth of destination must be greater than source"
      else Ok ()
  end.

(** [type_checker_visitor::visit], one case per statement class. *)
Definition type_checker_visit (s : statement) : result unit :=
  match m_body s with
  | BinOp lhs _ op1 op2 =>
      _ ← check_num lhs "lhs must be integer or real";
      _ ← check_bitwidth_if_int lhs "lhs must be have bitwidth > 1";
      _ ← match le_get_variable op1 with
          | Some v1 =>
              _ ← check_same_type lhs v1
                    "first operand cannot have different type from lhs";
              check_same_bitwidth lhs v1
                "first operand cannot have different bitwidth from lhs"
          | None => tc_error "first binary operand must be a variable"
          end;
      match le_get_variable op2 with
      | Some v2 =>
          _ ← check_same_type lhs v2
                "second operand cannot have different type from lhs";
          check_same_bitwidth lhs v2
            "second operand cannot have different bitwidth from lhs"
      | None => Ok ()
      end
  | Assign lhs rhs =>
      _ ← check_num lhs "lhs must be integer or real";
      _ ← check_bitwidth_if_int lhs "lhs must be have bitwidth > 1";
      check_all_like lhs (le_variables rhs)
        "variable cannot have different type from lhs"
        "variable cannot have different bitwidth from lhs"
  | Assume cst =>
      check_all_like_first (lc_variables cst)
        "assume variables must be integer or real"
        "inconsistent types in assume variables"
        "inconsistent bitwidths in assume variables"
  | Assert cst =>
      check_all_like_first (lc_variables cst)
        "assert variables must be integer or real"
        "inconsistent types in assert variables"
        "inconsistent bitwidths in assert variables"
  | Select lhs cond e1 e2 =>
      _ ← check_num lhs "lhs must be integer or real";
      _ ← check_bitwidth_if_int lhs "lhs must be have bitwidth > 1";
      _ ← check_all_like lhs (le_variables e1)
            "inconsistent types in select variables"
            "inconsistent bitwidths in select variables";
      _ ← check_all_like lhs (le_variables e2)
            "inconsistent types in select variables"
            "inconsistent bitwidths in select variables";
      _ ← foldM (λ (first_var : option variable_t) v,
                   _ ← check_num v "assume variables must be integer or real";
                   let fv := default v first_var in
                   _ ← check_same_type lhs v
                         "inconsistent types in select condition variables";
                   _ ← check_same_type fv v
                         "inconsistent types in select condition variables";
                   _ ← check_same_bitwidth fv v
                         "inconsistent bitwidths in select condition variables";
                   Ok (Some fv)) (lc_variables cond) None;
      Ok ()
  | IntCast op src dst => visit_int_cast op src dst
  | Havoc _ | Unreach => Ok ()
  | BoolBinOp lhs _ op1 op2 =>
      _ ← check_bool lhs "lhs must be boolean";
      _ ← check_bool op1 "first operand must be boolean";
      check_bool op2 "second operand must be boolean"
  | BoolAssignCst lhs rhs =>
      _ ← check_bool lhs "lhs must be boolean";
      check_all_like_first (lc_variables rhs)
        "rhs variables must be integer or real"
        "inconsistent types in rhs variables"
        "inconsistent bitwidths in rhs variables"
  | BoolAssignVar lhs rhs _ =>
      _ ← check_bool lhs "lhs must be boolean";
      check_bool rhs "rhs must be boolean"
  | BoolAssume cond _ => check_bool cond "condition must be boolean"
  | BoolAssert cond => check_bool cond "condition must be boolean"
  | BoolSelect lhs cond b1 b2 =>
      _ ← check_bool lhs "lhs must be boolean";
      _ ← check_bool lhs "condition must be boolean";
      _ ← check_bool b1 "first operand must be boolean";
      check_bool b2 "second operand must be boolean"
  | Callsite _ _ _ | Return _
  | ArrAssume _ _ _ _ _ | ArrStore _ _ _ _ _ | ArrLoad _ _ _ _ | ArrAssign _ _
  | PtrStore _ _ | PtrLoad _ _ | PtrAssign _ _ _ | PtrObject _ _
  | PtrFunction _ _ | PtrNull _ | PtrAssume _ | PtrAssert _ => Ok ()
  end.

(** [b.accept (&vis)]: the statements of a block in order. *)
Definition type_check_block (b : basic_block) : result unit :=
  foldM (λ (_ : unit) s, type_checker_visit s) (m_stmts b) ().

(** [type_checker::run] *)
Definition type_checker_run (c : Cfg) : result unit :=
  if bool_decide (cfg_size c = 0) then
    CrabError "CFG must have at least one basic block"
  else if negb (has_exit c) then CrabError "CFG must have exit block"
  else
    _ ← (if bool_decide (cfg_size c = 1) then
           ex ← cfg_exit c;
           if negb (bool_decide (ex = cfg_entry c))
           then CrabError "CFG entry and exit must be the same" else Ok ()
         else Ok ());
    foldM (λ (_ : unit) (p : string * basic_block), type_check_block p.2)
          (map_to_list (m_blocks c)) ().

(* ===================================================================== *)
(** ** Hashing and equality of CFGs                                      *)
(* ===================================================================== *)

(** The two Boost functions the hasher relies on, [boost::hash_value] on
    strings and [boost::hash_combine] with a variable type, are an interface
    of the development. *)
Class BoostHash := {
  hash_value_string : string → N;
  hash_combine : N → variable_type → N
}.

(** [unsigned get_num_inputs ()]: the vector size as a 32-bit unsigned. *)
Definition get_num_inputs (d : function_decl) : N :=
  (N.of_nat (length (m_inputs d)) mod 2 ^ 32)%N.

Definition get_num_outputs (d : function_decl) : N :=
  (N.of_nat (length (m_outputs d)) mod 2 ^ 32)%N.

(** The bounds check and the indexing are one lookup. *)
Definition get_input_type (idx : N) (d : function_decl) : result variable_type :=
  match m_inputs d !! N.to_nat idx with
  | Some v => Ok (get_type v)
  | None => CrabError "Out-of-bound access to function output parameter"
  end.

Definition get_output_type (idx : N) (d : function_decl) : result variable_type :=
  match m_outputs d !! N.to_nat idx with
  | Some v => Ok (get_type v)
  | None => CrabError "Out-of-bound access to function output parameter"
  end.

(** [for (unsigned i = 0; i < n; i++) hash_combine (res, get (i))] *)
Definition hash_loop `{BoostHash} (get : N → result variable_type) (n : N) (res : N)
    : result N :=
  foldM (λ res i, t ← get (N.of_nat i); Ok (hash_combine res t))
        (seq 0 (N.to_nat n)) res.

(** [cfg_hasher::hash (fdecl_t)] *)
Definition cfg_hasher_hash `{BoostHash} (d : function_decl) : result N :=
  res ← hash_loop (λ i, get_input_type i d) (get_num_inputs d)
          (hash_value_string (m_func_name d));
  hash_loop (λ i, get_output_type i d) (get_num_outputs d) res.

Definition hash_value `{BoostHash} (c : Cfg) : result N :=
  match m_func_decl c with
  | None => CrabError "cannot hash a cfg because function declaration is missing"
  | Some fdecl => cfg_hasher_hash fdecl
  end.

(** [operator==] *)
Definition cfg_eq `{BoostHash} (a b : Cfg) : result bool :=
  ha ← hash_value a; hb ← hash_value b; Ok (ha =? hb)%N.

(** The hash of a signature in the words of the specification: the hash
    of the function name combined with the input types in order, then with
    the output types in order.  [counted n] is the number of parameters the
    32-bit counters of the hasher see in a vector of [n]. *)
Definition counted (n : nat) : nat := N.to_nat (N.of_nat n mod 2 ^ 32)%N.

Definition signature_hash_of `{BoostHash} (name : string)
    (inputs outputs : list variable_type) : N :=
  fold_left hash_combine (take (counted (length outputs)) outputs)
    (fold_left hash_combine (take (counted (length inputs)) inputs)
       (hash_value_string name)).

Definition signature_hash `{BoostHash} (d : function_decl) : N :=
  signature_hash_of (m_func_name d)
    (get_type <$> m_inputs d) (get_type <$> m_outputs d).

(** A concrete instance: the [hash_combine] and the string [hash_range]
    of Boost releases up to 1.80 on a 64-bit [size_t]; an enumeration
    hashes to its integer value. *)
Definition boost_mix (seed v : N) : N :=
  N.lxor seed ((v + 2654435769 + N.shiftl seed 6 + N.shiftr seed 2) mod 2 ^ 64)%N.

Definition boost_hash_string (s : string) : N :=
  fold_left (λ seed c, boost_mix seed (Ascii.N_of_ascii c)) (String.list_ascii_of_string s) 0%N.

#[global] Instance boost_hash_64 : BoostHash :=
  {| hash_value_string := boost_hash_string;
     hash_combine := λ seed t, boost_mix seed (type_code t) |}.

(* ===================================================================== *)
(** ** Sample programs                                                   *)
(* ===================================================================== *)

Module Samples.

Definition x : variable_t := mk_var 1%N INT_TYPE 32%N.
Definition y : variable_t := mk_var 2%N INT_TYPE 32%N.
Definition z : variable_t := mk_var 3%N INT_TYPE 32%N.
Definition w64 : variable_t := mk_var 4%N INT_TYPE 64%N.
Definition p : variable_t := mk_var 5%N PTR_TYPE 64%N.
Definition q : variable_t := mk_var 6%N PTR_TYPE 64%N.
Definition b0 : variable_t := mk_var 7%N BOOL_TYPE 1%N.
Definition b1 : variable_t := mk_var 8%N BOOL_TYPE 1%N.
Definition b2 : variable_t := mk_var 9%N BOOL_TYPE 1%N.

(** x >= 1, kept as the expression [x - 1] compared with zero. *)
Definition x_positive : linear_constraint :=
  {| lc_exp := {| le_terms := [(1%Z, x)]; le_cst := -1 |};
     lc_kind := INEQUALITY |}.

(** A CFG of one block, [entry: havoc x], without exit or signature. *)
Definition one_block : Cfg :=
  on_block "entry" (bb_havoc x) (Cfg_new "entry" NUM).

(** [entry -> exit] with [entry: y := x + 1] and
    [exit: z := y + 2; return z]. *)
Definition two_blocks : result Cfg :=
  let c := cfg_insert "exit" (Cfg_new_exit "entry" "exit" NUM) in
  let c := on_block "entry" (bb_bin_op BINOP_ADD y (var_exp x) (num_exp 1)) c in
  let c := on_block "exit" (bb_bin_op BINOP_ADD z (var_exp y) (num_exp 2)) c in
  let c := on_block "exit" (bb_ret [z]) c in
  g ← add_edge "entry" "exit" (m_blocks c);
  Ok (with_blocks c g).

(** A branch: [P -> B], [P -> C], [B -> D], [C -> D], with
    [B: havoc x] and [C: assume (x >= 1)]. *)
Definition branch : result Cfg :=
  let c := cfg_insert "D" (cfg_insert "C" (cfg_insert "B"
             (Cfg_new_exit "P" "D" NUM))) in
  let c := on_block "B" (bb_havoc x) c in
  let c := on_block "C" (bb_assume x_positive) c in
  g ← foldM (λ g (e : string * string), add_edge e.1 e.2 g)
        [("P", "B"); ("P", "C"); ("B", "D"); ("C", "D")] (m_blocks c);
  Ok (with_blocks c g).

(** The blocks of the branch (no step of its construction raises). *)
Definition branch_blocks : gmap string basic_block :=
  match branch with
  | Ok c => m_blocks c
  | CrabError _ => ∅
  end.

(** Per block: label, number of statements, predecessors, successors. *)
Definition shape (c : Cfg)
    : list (string * nat * list string * list string) :=
  (λ e : string * basic_block,
     (e.1, length (m_stmts e.2), m_prev e.2, m_next e.2))
    <$> map_to_list (m_blocks c).

Definition foo_decl : function_decl :=
  {| m_func_name := "foo"; m_inputs := [x]; m_outputs := [z] |}.

Definition foo_cfg : Cfg := Cfg_new_fdecl "entry" "exit" foo_decl NUM.

(** Another signature: the same name and inputs, a boolean output. *)
Definition bar_cfg : Cfg :=
  Cfg_new_fdecl "entry" "exit"
    {| m_func_name := "foo"; m_inputs := [x]; m_outputs := [b0] |} NUM.

(** The same signature over a different block structure. *)
Definition foo_cfg' : Cfg :=
  on_block "entry" (bb_havoc x) (cfg_insert "exit" foo_cfg).

End Samples.

(* ===================================================================== *)
(** ** Predicates of the specification                                   *)
(* ===================================================================== *)

(** Every block is stored under its own label. *)
Definition labels_ok (g : gmap string basic_block) : Prop :=
  map_Forall (λ l bb, m_bb_id bb = l) g.

(** Adjacency symmetry: for all blocks A and B of the map, B is a
    successor of A exactly when A is a predecessor of B. *)
Definition adjacency_symmetric (g : gmap string basic_block) : Prop :=
  map_Forall (λ a ba,
    map_Forall (λ b bb, b ∈ m_next ba ↔ a ∈ m_prev bb) g) g.

#[global] Instance labels_ok_dec g : Decision (labels_ok g) := _.

#[global] Instance adjacency_symmetric_dec g : Decision (adjacency_symmetric g).
Proof. unfold adjacency_symmetric. apply _. Defined.

(** Every label in an adjacency vector designates a block of the map. *)
Definition adjacency_closed (g : gmap string basic_block) : Prop :=
  map_Forall (λ _ bk,
    Forall (λ l, is_Some (g !! l)) (m_next bk) ∧
    Forall (λ l, is_Some (g !! l)) (m_prev bk)) g.

#[global] Instance adjacency_closed_dec g : Decision (adjacency_closed g).
Proof. unfold adjacency_closed. apply _. Defined.

(** The invariant of the block map of a CFG. *)
Definition blocks_wf (g : gmap string basic_block) : Prop :=
  labels_ok g ∧ adjacency_symmetric g ∧ adjacency_closed g.


(** The variables a statement assigns: the left-hand side of the
    statements of the form [lhs = ...], the destination of a cast, the
    actual outputs of a call. *)
Definition assigned_variables (b : stmt_body) : list variable_t :=
  match b with
  | BinOp lhs _ _ _ | Assign lhs _ | Havoc lhs | Select lhs _ _ _
  | ArrLoad lhs _ _ _ | ArrAssign lhs _
  | PtrLoad lhs _ | PtrAssign lhs _ _ | PtrObject lhs _ | PtrFunction lhs _
  | PtrNull lhs
  | BoolAssignCst lhs _ | BoolAssignVar lhs _ _ | BoolBinOp lhs _ _ _
  | BoolSelect lhs _ _ _ => [lhs]
  | IntCast _ _ dst => [dst]
  | Callsite _ lhs _ => lhs
  | _ => []
  end.

(** The variables read through the linear expressions and constraints a
    statement carries. *)
Definition expression_variables (b : stmt_body) : list variable_t :=
  match b with
  | BinOp _ _ op1 op2 => le_variables op1 ++ le_variables op2
  | Assign _ rhs => le_variables rhs
  | Assume cst | Assert cst | BoolAssignCst _ cst => lc_variables cst
  | Select _ cond e1 e2 => lc_variables cond ++ le_variables e1 ++ le_variables e2
  | ArrAssume _ _ lb ub val => le_variables lb ++ le_variables ub ++ le_variables val
  | ArrStore _ idx val _ _ => le_variables idx ++ le_variables val
  | ArrLoad _ _ idx _ => le_variables idx
  | PtrAssign _ _ offset => le_variables offset
  | _ => []
  end.

(** [covers s vs]: every variable of [vs] is found in the partition [s]. *)
Definition covers (s vs : list variable_t) : Prop :=
  ∀ v, v ∈ vs → live_find s v = true.



(** The number of blocks a traversal has not visited yet. *)
Definition unvisited (g : gmap string basic_block) (vis : gset string) : nat :=
  size (dom g ∖ vis).

(** Both edge operations rewrite the successors of the block under [a]
    and the predecessors of the block under [b]. *)
Definition rewire (fn fp : list string → list string) (a b k : string)
    (bk : basic_block) : basic_block :=
  (if decide (b = k) then set_prev fp else id)
    ((if decide (a = k) then set_next fn else id) bk).

(** The width change a cast must make: strictly down for a truncation,
    strictly up for an extension. *)
Definition cast_width_strict (op : cast_operation_t) (src dst : variable_t) : Prop :=
  match op with
  | CAST_TRUNC => (get_bitwidth dst < get_bitwidth src)%N
  | CAST_SEXT | CAST_ZEXT => (get_bitwidth src < get_bitwidth dst)%N
  end.

(** A variable is a boolean operand when it has type [Bool] and width 1. *)
Definition is_bool_var (v : variable_t) : Prop :=
  get_type v = BOOL_TYPE ∧ get_bitwidth v = 1%N.


(* ===================================================================== *)
(** ** Call sites and their hash                                         *)
(* ===================================================================== *)

(** [unsigned get_num_args ()]: the vector size as a 32-bit unsigned. *)
Definition get_num_args (args : list variable_t) : N :=
  (N.of_nat (length args) mod 2 ^ 32)%N.

(** The bounds check and the indexing are one lookup. *)
Definition get_arg_name (idx : N) (args : list variable_t) : result variable_t :=
  match args !! N.to_nat idx with
  | Some v => Ok v
  | None => CrabError "Out-of-bound access to call site parameter"
  end.

Definition get_arg_type (idx : N) (args : list variable_t) : result variable_type :=
  match args !! N.to_nat idx with
  | Some v => Ok (get_type v)
  | None => CrabError "Out-of-bound access to call site parameter"
  end.

(** [cfg_hasher::hash (callsite_t)], on the three members of the call
    site: the name, then the types of the left-hand sides through the
    range-for, then the types of the arguments through the counted loop. *)
Definition cfg_hasher_hash_callsite `{BoostHash} (func_name : string)
    (lhs args : list variable_t) : result N :=
  let res := fold_left (λ res vt, hash_combine res (get_type vt)) lhs
               (hash_value_string func_name) in
  hash_loop (λ i, get_arg_type i args) (get_num_args args) res.

(** The name getters of a declaration, bounds-checked like the type
    getters. *)
Definition get_input_name (idx : N) (d : function_decl) : result variable_t :=
  match m_inputs d !! N.to_nat idx with
  | Some v => Ok v
  | None => CrabError "Out-of-bound access to function input parameter"
  end.

Definition get_output_name (idx : N) (d : function_decl) : result variable_t :=
  match m_outputs d !! N.to_nat idx with
  | Some v => Ok v
  | None => CrabError "Out-of-bound access to function input parameter"
  end.

(* ===================================================================== *)
(** ** The reversed view of a block                                      *)
(* ===================================================================== *)

(** [basic_block_rev] forwards to the block it refers to, with the two
    adjacency ranges exchanged. *)
Definition rev_label (b : basic_block_rev) (r : cfg_rev) : result BasicBlockLabel :=
  bb ← get_node (_bb b) (m_blocks (_cfg r)); Ok (m_bb_id bb).

Definition rev_next_blocks (b : basic_block_rev) (r : cfg_rev)
    : result (list BasicBlockLabel) :=
  bb ← get_node (_bb b) (m_blocks (_cfg r)); Ok (m_prev bb).

Definition rev_prev_blocks (b : basic_block_rev) (r : cfg_rev)
    : result (list BasicBlockLabel) :=
  bb ← get_node (_bb b) (m_blocks (_cfg r)); Ok (m_next bb).

(* ===================================================================== *)
(** ** The variable factory of [ikos/cfg/VarFactory.hpp]                 *)
(* ===================================================================== *)

(** [index_t] is [uint64_t]. *)
Definition index_max : N := (2 ^ 64)%N.

(** [IndexedString]: the shared string and its index.  The third member,
    the address of the factory, is read by [getVarFactory] only. *)
Record IndexedString := mk_indexed_string {
  _s : string;
  _id : N
}.

Definition index (s : IndexedString) : N := _id s.

(** [get_str] is specialised for [std::string] only, as the identity. *)
Definition str (s : IndexedString) : string := _s s.

(** [operator<] and [operator==] look at the index alone. *)
Definition indexed_string_ltb (a b : IndexedString) : bool := (_id a <? _id b)%N.

Definition indexed_string_eqb (a b : IndexedString) : bool := (_id a =? _id b)%N.

Record VariableFactory := mk_var_factory {
  _next_id : N;
  _map : gmap string IndexedString
}.

Definition VariableFactory_new : VariableFactory :=
  {| _next_id := 1; _map := ∅ |}.

Definition VariableFactory_from (start_id : N) : VariableFactory :=
  {| _next_id := start_id; _map := ∅ |}.

(** [operator[]]: the known [IndexedString] of the string, or a new one
    that takes the next index; [_next_id++] is on 64 bits. *)
Definition factory_get (s : string) (vf : VariableFactory)
    : IndexedString * VariableFactory :=
  match _map vf !! s with
  | None =>
      let istr := {| _s := s; _id := _next_id vf |} in
      (istr, {| _next_id := ((_next_id vf + 1) mod index_max)%N;
              _map := <[s := istr]> (_map vf) |})
  | Some istr => (istr, vf)
  end.

(** A run of the factory: the strings are looked up from left to right. *)
Definition factory_get_all (names : list string) (vf : VariableFactory)
    : list IndexedString * VariableFactory :=
  fold_left (λ acc s, let r := factory_get s acc.2 in (acc.1 ++ [r.1], r.2))
            names ([], vf).

(** The invariant of a factory: every string is bound to the
    [IndexedString] made for it, whose index was handed out before
    [_next_id], and no index was handed out twice. *)
Definition factory_wf (vf : VariableFactory) : Prop :=
  (∀ s istr, _map vf !! s = Some istr → _s istr = s ∧ (_id istr < _next_id vf)%N) ∧
  (∀ s1 s2 i1 i2, _map vf !! s1 = Some i1 → _map vf !! s2 = Some i2 →
                  _id i1 = _id i2 → s1 = s2).

(* ===================================================================== *)
(** ** More sample programs                                              *)
(* ===================================================================== *)


(** [entry -> exit] with [entry: havoc x] and [exit: havoc y], and a block
    [island] that no edge touches. *)
Definition sample_island_blocks : gmap string basic_block :=
  let c := cfg_insert "island" (cfg_insert "exit"
             (Cfg_new_exit "entry" "exit" NUM)) in
  let c := on_block "entry" (bb_havoc Samples.x) c in
  let c := on_block "exit" (bb_havoc Samples.y) c in
  match add_edge "entry" "exit" (m_blocks c) with
  | Ok g => g
  | CrabError _ => ∅
  end.

Definition sample_island_cfg : Cfg :=
  {| m_entry := "entry"; m_exit := "exit"; m_has_exit := true;
     m_blocks := sample_island_blocks;
     m_cfg_track_prec := NUM; m_func_decl := None |}.

(* ===================================================================== *)
(** ** Predicates of the invariants                                      *)
(* ===================================================================== *)

(** A partition of the live set holds no variable twice. *)
Definition live_nodup (l : Live) : Prop :=
  NoDup (var_name <$> m_uses l) ∧ NoDup (var_name <$> m_defs l).


(** A numeric operand: of type integer or real. *)
Definition is_num_var (v : variable_t) : Prop :=
  get_type v = INT_TYPE ∨ get_type v = REAL_TYPE.

(** [agrees v w]: [w] has the type of [v] and, when [v] is an integer or
    a boolean, also its width. *)
Definition agrees (v w : variable_t) : Prop :=
  get_type v = get_type w ∧
  (get_type v = INT_TYPE ∨ get_type v = BOOL_TYPE → get_bitwidth v = get_bitwidth w).

(** The left-hand side of an arithmetic statement: numeric, and wider
    than one bit when it is an integer. *)
Definition is_num_lhs (v : variable_t) : Prop :=
  is_num_var v ∧ (get_type v = INT_TYPE → (1 < get_bitwidth v)%N).

(** The successor relation of a graph given by its [next_nodes]. *)
Definition edge_of (nexts : string → result (list string)) (a b : string) : Prop :=
  ∃ ls, nexts a = Ok ls ∧ b ∈ ls.

(** The successors of [n] are known and all lie in [V]. *)
Definition closed_at (nexts : string → result (list string)) (V : gset string)
    (n : string) : Prop :=
  ∃ ls, nexts n = Ok ls ∧ ∀ m, m ∈ ls → m ∈ V.

(* ===================================================================== *)
(** * Properties                                                         *)
(* ===================================================================== *)

Lemma bind_Ok {A B} (r : result A) (f : A → result B) (b : B) :
  r ≫= f = Ok b ↔ ∃ a, r = Ok a ∧ f a = Ok b.
Proof.
  destruct r as [a|msg]; simpl; split.
  - intros Hf. by exists a.
  - by intros (a' & [= ->] & Hf).
  - discriminate.
  - by intros (a' & ? & _).
Qed.

Lemma foldM_app {A B} (f : B → A → result B) (l1 l2 : list A) (acc : B) :
  foldM f (l1 ++ l2) acc = foldM f l1 acc ≫= foldM f l2.
Proof.
  revert acc. induction l1 as [|a l1 IH]; intros acc; simpl; [done|].
  destruct (f acc a) as [acc'|msg]; simpl; [apply IH | done].
Qed.

(** A loop invariant rule for loops that may raise. *)
Lemma foldM_invariant {A B} (P : B → Prop) (f : B → A → result B)
    (l : list A) (acc acc' : B) :
  (∀ b a b', a ∈ l → P b → f b a = Ok b' → P b') →
  P acc → foldM f l acc = Ok acc' → P acc'.
Proof.
  revert acc. induction l as [|a l IH]; intros acc Hstep Hacc; simpl.
  - by intros [= <-].
  - intros (b & Hb & Hrest)%bind_Ok.
    apply (IH b); [| |done].
    + intros b0 a0 b0' Hin. apply Hstep. by right.
    + eapply Hstep; [|done..]. by left.
Qed.

(* --------------------------------------------------------------------- *)
(** ** Live sets of the statement constructors                            *)
(* --------------------------------------------------------------------- *)

Lemma variable_eqb_refl v : variable_eqb v v = true.
Proof. apply N.eqb_refl. Qed.

Lemma live_find_add_same s v : live_find (live_add s v) v = true.
Proof.
  unfold live_add. destruct (live_find s v) eqn:Hf; [done|].
  unfold live_find. rewrite existsb_app. simpl.
  by rewrite variable_eqb_refl, orb_true_r.
Qed.

Lemma live_find_add_mono s v w :
  live_find s w = true → live_find (live_add s v) w = true.
Proof.
  intros Hw. unfold live_add. destruct (live_find s v); [done|].
  unfold live_find in *. by rewrite existsb_app, Hw.
Qed.

Lemma covers_nil s : covers s [].
Proof. by intros v ?%elem_of_nil. Qed.

Lemma covers_app s vs ws : covers s vs → covers s ws → covers s (vs ++ ws).
Proof. intros Hv Hw v [?|?]%elem_of_app; auto. Qed.

Lemma covers_add_mono s v vs : covers s vs → covers (live_add s v) vs.
Proof. intros Hc w Hw. by apply live_find_add_mono, Hc. Qed.

Lemma covers_add_same s v : covers (live_add s v) [v].
Proof. intros w ->%list_elem_of_singleton. apply live_find_add_same. Qed.

Lemma add_uses_defs vs l : m_defs (add_uses vs l) = m_defs l.
Proof. revert l. induction vs as [|v vs IH]; intros l; [done|]. simpl. by rewrite IH. Qed.

Lemma add_defs_uses vs l : m_uses (add_defs vs l) = m_uses l.
Proof. revert l. induction vs as [|v vs IH]; intros l; [done|]. simpl. by rewrite IH. Qed.

Lemma covers_add_uses_mono vs l ws :
  covers (m_uses l) ws → covers (m_uses (add_uses vs l)) ws.
Proof.
  revert l. induction vs as [|v vs IH]; intros l Hc; [done|]. simpl.
  apply IH. simpl. by apply covers_add_mono.
Qed.

Lemma covers_add_uses vs l : covers (m_uses (add_uses vs l)) vs.
Proof.
  revert l. induction vs as [|v vs IH]; intros l; [apply covers_nil|]. simpl.
  intros w [->|Hw]%elem_of_cons; [|by apply IH].
  apply (covers_add_uses_mono vs (add_use v l) [v]); [|by left].
  simpl. apply covers_add_same.
Qed.

Lemma covers_add_defs_mono vs l ws :
  covers (m_defs l) ws → covers (m_defs (add_defs vs l)) ws.
Proof.
  revert l. induction vs as [|v vs IH]; intros l Hc; [done|]. simpl.
  apply IH. simpl. by apply covers_add_mono.
Qed.

Lemma covers_add_defs vs l : covers (m_defs (add_defs vs l)) vs.
Proof.
  revert l. induction vs as [|v vs IH]; intros l; [apply covers_nil|]. simpl.
  intros w [->|Hw]%elem_of_cons; [|by apply IH].
  apply (covers_add_defs_mono vs (add_def v l) [v]); [|by left].
  simpl. apply covers_add_same.
Qed.

Create HintDb live discriminated.
#[local] Hint Resolve covers_nil covers_app covers_add_mono covers_add_same
  covers_add_uses_mono covers_add_uses covers_add_defs_mono covers_add_defs : live.

Ltac live_solver :=
  simpl; rewrite ?add_uses_defs, ?add_defs_uses; simpl;
  repeat apply covers_app; eauto 8 with live.

(** X3. Every constructor except [ptr_load_stmt] records the variables
    the statement assigns (the left-hand side, the destination of a cast,
    the results of a call) as definitions of its live set. *)
Lemma constructors_record_definitions (s s' : statement) :
  stmt_clone s = Ok s' →
  (∀ lhs rhs, m_body s ≠ PtrLoad lhs rhs) →
  covers (m_defs (m_live s')) (assigned_variables (m_body s)).
Proof.
  unfold stmt_clone, array_assume_stmt, array_store_stmt, array_load_stmt,
    array_assign_stmt.
  destruct (m_body s); repeat case_match; intros [= <-] Hnot;
    try (by destruct (Hnot lhs rhs)); live_solver.
Qed.

(** X4. Every constructor except [ptr_assign_stmt] records the variables
    of the linear expressions and constraints it is given as uses of its
    live set. *)
Lemma constructors_record_expression_uses (s s' : statement) :
  stmt_clone s = Ok s' →
  (∀ lhs rhs offset, m_body s ≠ PtrAssign lhs rhs offset) →
  covers (m_uses (m_live s')) (expression_variables (m_body s)).
Proof.
  unfold stmt_clone, array_assume_stmt, array_store_stmt, array_load_stmt,
    array_assign_stmt.
  destruct (m_body s); repeat case_match; intros [= <-] Hnot;
    try (by destruct (Hnot lhs rhs offset)); live_solver.
Qed.

(** C2.  The live set built by [ptr_load_stmt] for [lhs = *rhs] has no
    definition at all: the assigned variable [lhs] is recorded as a use.
    The live set built by [ptr_assign_stmt] for [lhs = rhs + offset] records
    [rhs] as its only use, whatever variables the offset expression reads.
    So for [p = *q] the target [p] is not among the definitions, and for
    [p = q + x] the variable [x] that is read is not among the uses. *)
Theorem ptr_constructors_live_partition :
  (∀ lhs rhs dbg,
     m_defs (m_live (ptr_load_stmt lhs rhs dbg)) = [] ∧
     live_find (m_uses (m_live (ptr_load_stmt lhs rhs dbg))) lhs = true) ∧
  (∀ lhs rhs offset,
     m_uses (m_live (ptr_assign_stmt lhs rhs offset)) = [rhs]) ∧
  live_find (m_defs (m_live (ptr_load_stmt Samples.p Samples.q no_debug_info)))
            Samples.p = false ∧
  live_find (m_uses (m_live (ptr_assign_stmt Samples.p Samples.q
                               (var_exp Samples.x))))
            Samples.x = false.
Proof.
  split; [|split; [|split]]; try reflexivity.
  intros lhs rhs dbg. split; [reflexivity|]. simpl.
  apply live_find_add_mono. simpl. by rewrite variable_eqb_refl.
Qed.

(** The two-block program of the specification: its variables are x, y
    and z, and it passes the type checker. *)
Example two_blocks_vars_and_types :
  (c ← Samples.two_blocks; Ok (get_vars c)) = Ok [2%N; 3%N; 1%N] ∧
  (c ← Samples.two_blocks; type_checker_run c) = Ok ().
Proof. split; vm_compute; reflexivity. Qed.

(* --------------------------------------------------------------------- *)
(** ** Precision-gated builders                                          *)
(* --------------------------------------------------------------------- *)

Lemma prec_ltb_PTR (p : tracked_precision) :
  prec_ltb p PTR = true → prec_geb p PTR = false.
Proof. by destruct p. Qed.

Lemma prec_ltb_ARR (p : tracked_precision) :
  prec_ltb p ARR = true → p ≠ ARR.
Proof. by destruct p. Qed.

(** C6.  A pointer builder called on a block whose precision is below
    [PTR], or an array builder called on a block whose precision is below
    [ARR], returns normally and leaves the block as it was: no statement is
    added, the live set does not change, no error is raised. *)
Theorem gated_builder_is_noop (c : gated_builder_call) (bb : basic_block) :
  prec_ltb (m_track_prec bb) (required_precision c) = true →
  run_builder c bb = Ok bb.
Proof.
  intros Hlt. destruct c; simpl in *;
    first
      [ apply prec_ltb_ARR in Hlt;
        unfold bb_array_assume, bb_array_store, bb_array_load, bb_array_assign;
        by rewrite bool_decide_eq_false_2
      | apply prec_ltb_PTR in Hlt;
        unfold bb_ptr_store, bb_ptr_load, bb_ptr_assign, bb_ptr_new_object,
          bb_ptr_new_func, bb_ptr_null, bb_ptr_assume, bb_ptr_assertion;
        by rewrite Hlt ].
Qed.

Lemma gated_builder_is_noop_witness :
  prec_ltb (m_track_prec (bb_create "b" NUM))
           (required_precision (Call_array_store Samples.x (var_exp Samples.y)
                                  (var_exp Samples.z) 4%N false)) = true ∧
  run_builder (Call_array_store Samples.x (var_exp Samples.y)
                 (var_exp Samples.z) 4%N false) (bb_create "b" NUM)
  = Ok (bb_create "b" NUM).
Proof.
  split; [reflexivity|].
  apply gated_builder_is_noop. reflexivity.
Defined.

(** The same call on a block that tracks arrays reaches the constructor,
    which rejects the integer variable used as an array. *)
Example gated_builder_effective :
  run_builder (Call_array_store Samples.x (var_exp Samples.y)
                 (var_exp Samples.z) 4%N false) (bb_create "b" ARR)
  = CrabError "array_store must have array type".
Proof. reflexivity. Qed.

(** Blocks created through the CFG carry the CFG's precision. *)
Lemma cfg_insert_precision (bb_id : BasicBlockLabel) (c : Cfg) :
  m_blocks c !! bb_id = None →
  m_track_prec <$> (m_blocks (cfg_insert bb_id c) !! bb_id)
  = Some (m_cfg_track_prec c).
Proof.
  intros Hnone. unfold cfg_insert, unordered_insert. rewrite !Hnone. simpl.
  by rewrite lookup_insert_eq.
Qed.

(* --------------------------------------------------------------------- *)
(** ** Type checking of casts and boolean statements                     *)
(* --------------------------------------------------------------------- *)

Lemma result_unit_cases (r : result unit) :
  r = Ok () ∨ ∃ msg, r = CrabError msg.
Proof. destruct r as [[]|msg]; eauto. Qed.

Lemma visit_int_cast_Ok (op : cast_operation_t) (src dst : variable_t) :
  visit_int_cast op src dst = Ok () → cast_width_strict op src dst.
Proof.
  unfold visit_int_cast, cast_width_strict.
  destruct op;
    repeat (intros (? & _ & H)%bind_Ok; revert H);
    case N.leb_spec; intros Hle H; try discriminate H; lia.
Qed.

(** C7.  The type checker accepts an integer cast only if the width change
    is strict in the direction of the cast: a truncation needs the source
    wider than the destination, a sign or zero extension needs the
    destination wider than the source; any other cast raises the fatal
    error. *)
Theorem int_cast_accepted_only_if_strict
    (s : statement) (op : cast_operation_t) (src dst : variable_t) :
  m_body s = IntCast op src dst →
  (type_checker_visit s = Ok () → cast_width_strict op src dst) ∧
  (¬ cast_width_strict op src dst →
   ∃ msg, type_checker_visit s = CrabError msg).
Proof.
  intros Hbody. unfold type_checker_visit. rewrite Hbody. split.
  - apply visit_int_cast_Ok.
  - intros Hno.
    destruct (result_unit_cases (visit_int_cast op src dst)) as [Hok|Herr];
      [|done].
    by apply visit_int_cast_Ok in Hok.
Qed.

Lemma int_cast_accepted_only_if_strict_witness :
  m_body (int_cast_stmt CAST_TRUNC Samples.w64 Samples.x no_debug_info)
    = IntCast CAST_TRUNC Samples.w64 Samples.x ∧
  type_checker_visit (int_cast_stmt CAST_TRUNC Samples.w64 Samples.x no_debug_info)
    = Ok () ∧
  cast_width_strict CAST_TRUNC Samples.w64 Samples.x ∧
  ∃ msg, type_checker_visit
           (int_cast_stmt CAST_ZEXT Samples.w64 Samples.x no_debug_info)
         = CrabError msg.
Proof.
  split; [reflexivity|]. split; [reflexivity|]. split.
  - apply (int_cast_accepted_only_if_strict
             (int_cast_stmt CAST_TRUNC Samples.w64 Samples.x no_debug_info)
             CAST_TRUNC Samples.w64 Samples.x); reflexivity.
  - apply (int_cast_accepted_only_if_strict
             (int_cast_stmt CAST_ZEXT Samples.w64 Samples.x no_debug_info)
             CAST_ZEXT Samples.w64 Samples.x); [reflexivity|].
    simpl. lia.
Defined.

(** Equal widths are rejected in both directions. *)
Example int_cast_same_width_rejected :
  is_error (type_checker_visit
              (int_cast_stmt CAST_TRUNC Samples.x Samples.y no_debug_info)) = true ∧
  is_error (type_checker_visit
              (int_cast_stmt CAST_SEXT Samples.x Samples.y no_debug_info)) = true.
Proof. split; reflexivity. Qed.

Lemma check_bool_Ok (v : variable_t) (msg : string) :
  check_bool v msg = Ok () ↔ is_bool_var v.
Proof.
  unfold check_bool, is_bool_var, tc_error.
  case_bool_decide as Hty; simpl.
  - split; [discriminate | intros [? _]; done].
  - destruct (N.eqb_spec (get_bitwidth v) 1) as [Hw|Hw]; simpl.
    + done.
    + split; [discriminate | intros [_ ?]; done].
Qed.

(** X10. A boolean statement that the checker accepts has boolean
    operands of width 1: the three variables of a boolean binary operation,
    both sides of a boolean variable assignment, the left-hand side of a
    boolean constraint assignment, the condition of a boolean assume or
    assert, and the left-hand side and the two branches of a boolean
    select. *)
Lemma bool_statements_checked (s : statement) :
  type_checker_visit s = Ok () →
  match m_body s with
  | BoolBinOp lhs _ op1 op2 => is_bool_var lhs ∧ is_bool_var op1 ∧ is_bool_var op2
  | BoolAssignCst lhs _ => is_bool_var lhs
  | BoolAssignVar lhs rhs _ => is_bool_var lhs ∧ is_bool_var rhs
  | BoolAssume cond _ | BoolAssert cond => is_bool_var cond
  | BoolSelect lhs _ b1 b2 => is_bool_var lhs ∧ is_bool_var b1 ∧ is_bool_var b2
  | _ => True
  end.
Proof.
  unfold type_checker_visit. destruct (m_body s); try done.
  - intros ([] & ?%check_bool_Ok & _)%bind_Ok. done.
  - intros ([] & ?%check_bool_Ok & ?%check_bool_Ok)%bind_Ok. done.
  - intros ([] & ?%check_bool_Ok & ([] & ?%check_bool_Ok & ?%check_bool_Ok)%bind_Ok)%bind_Ok.
    done.
  - apply check_bool_Ok.
  - intros ([] & ?%check_bool_Ok & ([] & _ & ([] & ?%check_bool_Ok & ?%check_bool_Ok)%bind_Ok)%bind_Ok)%bind_Ok.
    done.
  - apply check_bool_Ok.
Qed.

(** The condition of a boolean select is never looked at: whatever it is,
    the select is accepted as soon as the other three operands are
    booleans. *)
Lemma bool_select_condition_unchecked (lhs cond b1 b2 : variable_t) :
  is_bool_var lhs → is_bool_var b1 → is_bool_var b2 →
  type_checker_visit (bool_select_stmt lhs cond b1 b2) = Ok ().
Proof.
  intros Hl H1 H2. unfold type_checker_visit. simpl.
  rewrite !(proj2 (check_bool_Ok lhs _) Hl). simpl.
  rewrite (proj2 (check_bool_Ok b1 _) H1). simpl.
  by apply check_bool_Ok.
Qed.

(** C8.  The type checker accepts the boolean select
    [b0 = ite (x, b1, b2)] whose condition [x] is a 32-bit integer: the
    check announced for the condition is made on the left-hand side, so the
    condition of a boolean select is not validated. *)
Theorem bool_select_int_condition_accepted :
  get_type Samples.x = INT_TYPE ∧ get_bitwidth Samples.x = 32%N ∧
  type_checker_visit
    (bool_select_stmt Samples.b0 Samples.x Samples.b1 Samples.b2) = Ok ().
Proof. repeat split. Qed.

(* --------------------------------------------------------------------- *)
(** ** The reversed view and the exit of the CFG                         *)
(* --------------------------------------------------------------------- *)

(** C5, as stated, fails: the CFG [Cfg_new "entry" NUM] has no exit and the
    reversed view over it is constructed without error. *)
Lemma cfg_rev_new_without_exit :
  has_exit (Cfg_new "entry" NUM) = false ∧
  ∃ r, cfg_rev_new (Cfg_new "entry" NUM) = Ok r.
Proof. split; [reflexivity | eexists; reflexivity]. Qed.

(** C5, amended.  The reversed view of any CFG is constructed without
    error.  It is the entry of the view that needs the exit: [entry ()] on
    the view returns the exit of the CFG when the CFG has one, and raises
    the fatal error otherwise; the exit of the view is the entry of the
    CFG. *)
Theorem cfg_rev_entry_needs_exit (c : Cfg) :
  ∃ r, cfg_rev_new c = Ok r ∧
       _cfg r = c ∧
       rev_entry r = (if has_exit c then Ok (m_exit c)
                      else CrabError "Entry not found!") ∧
       rev_exit r = m_entry c.
Proof.
  eexists. split; [reflexivity|]. split; [reflexivity|]. split; [|reflexivity].
  unfold rev_entry, cfg_exit. simpl. by destruct (has_exit c).
Qed.

(* --------------------------------------------------------------------- *)
(** ** Hash and equality                                                 *)
(* --------------------------------------------------------------------- *)

Section hashing.
Context `{BoostHash}.

Lemma counted_le (n : nat) : counted n ≤ n.
Proof.
  unfold counted.
  pose proof (N.Div0.mod_le (N.of_nat n) (2 ^ 32)). lia.
Qed.

Lemma counted_small (n : nat) : (N.of_nat n < 2 ^ 32)%N → counted n = n.
Proof. intros Hlt. unfold counted. rewrite N.mod_small by done. lia. Qed.

(** The counting loop over a vector combines the types of its first [k]
    elements and never leaves the vector. *)
Lemma hash_loop_take (vs : list variable_t) (k : nat) (res : N) :
  k ≤ length vs →
  foldM (λ res i,
           t ← match vs !! N.to_nat (N.of_nat i) with
                | Some v => Ok (get_type v)
                | None => CrabError
                    "Out-of-bound access to function output parameter"
                end;
           Ok (hash_combine res t)) (seq 0 k) res
  = Ok (fold_left hash_combine (take k (get_type <$> vs)) res).
Proof.
  induction k as [|k IH]; intros Hk; [done|].
  rewrite seq_S, foldM_app, IH by lia. simpl.
  rewrite Nat2N.id.
  destruct (lookup_lt_is_Some_2 vs k) as [v Hv]; [lia|].
  rewrite Hv. simpl.
  rewrite (take_S_r _ _ (get_type v)) by (by rewrite list_lookup_fmap, Hv).
  by rewrite fold_left_app.
Qed.

(** The hasher never raises, and computes the signature hash. *)
Lemma cfg_hasher_hash_signature (d : function_decl) :
  cfg_hasher_hash d = Ok (signature_hash d).
Proof.
  unfold cfg_hasher_hash, hash_loop, get_input_type, get_output_type,
    get_num_inputs, get_num_outputs, signature_hash, signature_hash_of.
  change (N.to_nat (N.of_nat (length (m_inputs d)) mod 2 ^ 32))
    with (counted (length (m_inputs d))).
  change (N.to_nat (N.of_nat (length (m_outputs d)) mod 2 ^ 32))
    with (counted (length (m_outputs d))).
  rewrite hash_loop_take by apply counted_le. simpl.
  rewrite hash_loop_take by apply counted_le.
  by rewrite !length_fmap.
Qed.

(** Below 2^32 parameters the counters see the whole vectors. *)
Lemma signature_hash_of_small (name : string) (ins outs : list variable_type) :
  (N.of_nat (length ins) < 2 ^ 32)%N → (N.of_nat (length outs) < 2 ^ 32)%N →
  signature_hash_of name ins outs
  = fold_left hash_combine outs
      (fold_left hash_combine ins (hash_value_string name)).
Proof.
  intros Hi Ho. unfold signature_hash_of.
  by rewrite !counted_small, !firstn_all by done.
Qed.

(** C9.  When both CFGs carry a function declaration, [operator==]
    returns the comparison of the two signature hashes, each being the
    hash of the function name combined with the ordered input types and
    then the ordered output types; it is true exactly when the hashes are
    equal, and nothing of the blocks enters the answer. *)
Theorem cfg_eq_compares_signature_hashes (a b : Cfg) (da db : function_decl) :
  m_func_decl a = Some da → m_func_decl b = Some db →
  cfg_eq a b = Ok (signature_hash da =? signature_hash db)%N ∧
  (cfg_eq a b = Ok true ↔ signature_hash da = signature_hash db).
Proof.
  intros Ha Hb.
  assert (cfg_eq a b = Ok (signature_hash da =? signature_hash db)%N) as Heq.
  { unfold cfg_eq, hash_value. rewrite Ha, Hb.
    by rewrite !cfg_hasher_hash_signature. }
  split; [done|]. rewrite Heq. split.
  - intros [= Ht]. by apply N.eqb_eq.
  - intros Hsame. f_equal. by apply N.eqb_eq.
Qed.

(** C10.  A CFG without function declaration cannot be hashed, and
    comparing it with any CFG, on either side of [operator==], raises the
    same fatal error instead of answering. *)
Theorem cfg_without_decl_not_comparable (c : Cfg) :
  m_func_decl c = None →
  hash_value c
    = CrabError "cannot hash a cfg because function declaration is missing" ∧
  ∀ other,
    cfg_eq c other
      = CrabError "cannot hash a cfg because function declaration is missing" ∧
    cfg_eq other c
      = CrabError "cannot hash a cfg because function declaration is missing".
Proof.
  intros Hnone.
  assert (hash_value c = CrabError
            "cannot hash a cfg because function declaration is missing")
    as Hc by (unfold hash_value; by rewrite Hnone).
  split; [done|]. intros other. unfold cfg_eq. rewrite Hc. split; [done|].
  unfold hash_value. destruct (m_func_decl other) as [d|]; [|done].
  by rewrite cfg_hasher_hash_signature.
Qed.

End hashing.

Lemma cfg_eq_compares_signature_hashes_witness :
  m_func_decl Samples.foo_cfg = Some Samples.foo_decl ∧
  m_func_decl Samples.foo_cfg' = Some Samples.foo_decl ∧
  m_blocks Samples.foo_cfg ≠ m_blocks Samples.foo_cfg' ∧
  cfg_eq Samples.foo_cfg Samples.foo_cfg' = Ok true.
Proof.
  split; [reflexivity|]. split; [reflexivity|]. split.
  - intros Heq.
    assert (m_blocks Samples.foo_cfg !! "exit"
            = m_blocks Samples.foo_cfg' !! "exit") as Hl by (by rewrite Heq).
    vm_compute in Hl. discriminate Hl.
  - apply (cfg_eq_compares_signature_hashes Samples.foo_cfg Samples.foo_cfg'
             Samples.foo_decl Samples.foo_decl); reflexivity.
Defined.

(** Signatures that differ in one output type are told apart by the
    concrete hash. *)
Example cfg_eq_different_signatures :
  cfg_eq Samples.foo_cfg Samples.bar_cfg = Ok false.
Proof. vm_compute. reflexivity. Qed.

Lemma cfg_without_decl_not_comparable_witness :
  m_func_decl Samples.one_block = None ∧
  cfg_eq Samples.one_block Samples.foo_cfg
    = CrabError "cannot hash a cfg because function declaration is missing" ∧
  cfg_eq Samples.foo_cfg Samples.one_block
    = CrabError "cannot hash a cfg because function declaration is missing".
Proof.
  split; [reflexivity|].
  apply (cfg_without_decl_not_comparable Samples.one_block); reflexivity.
Defined.

(* --------------------------------------------------------------------- *)
(** ** Adjacency symmetry                                                *)
(* --------------------------------------------------------------------- *)

Lemma adjacency_symmetric_lookup (g : gmap string basic_block) :
  adjacency_symmetric g ↔
  ∀ a b ba bb, g !! a = Some ba → g !! b = Some bb →
               (b ∈ m_next ba ↔ a ∈ m_prev bb).
Proof.
  unfold adjacency_symmetric. rewrite map_Forall_lookup.
  split.
  - intros Hs a b ba bb Ha Hb.
    specialize (Hs a ba Ha). rewrite map_Forall_lookup in Hs. by apply Hs.
  - intros Hs a ba Ha. rewrite map_Forall_lookup. intros b bb Hb. by apply Hs.
Qed.

Lemma elem_of_insert_adjacent (c : list string) (e x : string) :
  x ∈ insert_adjacent c e ↔ x ∈ c ∨ x = e.
Proof.
  unfold insert_adjacent. case_bool_decide as He.
  - split; [by left | intros [?| ->]; done].
  - rewrite elem_of_app, list_elem_of_singleton. done.
Qed.

Lemma elem_of_remove_adjacent (c : list string) (e x : string) :
  x ∈ remove_adjacent c e ↔ x ∈ c ∧ x ≠ e.
Proof.
  unfold remove_adjacent. case_bool_decide as He.
  - rewrite list_elem_of_filter. tauto.
  - split; [|by intros [? _]]. intros Hx. split; [done|]. by intros ->.
Qed.

Lemma rewire_lookup fn fp (a b k : string) (g : gmap string basic_block) :
  alter (set_prev fp) b (alter (set_next fn) a g) !! k
  = rewire fn fp a b k <$> g !! k.
Proof.
  unfold rewire. rewrite !lookup_alter.
  destruct (decide (b = k)) as [->|Hb], (decide (a = k)) as [->|Ha];
    try rewrite decide_True by done; try rewrite decide_False by done;
    destruct (g !! k); simpl; try done.
  all: rewrite ?lookup_alter, ?decide_True, ?decide_False by done; try done.
Qed.

Lemma rewire_id fn fp a b k bk : m_bb_id (rewire fn fp a b k bk) = m_bb_id bk.
Proof. unfold rewire. by repeat case_decide. Qed.
Lemma rewire_next fn fp a b k bk :
  m_next (rewire fn fp a b k bk) = if decide (a = k) then fn (m_next bk) else m_next bk.
Proof. unfold rewire. by repeat case_decide. Qed.
Lemma rewire_prev fn fp a b k bk :
  m_prev (rewire fn fp a b k bk) = if decide (b = k) then fp (m_prev bk) else m_prev bk.
Proof. unfold rewire. by repeat case_decide. Qed.

Lemma get_node_Ok k g bb : get_node k g = Ok bb ↔ g !! k = Some bb.
Proof. unfold get_node. destruct (g !! k); split; congruence. Qed.

Lemma add_edge_Ok a b g g' :
  add_edge a b g = Ok g' ↔
  ∃ this other, g !! a = Some this ∧ g !! b = Some other ∧
    g' = alter (set_prev (λ c, insert_adjacent c (m_bb_id this))) b
           (alter (set_next (λ c, insert_adjacent c (m_bb_id other))) a g).
Proof.
  unfold add_edge. rewrite bind_Ok. setoid_rewrite bind_Ok.
  setoid_rewrite get_node_Ok. split.
  - intros (this & Ha & other & Hb & [= <-]). eauto.
  - intros (this & other & Ha & Hb & ->). eauto.
Qed.

Lemma remove_edge_Ok a b g g' :
  remove_edge a b g = Ok g' ↔
  ∃ this other, g !! a = Some this ∧ g !! b = Some other ∧
    g' = alter (set_prev (λ c, remove_adjacent c (m_bb_id this))) b
           (alter (set_next (λ c, remove_adjacent c (m_bb_id other))) a g).
Proof.
  unfold remove_edge. rewrite bind_Ok. setoid_rewrite bind_Ok.
  setoid_rewrite get_node_Ok. split.
  - intros (this & Ha & other & Hb & [= <-]). eauto.
  - intros (this & other & Ha & Hb & ->). eauto.
Qed.

Lemma add_edge_preserves a b g g' :
  labels_ok g → adjacency_symmetric g → add_edge a b g = Ok g' →
  labels_ok g' ∧ adjacency_symmetric g'.
Proof.
  intros Hl Hs (this & other & Ha & Hb & ->)%add_edge_Ok.
  rewrite (Hl a this Ha), (Hl b other Hb).
  split.
  - intros k bk. rewrite rewire_lookup, fmap_Some.
    intros (bk0 & Hk & ->). rewrite rewire_id. by apply Hl.
  - apply adjacency_symmetric_lookup. intros c d bc bd.
    rewrite !rewire_lookup, !fmap_Some.
    intros (bc0 & Hc & ->) (bd0 & Hd & ->).
    rewrite rewire_next, rewire_prev.
    pose proof (proj1 (adjacency_symmetric_lookup g) Hs c d bc0 bd0 Hc Hd) as Hcd.
    repeat case_decide; subst; rewrite ?elem_of_insert_adjacent;
      intuition congruence.
Qed.

Lemma remove_edge_preserves a b g g' :
  labels_ok g → adjacency_symmetric g → remove_edge a b g = Ok g' →
  labels_ok g' ∧ adjacency_symmetric g'.
Proof.
  intros Hl Hs (this & other & Ha & Hb & ->)%remove_edge_Ok.
  rewrite (Hl a this Ha), (Hl b other Hb).
  split.
  - intros k bk. rewrite rewire_lookup, fmap_Some.
    intros (bk0 & Hk & ->). rewrite rewire_id. by apply Hl.
  - apply adjacency_symmetric_lookup. intros c d bc bd.
    rewrite !rewire_lookup, !fmap_Some.
    intros (bc0 & Hc & ->) (bd0 & Hd & ->).
    rewrite rewire_next, rewire_prev.
    pose proof (proj1 (adjacency_symmetric_lookup g) Hs c d bc0 bd0 Hc Hd) as Hcd.
    repeat case_decide; subst; rewrite ?elem_of_remove_adjacent;
      intuition congruence.
Qed.

Lemma delete_preserves k g :
  labels_ok g → adjacency_symmetric g →
  labels_ok (delete k g) ∧ adjacency_symmetric (delete k g).
Proof.
  intros Hl Hs. split.
  - intros l bl [_ Hl']%lookup_delete_Some. by apply Hl.
  - apply adjacency_symmetric_lookup.
    intros c d bc bd [_ Hc]%lookup_delete_Some [_ Hd]%lookup_delete_Some.
    by apply (proj1 (adjacency_symmetric_lookup g) Hs).
Qed.

Lemma cfg_remove_preserves bb_id g g' :
  labels_ok g → adjacency_symmetric g → cfg_remove bb_id g = Ok g' →
  labels_ok g' ∧ adjacency_symmetric g'.
Proof.
  intros Hl Hs. unfold cfg_remove.
  intros (bb & _ & (dead & _ & (g1 & Hfold & [= <-])%bind_Ok)%bind_Ok)%bind_Ok.
  assert (labels_ok g1 ∧ adjacency_symmetric g1) as [Hl1 Hs1].
  { eapply (foldM_invariant (λ g, labels_ok g ∧ adjacency_symmetric g));
      [|exact (conj Hl Hs)|exact Hfold].
    intros g2 e g3 _ [Hl2 Hs2] He. by eapply remove_edge_preserves. }
  by apply delete_preserves.
Qed.

Lemma adjacency_closed_lookup (g : gmap string basic_block) :
  adjacency_closed g ↔
  ∀ k bk x, g !! k = Some bk → x ∈ m_next bk ∨ x ∈ m_prev bk → is_Some (g !! x).
Proof.
  unfold adjacency_closed. rewrite map_Forall_lookup.
  setoid_rewrite Forall_forall. split.
  - intros Hc k bk x Hk Hx. destruct (Hc k bk Hk) as [Hn Hp].
    destruct Hx; eauto.
  - intros Hc k bk Hk. split; intros x Hx; eapply Hc; eauto.
Qed.

Lemma labels_ok_rewire fn fp a b (g : gmap string basic_block) :
  labels_ok g → labels_ok (alter (set_prev fp) b (alter (set_next fn) a g)).
Proof.
  intros Hl k bk. rewrite rewire_lookup, fmap_Some.
  intros (bk0 & Hk & ->). rewrite rewire_id. by apply Hl.
Qed.

Lemma is_Some_rewire fn fp a b k (g : gmap string basic_block) :
  is_Some (alter (set_prev fp) b (alter (set_next fn) a g) !! k) ↔ is_Some (g !! k).
Proof. by rewrite rewire_lookup, fmap_is_Some. Qed.

(** A loop whose body succeeds on every element, keeping an invariant,
    succeeds. *)
Lemma foldM_succeeds {A B} (P : B → Prop) (f : B → A → result B)
    (l : list A) (acc : B) :
  (∀ b a, a ∈ l → P b → ∃ b', f b a = Ok b' ∧ P b') →
  P acc → ∃ acc', foldM f l acc = Ok acc' ∧ P acc'.
Proof.
  revert acc. induction l as [|a l IH]; intros acc Hstep Hacc; simpl.
  - by exists acc.
  - destruct (Hstep acc a) as (b' & -> & Hb'); [by left|done|]. simpl.
    apply IH; [|done]. intros b0 a0 Hin. apply Hstep. by right.
Qed.

(** The two collecting loops of [Cfg::remove]. *)
Lemma collect_loop_Ok (g : gmap string basic_block) (bb_id : string)
    (mk : string → string * string) (l : list string)
    (dead0 dead : list (string * string)) :
  foldM (λ dead id,
           if bool_decide (bb_id ≠ id)
           then _ ← get_node id g; Ok (dead ++ [mk id])
           else Ok dead) l dead0 = Ok dead →
  dead = dead0 ++ (mk <$> filter (λ id, bb_id ≠ id) l).
Proof.
  revert dead0. induction l as [|id l IH]; intros dead0; simpl.
  - intros [= <-]. by rewrite app_nil_r.
  - intros (d1 & Hd1 & Hrest)%bind_Ok. apply IH in Hrest as ->.
    rewrite filter_cons. case_bool_decide as Hne.
    + apply bind_Ok in Hd1 as (? & _ & [= <-]).
      case_decide; [|done]. by rewrite fmap_cons, <- app_assoc.
    + injection Hd1 as <-. by case_decide.
Qed.

Lemma collect_loop_succeeds (g : gmap string basic_block) (bb_id : string)
    (mk : string → string * string) (l : list string)
    (dead0 : list (string * string)) :
  Forall (λ id, is_Some (g !! id)) l →
  ∃ dead, foldM (λ dead id,
                   if bool_decide (bb_id ≠ id)
                   then _ ← get_node id g; Ok (dead ++ [mk id])
                   else Ok dead) l dead0 = Ok dead.
Proof.
  intros Hall.
  destruct (foldM_succeeds (λ _, True)
              (λ dead id,
                 if bool_decide (bb_id ≠ id)
                 then _ ← get_node id g; Ok (dead ++ [mk id])
                 else Ok dead) l dead0) as (dead & Hd & _); [|done|by eauto].
  intros d id Hin _. rewrite Forall_forall in Hall.
  destruct (Hall id Hin) as [bk Hbk].
  case_bool_decide; [|by eauto].
  unfold get_node. rewrite Hbk. simpl. by eauto.
Qed.

Lemma dead_edges_Ok bb_id bb g dead :
  dead_edges bb_id bb g = Ok dead →
  dead = ((λ id, (id, bb_id)) <$> filter (λ id, bb_id ≠ id) (m_prev bb))
         ++ ((λ id, (bb_id, id)) <$> filter (λ id, bb_id ≠ id) (m_next bb)).
Proof.
  unfold dead_edges. intros (d1 & H1 & H2)%bind_Ok.
  apply collect_loop_Ok in H1 as ->. by apply collect_loop_Ok in H2 as ->.
Qed.

Lemma elem_of_dead_edges bb_id bb g dead a b :
  dead_edges bb_id bb g = Ok dead →
  (a, b) ∈ dead ↔
  (b = bb_id ∧ a ∈ m_prev bb ∧ a ≠ bb_id) ∨
  (a = bb_id ∧ b ∈ m_next bb ∧ b ≠ bb_id).
Proof.
  intros ->%dead_edges_Ok.
  rewrite elem_of_app, !list_elem_of_fmap.
  setoid_rewrite list_elem_of_filter. split.
  - intros [(id & [= -> ->] & Hne & Hin)|(id & [= -> ->] & Hne & Hin)]; eauto.
  - intros [(-> & Hin & Hne)|(-> & Hin & Hne)]; [left|right]; eauto.
Qed.

(** What cutting a list of edges does to the blocks. *)
Lemma remove_edges_lookup (L : list (string * string))
    (g g1 : gmap string basic_block) :
  labels_ok g →
  foldM (λ g p, remove_edge p.1 p.2 g) L g = Ok g1 →
  labels_ok g1 ∧
  (∀ k, is_Some (g1 !! k) ↔ is_Some (g !! k)) ∧
  ∀ k bk bk1, g !! k = Some bk → g1 !! k = Some bk1 →
    m_stmts bk1 = m_stmts bk ∧
    (∀ x, x ∈ m_next bk1 ↔ x ∈ m_next bk ∧ (k, x) ∉ L) ∧
    (∀ x, x ∈ m_prev bk1 ↔ x ∈ m_prev bk ∧ (x, k) ∉ L).
Proof.
  revert g. induction L as [|[a b] L IH]; intros g Hl; simpl.
  - intros [= <-]. split; [done|]. split; [done|].
    intros k bk bk1 Hk Hk1. rewrite Hk in Hk1. injection Hk1 as <-.
    split; [done|]. split; intros x; rewrite elem_of_nil; tauto.
  - intros (g2 & Hg2 & Hrest)%bind_Ok.
    apply remove_edge_Ok in Hg2 as (this & other & Ha & Hb & ->).
    rewrite (Hl a this Ha), (Hl b other Hb) in Hrest.
    apply IH in Hrest as (Hl1 & Hdom & Hrel); [|by apply labels_ok_rewire].
    split; [done|]. split.
    { intros k. by rewrite Hdom, is_Some_rewire. }
    intros k bk bk1 Hk Hk1.
    specialize (Hrel k (rewire (λ c, remove_adjacent c b)
                          (λ c, remove_adjacent c a) a b k bk) bk1).
    rewrite rewire_lookup, Hk in Hrel. specialize (Hrel eq_refl Hk1).
    destruct Hrel as (Hst & Hn & Hp).
    rewrite rewire_next in Hn. rewrite rewire_prev in Hp.
    split; [|split].
    + rewrite Hst. unfold rewire. by repeat case_decide.
    + intros x. rewrite Hn, not_elem_of_cons. clear Hn Hp.
      destruct (decide (a = k)) as [<-|Hak].
      * cbv beta. rewrite elem_of_remove_adjacent. split.
        -- intros [[Hx Hxb] HL]. split; [done|]. split; [|done].
           intros [= ->]. done.
        -- intros (Hx & Hne & HL). split; [|done]. split; [done|].
           intros ->. done.
      * split.
        -- intros [Hx HL]. split; [done|]. split; [|done].
           intros [= -> ->]. done.
        -- intros (Hx & _ & HL). done.
    + intros x. rewrite Hp, not_elem_of_cons. clear Hn Hp.
      destruct (decide (b = k)) as [<-|Hbk].
      * cbv beta. rewrite elem_of_remove_adjacent. split.
        -- intros [[Hx Hxa] HL]. split; [done|]. split; [|done].
           intros [= ->]. done.
        -- intros (Hx & Hne & HL). split; [|done]. split; [done|].
           intros ->. done.
      * split.
        -- intros [Hx HL]. split; [done|]. split; [|done].
           intros [= -> ->]. done.
        -- intros (Hx & _ & HL). done.
Qed.

Lemma cfg_remove_Ok bb_id (g g' : gmap string basic_block) :
  cfg_remove bb_id g = Ok g' →
  ∃ bb dead g1,
    g !! bb_id = Some bb ∧ dead_edges bb_id bb g = Ok dead ∧
    foldM (λ g p, remove_edge p.1 p.2 g) dead g = Ok g1 ∧
    g' = delete bb_id g1.
Proof.
  unfold cfg_remove.
  intros (bb & Hbb & (dead & Hdead & (g1 & Hg1 & [= <-])%bind_Ok)%bind_Ok)%bind_Ok.
  apply get_node_Ok in Hbb. by exists bb, dead, g1.
Qed.

(** Removal detaches the block: afterwards no block of the map names the
    removed label among its successors or predecessors. *)
Lemma cfg_remove_detaches bb_id (g g' : gmap string basic_block) :
  labels_ok g → adjacency_symmetric g → cfg_remove bb_id g = Ok g' →
  g' !! bb_id = None ∧
  ∀ k bk, g' !! k = Some bk → (bb_id ∉ m_next bk) ∧ (bb_id ∉ m_prev bk).
Proof.
  intros Hl Hs (bb & dead & g1 & Hbb & Hdead & Hg1 & ->)%cfg_remove_Ok.
  split; [apply lookup_delete_eq|].
  intros k bk1 [Hne Hk1]%lookup_delete_Some.
  destruct (remove_edges_lookup dead g g1 Hl Hg1) as (_ & Hdom & Hrel).
  destruct (proj1 (Hdom k)) as [bk Hk]; [by eauto|].
  destruct (Hrel k bk bk1 Hk Hk1) as (_ & Hn & Hp).
  pose proof (proj1 (adjacency_symmetric_lookup g) Hs) as Hsym.
  split.
  - rewrite Hn. intros [Hin Hnot]. apply Hnot.
    apply (elem_of_dead_edges bb_id bb g dead k bb_id Hdead). left.
    split; [done|]. split; [|done]. by apply (Hsym k bb_id bk bb).
  - rewrite Hp. intros [Hin Hnot]. apply Hnot.
    apply (elem_of_dead_edges bb_id bb g dead bb_id k Hdead). right.
    split; [done|]. split; [|done]. by apply (Hsym bb_id k bb bk).
Qed.

(** X19. [Cfg::remove] leaves every other block in place with its
    statements; its adjacency vectors gain nothing, and lose nothing but
    the removed label. *)
Lemma cfg_remove_others bb_id (g g' : gmap string basic_block) k bk :
  labels_ok g → cfg_remove bb_id g = Ok g' → k ≠ bb_id → g !! k = Some bk →
  ∃ bk', g' !! k = Some bk' ∧ m_stmts bk' = m_stmts bk ∧
    (∀ x, x ∈ m_next bk' → x ∈ m_next bk) ∧
    (∀ x, x ∈ m_prev bk' → x ∈ m_prev bk) ∧
    (∀ x, x ≠ bb_id → x ∈ m_next bk → x ∈ m_next bk') ∧
    (∀ x, x ≠ bb_id → x ∈ m_prev bk → x ∈ m_prev bk').
Proof.
  intros Hl (bb & dead & g1 & Hbb & Hdead & Hg1 & ->)%cfg_remove_Ok Hne Hk.
  destruct (remove_edges_lookup dead g g1 Hl Hg1) as (_ & Hdom & Hrel).
  destruct (proj2 (Hdom k)) as [bk1 Hk1]; [by eauto|].
  destruct (Hrel k bk bk1 Hk Hk1) as (Hst & Hn & Hp).
  exists bk1. split; [by rewrite lookup_delete_ne|]. split; [done|].
  split; [|split; [|split]].
  - intros x. rewrite Hn. tauto.
  - intros x. rewrite Hp. tauto.
  - intros x Hx Hin. rewrite Hn. split; [done|].
    rewrite (elem_of_dead_edges bb_id bb g dead k x Hdead).
    intros [(? & _)|(? & _)]; done.
  - intros x Hx Hin. rewrite Hp. split; [done|].
    rewrite (elem_of_dead_edges bb_id bb g dead x k Hdead).
    intros [(? & _)|(? & _)]; done.
Qed.

Lemma cfg_remove_closed bb_id (g g' : gmap string basic_block) :
  labels_ok g → adjacency_symmetric g → adjacency_closed g →
  cfg_remove bb_id g = Ok g' → adjacency_closed g'.
Proof.
  intros Hl Hs Hc Hrem.
  destruct (cfg_remove_detaches bb_id g g' Hl Hs Hrem) as [_ Hdet].
  destruct (cfg_remove_Ok _ _ _ Hrem) as (bb & dead & g1 & Hbb & Hdead & Hg1 & ->).
  destruct (remove_edges_lookup dead g g1 Hl Hg1) as (_ & Hdom & Hrel).
  apply adjacency_closed_lookup. intros k bk1 x Hk1' Hx.
  destruct (Hdet k bk1 Hk1') as [Hdn Hdp].
  apply lookup_delete_Some in Hk1' as [Hne Hk1].
  destruct (proj1 (Hdom k)) as [bk Hk]; [by eauto|].
  destruct (Hrel k bk bk1 Hk Hk1) as (_ & Hn & Hp).
  assert (x ≠ bb_id) as Hxne by (intros ->; destruct Hx; done).
  rewrite lookup_delete_ne by done. apply Hdom.
  apply (proj1 (adjacency_closed_lookup g) Hc k bk x Hk).
  rewrite Hn, Hp in Hx. tauto.
Qed.

(** On a closed map, removing a block that is there succeeds. *)
Lemma cfg_remove_succeeds bb_id (g : gmap string basic_block) :
  labels_ok g → adjacency_closed g → is_Some (g !! bb_id) →
  ∃ g', cfg_remove bb_id g = Ok g'.
Proof.
  intros Hl Hc [bb Hbb].
  pose proof (proj1 (adjacency_closed_lookup g) Hc) as Hcl.
  assert (∃ dead, dead_edges bb_id bb g = Ok dead) as [dead Hdead].
  { unfold dead_edges.
    destruct (collect_loop_succeeds g bb_id (λ id, (id, bb_id)) (m_prev bb) [])
      as [d1 Hd1].
    { apply Forall_forall. intros x Hx. apply (Hcl bb_id bb x Hbb). by right. }
    rewrite Hd1. simpl.
    apply collect_loop_succeeds.
    apply Forall_forall. intros x Hx. apply (Hcl bb_id bb x Hbb). by left. }
  destruct (foldM_succeeds
              (λ g1 : gmap string basic_block,
                 labels_ok g1 ∧ ∀ k, is_Some (g !! k) → is_Some (g1 !! k))
              (λ g p, remove_edge p.1 p.2 g) dead g) as (g1 & Hg1 & _).
  - intros g1 [a b] Hin [Hl1 Hdom]. simpl.
    apply (elem_of_dead_edges bb_id bb g dead a b Hdead) in Hin.
    assert (is_Some (g !! a) ∧ is_Some (g !! b)) as [[this Ha]%Hdom [other Hb]%Hdom].
    { destruct Hin as [(-> & Hin & _)|(-> & Hin & _)]; split; eauto. }
    eexists. split.
    + apply remove_edge_Ok. by exists this, other.
    + split; [by apply labels_ok_rewire|].
      intros k Hk. apply is_Some_rewire. by apply Hdom.
  - done.
  - exists (delete bb_id g1). unfold cfg_remove, get_node.
    rewrite Hbb. simpl. rewrite Hdead. simpl. by rewrite Hg1.
Qed.








(** C3.  In a map whose blocks are stored under their labels and whose
    adjacency is symmetric, adding an edge ([>>]), removing an edge ([-=])
    and removing a block ([Cfg::remove]) each lead to a map that again
    stores blocks under their labels and has symmetric adjacency: for all
    blocks A and B, B is a successor of A exactly when A is a predecessor of
    B. *)
Theorem adjacency_symmetry_preserved (g : gmap string basic_block) :
  labels_ok g → adjacency_symmetric g →
  (∀ a b g', add_edge a b g = Ok g' → labels_ok g' ∧ adjacency_symmetric g') ∧
  (∀ a b g', remove_edge a b g = Ok g' → labels_ok g' ∧ adjacency_symmetric g') ∧
  (∀ bb_id g', cfg_remove bb_id g = Ok g' → labels_ok g' ∧ adjacency_symmetric g').
Proof.
  intros Hl Hs. repeat split.
  all: first [ by eapply add_edge_preserves
             | by eapply remove_edge_preserves
             | by eapply cfg_remove_preserves ].
Qed.

(** Decide a closed instance of a decidable property by evaluation. *)
Ltac by_evaluation :=
  match goal with
  | |- ?P => apply (bool_decide_unpack P); vm_compute; exact I
  end.

Lemma adjacency_symmetry_preserved_witness :
  is_ok Samples.branch = true ∧
  labels_ok Samples.branch_blocks ∧
  adjacency_symmetric Samples.branch_blocks ∧
  (∃ g', add_edge "D" "P" Samples.branch_blocks = Ok g' ∧
         adjacency_symmetric g') ∧
  (∃ g', remove_edge "P" "C" Samples.branch_blocks = Ok g' ∧
         adjacency_symmetric g') ∧
  (∃ g', cfg_remove "B" Samples.branch_blocks = Ok g' ∧
         adjacency_symmetric g').
Proof.
  assert (labels_ok Samples.branch_blocks) as Hl by by_evaluation.
  assert (adjacency_symmetric Samples.branch_blocks) as Hs by by_evaluation.
  destruct (adjacency_symmetry_preserved Samples.branch_blocks Hl Hs)
    as (Hadd & Hrem & Hdel).
  split; [reflexivity|]. split; [exact Hl|]. split; [exact Hs|].
  split; [|split].
  - destruct (add_edge "D" "P" Samples.branch_blocks) as [g'|msg] eqn:Hop;
      [|vm_compute in Hop; discriminate Hop].
    exists g'. split; [reflexivity | exact (proj2 (Hadd "D" "P" g' Hop))].
  - destruct (remove_edge "P" "C" Samples.branch_blocks) as [g'|msg] eqn:Hop;
      [|vm_compute in Hop; discriminate Hop].
    exists g'. split; [reflexivity | exact (proj2 (Hrem "P" "C" g' Hop))].
  - destruct (cfg_remove "B" Samples.branch_blocks) as [g'|msg] eqn:Hop;
      [|vm_compute in Hop; discriminate Hop].
    exists g'. split; [reflexivity | exact (proj2 (Hdel "B" g' Hop))].
Defined.

(* --------------------------------------------------------------------- *)
(** ** Clone                                                             *)
(* --------------------------------------------------------------------- *)

Lemma unordered_insert_keeps (k l : string) (v bb : basic_block)
    (m : gmap string basic_block) :
  m !! l = Some bb → unordered_insert k v m !! l = Some bb.
Proof.
  intros Hl. unfold unordered_insert.
  destruct (m !! k) eqn:Hk; [done|].
  rewrite lookup_insert_ne; [done|]. intros ->. congruence.
Qed.

(** A clone is a statement of the same class with the same operands. *)
Lemma stmt_clone_body (s s' : statement) :
  stmt_clone s = Ok s' → m_body s' = m_body s.
Proof.
  unfold stmt_clone, array_assume_stmt, array_store_stmt, array_load_stmt,
    array_assign_stmt.
  destruct (m_body s); repeat case_match; intros [= <-]; reflexivity.
Qed.

Lemma clone_loop_Ok {A B} (f : A → result B) (l : list A) (acc0 acc : list B) :
  foldM (λ acc s, s' ← f s; Ok (acc ++ [s'])) l acc0 = Ok acc →
  ∃ l', acc = acc0 ++ l' ∧ Forall2 (λ s s', f s = Ok s') l l'.
Proof.
  revert acc0. induction l as [|a l IH]; intros acc0; simpl.
  - intros [= <-]. exists []. by rewrite app_nil_r.
  - intros (acc1 & (b & Hb & [= <-])%bind_Ok & Hrest)%bind_Ok.
    apply IH in Hrest as (l' & -> & Hall).
    exists (b :: l'). split; [by rewrite <- app_assoc|]. by constructor.
Qed.

Lemma bb_clone_Ok (bb bb' : basic_block) :
  bb_clone bb = Ok bb' →
  m_bb_id bb' = m_bb_id bb ∧ m_prev bb' = m_prev bb ∧ m_next bb' = m_next bb ∧
  m_track_prec bb' = m_track_prec bb ∧ m_bb_live bb' = m_bb_live bb ∧
  Forall2 (λ s s', stmt_clone s = Ok s') (m_stmts bb) (m_stmts bb').
Proof.
  unfold bb_clone. intros (stmts & Hst & [= <-])%bind_Ok. simpl.
  apply clone_loop_Ok in Hst as (l' & -> & Hall). done.
Qed.

(** The clone of a block holds as many statements, of the same classes
    and operands, in the same order. *)
Lemma bb_clone_stmts (bb bb' : basic_block) :
  bb_clone bb = Ok bb' →
  length (m_stmts bb') = length (m_stmts bb) ∧
  m_body <$> m_stmts bb' = m_body <$> m_stmts bb.
Proof.
  intros (_ & _ & _ & _ & _ & Hall)%bb_clone_Ok. split.
  - symmetry. by eapply Forall2_length.
  - induction Hall as [|s s' l l' Hs _ IH]; [done|].
    rewrite !fmap_cons, IH. f_equal. by apply stmt_clone_body.
Qed.

(** The loop of [clone] over a list of bindings without repeated key. *)
Lemma clone_blocks_fold (L : list (string * basic_block))
    (acc0 acc : gmap string basic_block) :
  NoDup L.*1 → (∀ k bb, (k, bb) ∈ L → m_bb_id bb = k) →
  foldM (λ acc (p : string * basic_block),
           copyBB ← bb_clone p.2;
           Ok (unordered_insert (m_bb_id copyBB) copyBB acc)) L acc0 = Ok acc →
  (∀ k bb, (k, bb) ∈ L → ∃ cb, bb_clone bb = Ok cb) ∧
  ∀ l b, acc !! l = Some b ↔
         acc0 !! l = Some b ∨
         (acc0 !! l = None ∧ ∃ bb, (l, bb) ∈ L ∧ bb_clone bb = Ok b).
Proof.
  revert acc0. induction L as [|[k bb] L IH]; intros acc0 Hnd Hlab; simpl.
  - intros [= <-]. split; [by intros k bb ?%elem_of_nil|].
    intros l b. split; [by left|]. intros [?|(_ & bb & ?%elem_of_nil & _)]; done.
  - intros (acc1 & (cb & Hcb & [= <-])%bind_Ok & Hrest)%bind_Ok.
    apply NoDup_cons in Hnd as [Hk Hnd]. simpl in Hcb.
    assert (m_bb_id cb = k) as Hid.
    { destruct (bb_clone_Ok _ _ Hcb) as (-> & _). apply Hlab. by left. }
    rewrite Hid in Hrest.
    apply IH in Hrest as [Hall Hrest]; [|done|by intros; apply Hlab; right].
    split.
    { intros k' bb' [[= -> ->]|Hin]%elem_of_cons; eauto. }
    intros l b. rewrite Hrest. unfold unordered_insert.
    assert (∀ bb', (k, bb') ∈ L → False) as HkL.
    { intros bb' Hin. apply Hk. apply list_elem_of_fmap. by exists (k, bb'). }
    destruct (acc0 !! k) as [b0|] eqn:Hk0.
    + split.
      * intros [?|(Hnone & bb' & Hin & Hc)]; [by left|right].
        split; [done|]. exists bb'. split; [by right|done].
      * intros [?|(Hnone & bb' & [[= -> ->]|Hin]%elem_of_cons & Hc)];
          [by left|congruence|right; eauto].
    + destruct (decide (l = k)) as [->|Hne].
      * rewrite lookup_insert_eq, Hk0. split.
        -- intros [[= <-]|[[=] _]]. right. split; [done|].
           exists bb. split; [by left|done].
        -- intros [[=]|(_ & bb' & [[= ->]|Hin]%elem_of_cons & Hc)].
           ++ left. congruence.
           ++ by destruct (HkL bb').
      * rewrite lookup_insert_ne by done. split.
        -- intros [?|(Hnone & bb' & Hin & Hc)]; [by left|right].
           split; [done|]. exists bb'. split; [by right|done].
        -- intros [?|(Hnone & bb' & [[= -> ->]|Hin]%elem_of_cons & Hc)];
             [by left|done|right; eauto].
Qed.

(** The blocks of a clone: the fresh entry block, and the clone of every
    other block of the original. *)
Lemma clone_blocks_lookup (c c' : Cfg) :
  labels_ok (m_blocks c) → cfg_clone c = Ok c' →
  ∀ l b, m_blocks c' !! l = Some b ↔
    (l = m_entry c ∧ b = bb_create (m_entry c) (m_cfg_track_prec c)) ∨
    (l ≠ m_entry c ∧ ∃ bb, m_blocks c !! l = Some bb ∧ bb_clone bb = Ok b).
Proof.
  intros Hl. unfold cfg_clone. intros (blocks & Hfold & [= <-])%bind_Ok. simpl.
  apply clone_blocks_fold in Hfold as [_ Hfold].
  - intros l b. rewrite Hfold. simpl. unfold unordered_insert.
    rewrite lookup_empty, lookup_insert_Some, lookup_insert_None, lookup_empty.
    setoid_rewrite elem_of_map_to_list. split.
    + intros [[[<- <-]|[_ [=]]]|([_ ?] & ?)]; [by left|by right].
    + intros [[-> ->]|[? ?]]; [left; by left|right; by split].
  - apply NoDup_fst_map_to_list.
  - intros k bb ?%elem_of_map_to_list. by apply Hl.
Qed.

(** Entry, exit, signature and precision are those of the original. *)
Lemma clone_metadata (c c' : Cfg) :
  cfg_clone c = Ok c' →
  m_entry c' = m_entry c ∧ m_has_exit c' = m_has_exit c ∧
  (m_has_exit c = true → m_exit c' = m_exit c) ∧
  m_func_decl c' = m_func_decl c ∧ m_cfg_track_prec c' = m_cfg_track_prec c.
Proof.
  unfold cfg_clone. intros (blocks & _ & [= <-])%bind_Ok. simpl.
  repeat split. by intros ->.
Qed.

(** A block other than the entry has its clone in the clone. *)
Lemma clone_other_block (c c' : Cfg) (l : string) (bb : basic_block) :
  labels_ok (m_blocks c) → cfg_clone c = Ok c' →
  l ≠ m_entry c → m_blocks c !! l = Some bb →
  ∃ b, m_blocks c' !! l = Some b ∧ bb_clone bb = Ok b.
Proof.
  intros Hl Hc Hne Hbb.
  assert (∃ cb, bb_clone bb = Ok cb) as [cb Hcb].
  { revert Hc. unfold cfg_clone. intros (blocks & Hfold & _)%bind_Ok.
    apply clone_blocks_fold in Hfold as [Hall _].
    - apply (Hall l bb). by apply elem_of_map_to_list.
    - apply NoDup_fst_map_to_list.
    - intros k b ?%elem_of_map_to_list. by apply Hl. }
  exists cb. split; [|done].
  apply (clone_blocks_lookup c c' Hl Hc). right. eauto.
Qed.

(** C1.  In the CFG returned by [clone], the block stored under the entry
    label is the empty block made by the constructor of the new CFG: the
    clone of the original entry block is offered to a map that already binds
    the entry label and is dropped.  The statements and the edges of the
    original entry block are therefore missing from the clone. *)
Theorem clone_entry_block_is_fresh (c c' : Cfg) :
  cfg_clone c = Ok c' →
  m_blocks c' !! m_entry c = Some (bb_create (m_entry c) (m_cfg_track_prec c)).
Proof.
  unfold cfg_clone. intros (blocks & Hfold & [= <-])%bind_Ok. simpl.
  eapply (foldM_invariant
            (λ acc, acc !! m_entry c
                    = Some (bb_create (m_entry c) (m_cfg_track_prec c))));
    [| |exact Hfold].
  - intros acc e acc' _ Hacc (copyBB & _ & [= <-])%bind_Ok.
    by apply unordered_insert_keeps.
  - simpl. unfold unordered_insert. rewrite lookup_empty.
    apply lookup_insert_eq.
Qed.

Lemma clone_entry_block_is_fresh_witness :
  ∃ c',
    cfg_clone Samples.one_block = Ok c' ∧
    m_stmts <$> m_blocks Samples.one_block !! "entry"
      = Some [havoc_stmt Samples.x] ∧
    m_stmts <$> m_blocks c' !! "entry" = Some [].
Proof.
  destruct (cfg_clone Samples.one_block) as [c'|msg] eqn:Hc;
    [|vm_compute in Hc; discriminate Hc].
  exists c'. split; [reflexivity|]. split; [reflexivity|].
  change "entry" with (m_entry Samples.one_block).
  by rewrite (clone_entry_block_is_fresh Samples.one_block c' Hc).
Defined.

(** On the two-block CFG [entry -> exit] the clone keeps [exit] with its
    predecessor [entry], while its [entry] has neither statement nor
    successor: the adjacency of the clone is not even symmetric. *)
Example clone_two_blocks :
  (c ← Samples.two_blocks; Ok (Samples.shape c))
    = Ok [("entry", 1, [], ["exit"]); ("exit", 2, ["entry"], [])] ∧
  (c ← Samples.two_blocks; c' ← cfg_clone c;
   Ok (Samples.shape c', bool_decide (adjacency_symmetric (m_blocks c'))))
    = Ok ([("entry", 0, [], []); ("exit", 2, ["entry"], [])], false).
Proof. split; vm_compute; reflexivity. Qed.

(* --------------------------------------------------------------------- *)
(** ** Block fusion                                                      *)
(* --------------------------------------------------------------------- *)





Lemma fbind_Some {A B} (x : option (result A)) (f : A → option (result B)) :
  x ≠ None → (∀ a, x = Some (Ok a) → f a ≠ None) → fbind x f ≠ None.
Proof. destruct x as [[a|msg]|]; simpl; [by auto|done|done]. Qed.

Lemma fbind_Ok {A B} (x : option (result A)) (f : A → option (result B)) (b : B) :
  fbind x f = Some (Ok b) ↔ ∃ a, x = Some (Ok a) ∧ f a = Some (Ok b).
Proof.
  destruct x as [[a|msg]|]; simpl; split; try done.
  - intros Hf. by exists a.
  - by intros (a' & [= ->] & Hf).
  - by intros (a' & ? & _).
  - by intros (a' & ? & _).
Qed.

(** A loop of fuelled calls that each have fuel enough, and keep an
    invariant, has fuel enough and keeps the invariant. *)
Lemma ffold_total {A B} (P : B → Prop) (f : B → A → option (result B))
    (l : list A) (acc : B) :
  (∀ b a, a ∈ l → P b →
     f b a ≠ None ∧ ∀ b', f b a = Some (Ok b') → P b') →
  P acc →
  ffold f l acc ≠ None ∧ ∀ acc', ffold f l acc = Some (Ok acc') → P acc'.
Proof.
  revert acc. induction l as [|a l IH]; intros acc Hstep Hacc; simpl.
  - split; [done|]. by intros acc' [= <-].
  - destruct (Hstep acc a) as [Hsome Hinv]; [by left|done|].
    assert (∀ b, f acc a = Some (Ok b) →
              ffold f l b ≠ None ∧
              ∀ acc', ffold f l b = Some (Ok acc') → P acc') as Hrest.
    { intros b Hb. apply IH; [|by apply Hinv].
      intros b0 a0 Hin. apply Hstep. by right. }
    split.
    + apply fbind_Some; [done|]. intros b Hb. by apply Hrest.
    + intros acc' (b & Hb & Hacc')%fbind_Ok. by apply (Hrest b).
Qed.

Lemma unvisited_mono (g g' : gmap string basic_block) (vis vis' : gset string) :
  dom g' ⊆ dom g → vis ⊆ vis' → unvisited g' vis' ≤ unvisited g vis.
Proof.
  intros Hd Hv. apply subseteq_size.
  intros x [Hx Hnv]%elem_of_difference. apply elem_of_difference.
  split; [by apply Hd|]. intros Hin. apply Hnv. by apply Hv.
Qed.

Lemma unvisited_visit (g : gmap string basic_block) (vis : gset string) (l : string) :
  is_Some (g !! l) → l ∉ vis → unvisited g (vis ∪ {[l]}) < unvisited g vis.
Proof.
  intros Hl%elem_of_dom Hv. apply subset_size. split.
  - intros x [Hx Hnv]%elem_of_difference. apply elem_of_difference.
    split; [done|]. intros Hin. apply Hnv. apply elem_of_union. by left.
  - intros Hsub. assert (l ∈ dom g ∖ (vis ∪ {[l]})) as Hin.
    { apply Hsub. by apply elem_of_difference. }
    apply elem_of_difference in Hin as [_ Hnot]. apply Hnot.
    apply elem_of_union. right. by apply elem_of_singleton.
Qed.

Lemma add_edge_dom a b (g g' : gmap string basic_block) :
  add_edge a b g = Ok g' → dom g' = dom g.
Proof.
  intros (this & other & _ & _ & ->)%add_edge_Ok.
  apply set_eq. intros k. by rewrite !elem_of_dom, is_Some_rewire.
Qed.

Lemma remove_edge_dom a b (g g' : gmap string basic_block) :
  remove_edge a b g = Ok g' → dom g' = dom g.
Proof.
  intros (this & other & _ & _ & ->)%remove_edge_Ok.
  apply set_eq. intros k. by rewrite !elem_of_dom, is_Some_rewire.
Qed.

Lemma cfg_remove_dom bb_id (g g' : gmap string basic_block) :
  cfg_remove bb_id g = Ok g' → dom g' = dom g ∖ {[bb_id]}.
Proof.
  intros (bb & dead & g1 & _ & _ & Hg1 & ->)%cfg_remove_Ok.
  rewrite dom_delete_L. f_equal.
  eapply (foldM_invariant (λ g1 : gmap string basic_block, dom g1 = dom g));
    [|reflexivity|exact Hg1].
  intros g2 [a b] g3 _ Hg2 Hstep. simpl in Hstep.
  by rewrite (remove_edge_dom _ _ _ _ Hstep).
Qed.




(** The same for the reachability sweep over a graph whose successor
    query answers only for blocks of [g]. *)
Lemma mark_alive_blocks_total (g : gmap string basic_block)
    (nexts : string → result (list string)) (fuel : nat) :
  (∀ l ls, nexts l = Ok ls → is_Some (g !! l)) →
  ∀ (curId : string) (vis : gset string),
    unvisited g vis < fuel →
    mark_alive_blocks fuel curId nexts vis ≠ None ∧
    ∀ vis', mark_alive_blocks fuel curId nexts vis = Some (Ok vis') →
            vis ⊆ vis'.
Proof.
  intros Hnexts. induction fuel as [|fuel IH]; intros curId vis Hfuel; [lia|].
  simpl. case_bool_decide as Hvis.
  { split; [done|]. by intros vis' [= <-]. }
  destruct (nexts curId) as [children|msg] eqn:Hch; simpl;
    [|split; [done|by intros vis' [=]]].
  assert (unvisited g (vis ∪ {[curId]}) < fuel) as Hless.
  { pose proof (unvisited_visit g vis curId (Hnexts _ _ Hch) Hvis). lia. }
  destruct (ffold_total (λ vis1 : gset string, vis ∪ {[curId]} ⊆ vis1)
              (λ vis1 child, mark_alive_blocks fuel child nexts vis1)
              children (vis ∪ {[curId]})) as [Hsome Hinv].
  - intros vis1 child _ Hv.
    destruct (IH child vis1) as [Hs Hi].
    { pose proof (unvisited_mono g g (vis ∪ {[curId]}) vis1
                    (reflexivity _) Hv). lia. }
    split; [done|]. intros vis2 Hvis2. specialize (Hi vis2 Hvis2).
    by etrans.
  - done.
  - split; [done|]. intros vis' Hvis'. specialize (Hinv vis' Hvis').
    etrans; [|done]. apply union_subseteq_l.
Qed.

Lemma next_nodes_Ok l (g : gmap string basic_block) ls :
  next_nodes l g = Ok ls → is_Some (g !! l).
Proof.
  unfold next_nodes. intros (b & Hb & _)%bind_Ok.
  apply get_node_Ok in Hb. by eauto.
Qed.

Lemma prev_nodes_Ok l (g : gmap string basic_block) ls :
  prev_nodes l g = Ok ls → is_Some (g !! l).
Proof.
  unfold prev_nodes. intros (b & Hb & _)%bind_Ok.
  apply get_node_Ok in Hb. by eauto.
Qed.

Lemma unvisited_empty (g : gmap string basic_block) : unvisited g ∅ < S (size g).
Proof. unfold unvisited. rewrite difference_empty_L, size_dom. lia. Qed.




(** C4.  On the branch [P -> B], [P -> C], [B -> D], [C -> D] the block
    [B: havoc x] has the single predecessor [P], and [P] has the two
    successors [B] and [C].  [simplify] nevertheless fuses [B] into [P]:
    afterwards [B] is gone, [P] holds the statement of [B] and keeps its
    edge to [C].  The fusion test asks for one successor of the block
    itself, not of its predecessor. *)
Theorem fusion_into_branching_predecessor :
  ∃ c c',
    Samples.branch = Ok c ∧
    Samples.shape c = [("C", 1, ["P"], ["D"]); ("B", 1, ["P"], ["D"]);
                       ("D", 0, ["B"; "C"], []); ("P", 0, [], ["B"; "C"])] ∧
    simplify c = Some (Ok c') ∧
    Samples.shape c' = [("C", 1, ["P"], ["D"]); ("D", 0, ["C"; "P"], []);
                        ("P", 1, [], ["C"; "D"])] ∧
    m_stmts <$> m_blocks c' !! "P" = Some [havoc_stmt Samples.x].
Proof.
  destruct Samples.branch as [c|msg] eqn:Hc; [|vm_compute in Hc; discriminate Hc].
  vm_compute in Hc. injection Hc as Hc. subst c.
  eexists _, _. split; [reflexivity|].
  split; [vm_compute; reflexivity|].
  split; [vm_compute; reflexivity|].
  split; vm_compute; reflexivity.
Qed.

(* --------------------------------------------------------------------- *)
(** ** The live set holds no variable twice                               *)
(* --------------------------------------------------------------------- *)

Lemma live_find_false s v : live_find s v = false → var_name v ∉ var_name <$> s.
Proof.
  unfold live_find. induction s as [|w s IH]; simpl.
  - intros _. apply not_elem_of_nil.
  - intros [Hw Hs]%orb_false_elim. rewrite not_elem_of_cons.
    split; [|by apply IH]. unfold variable_eqb in Hw. by apply N.eqb_neq in Hw.
Qed.

Lemma live_add_nodup s v :
  NoDup (var_name <$> s) → NoDup (var_name <$> live_add s v).
Proof.
  unfold live_add. destruct (live_find s v) eqn:Hf; [done|].
  intros Hs. rewrite fmap_app. apply NoDup_app. split; [done|]. split.
  - intros n Hn [->|[]%elem_of_nil]%elem_of_cons.
    by apply live_find_false in Hf.
  - apply NoDup_singleton.
Qed.

Lemma live_nodup_empty : live_nodup live_empty.
Proof. split; apply NoDup_nil_2. Qed.

Lemma live_nodup_add_use v l : live_nodup l → live_nodup (add_use v l).
Proof. intros [Hu Hd]. split; simpl; [by apply live_add_nodup|done]. Qed.

Lemma live_nodup_add_def v l : live_nodup l → live_nodup (add_def v l).
Proof. intros [Hu Hd]. split; simpl; [done|by apply live_add_nodup]. Qed.

Lemma live_nodup_add_uses vs l : live_nodup l → live_nodup (add_uses vs l).
Proof.
  unfold add_uses. revert l. induction vs as [|v vs IH]; intros l Hl; simpl;
    [done|]. by apply IH, live_nodup_add_use.
Qed.

Lemma live_nodup_add_defs vs l : live_nodup l → live_nodup (add_defs vs l).
Proof.
  unfold add_defs. revert l. induction vs as [|v vs IH]; intros l Hl; simpl;
    [done|]. by apply IH, live_nodup_add_def.
Qed.

#[local] Hint Resolve live_nodup_empty live_nodup_add_use live_nodup_add_def
  live_nodup_add_uses live_nodup_add_defs : live.

(** X1. Whatever operands a statement is built from, its constructor
    leaves a live set in which no variable occurs twice among the uses and
    none occurs twice among the definitions: [Live::add_use] and
    [Live::add_def] skip a variable that is already recorded. *)
Theorem constructors_live_sets_duplicate_free (s s' : statement) :
  stmt_clone s = Ok s' → live_nodup (m_live s').
Proof.
  unfold stmt_clone, array_assume_stmt, array_store_stmt, array_load_stmt,
    array_assign_stmt.
  destruct (m_body s) as [| | | | | | | | | | | | | | | | | | cst | cst
                          | | | | | | | |]; intros Hc;
    repeat case_match; simplify_eq; simpl;
    try destruct cst; simpl; eauto 12 with live.
Qed.

Lemma constructors_live_sets_duplicate_free_witness :
  stmt_clone (binary_op Samples.x BINOP_ADD (var_exp Samples.y)
                (var_exp Samples.y) no_debug_info)
    = Ok (binary_op Samples.x BINOP_ADD (var_exp Samples.y)
            (var_exp Samples.y) no_debug_info) ∧
  m_uses (m_live (binary_op Samples.x BINOP_ADD (var_exp Samples.y)
                    (var_exp Samples.y) no_debug_info)) = [Samples.y] ∧
  live_nodup (m_live (binary_op Samples.x BINOP_ADD (var_exp Samples.y)
                        (var_exp Samples.y) no_debug_info)).
Proof.
  split; [reflexivity|]. split; [reflexivity|].
  apply (constructors_live_sets_duplicate_free
           (binary_op Samples.x BINOP_ADD (var_exp Samples.y)
              (var_exp Samples.y) no_debug_info)).
  reflexivity.
Defined.

(* --------------------------------------------------------------------- *)
(** ** Clones of statements                                               *)
(* --------------------------------------------------------------------- *)

(** X2. Cloning is stable: the clone of a statement clones to itself, so
    a clone carries exactly the operands, the debug tag and the live set
    that its own clone would carry.  (The first clone may differ from the
    original: the clone of a [ptr_store] drops the debug tag.) *)
Theorem stmt_clone_stable (s s' : statement) :
  stmt_clone s = Ok s' → stmt_clone s' = Ok s'.
Proof.
  unfold stmt_clone at 1.
  unfold array_assume_stmt, array_store_stmt, array_load_stmt, array_assign_stmt.
  destruct (m_body s); intros Hc; repeat case_match; simplify_eq;
    try reflexivity;
    unfold stmt_clone; simpl;
    unfold array_assume_stmt, array_store_stmt, array_load_stmt,
      array_assign_stmt;
    repeat match goal with H : _ = false |- _ => rewrite H; clear H end;
    reflexivity.
Qed.

Lemma stmt_clone_stable_witness :
  stmt_clone (ptr_store_stmt Samples.p Samples.q (mk_dbg "f.c" 3 1))
    = Ok (ptr_store_stmt Samples.p Samples.q no_debug_info) ∧
  stmt_clone (ptr_store_stmt Samples.p Samples.q no_debug_info)
    = Ok (ptr_store_stmt Samples.p Samples.q no_debug_info).
Proof.
  split; [reflexivity|].
  apply (stmt_clone_stable
           (ptr_store_stmt Samples.p Samples.q (mk_dbg "f.c" 3 1))).
  reflexivity.
Defined.

(* --------------------------------------------------------------------- *)
(** ** Insertion into a block                                             *)
(* --------------------------------------------------------------------- *)

Lemma bb_insert_all_back (ss : list statement) (bb : basic_block) :
  m_insert_point_at_front bb = false →
  m_stmts (fold_left (λ b s, bb_insert s b) ss bb) = m_stmts bb ++ ss.
Proof.
  revert bb. induction ss as [|s ss IH]; intros bb Hf; simpl.
  - by rewrite app_nil_r.
  - rewrite IH by done. simpl. rewrite Hf. by rewrite <-app_assoc.
Qed.

(** X5. The statements of a block are kept in insertion order, and the
    front insertion point is consumed by one insertion: when the flag is
    set the next statement becomes the first of the block, and every later
    one is appended at the back. *)
Theorem insertion_order (s : statement) (ss : list statement) (bb : basic_block) :
  let bb' := fold_left (λ b s, bb_insert s b) (s :: ss) bb in
  m_stmts bb' = (if m_insert_point_at_front bb
                 then s :: m_stmts bb ++ ss
                 else m_stmts bb ++ s :: ss) ∧
  m_insert_point_at_front bb' = false ∧
  m_stmts (fold_left (λ b s, bb_insert s b) (s :: ss) (set_insert_point_front bb))
    = s :: m_stmts bb ++ ss.
Proof.
  simpl. rewrite !bb_insert_all_back by done. simpl. split; [|split].
  - destruct (m_insert_point_at_front bb); [done|]. by rewrite <-app_assoc.
  - assert (m_insert_point_at_front (bb_insert s bb) = false) as Hb by done.
    revert Hb. generalize (bb_insert s bb).
    induction ss as [|s0 ss IH]; intros b Hb; simpl; [done|]. by apply IH.
  - done.
Qed.

(* --------------------------------------------------------------------- *)
(** ** Function declarations                                              *)
(* --------------------------------------------------------------------- *)

Lemma size_list_to_set_le (l : list N) : size (list_to_set l : gset N) ≤ length l.
Proof.
  induction l as [|a l IH]; [done|].
  rewrite list_to_set_cons, size_union_alt, size_singleton. simpl.
  assert (list_to_set l ∖ {[a]} ⊆ (list_to_set l : gset N)) as Hsub
    by (by apply subseteq_difference_l).
  apply subseteq_size in Hsub. lia.
Qed.

Lemma size_list_to_set_NoDup (l : list N) :
  size (list_to_set l : gset N) = length l ↔ NoDup l.
Proof.
  split; [|apply size_list_to_set].
  induction l as [|a l IH]; [constructor|].
  rewrite list_to_set_cons. simpl.
  intros Hsz. pose proof (size_list_to_set_le l) as Hle.
  destruct (decide (a ∈ l)) as [Hin|Hin].
  - rewrite subseteq_union_1_L in Hsz; [lia|].
    by apply singleton_subseteq_l, elem_of_list_to_set.
  - rewrite size_union, size_singleton in Hsz
      by (by apply disjoint_singleton_l; rewrite elem_of_list_to_set).
    constructor; [done|]. apply IH. lia.
Qed.

(** X6. The constructor of a function declaration accepts exactly the
    parameter lists in which no variable occurs twice, counting inputs and
    outputs together: a variable repeated among the inputs is rejected like
    one that is both an input and an output.  An accepted declaration keeps
    the name and both lists as given. *)
Theorem function_decl_new_accepts (func_name : string)
    (inputs outputs : list variable_t) (d : function_decl) :
  function_decl_new func_name inputs outputs = Ok d ↔
  NoDup (var_name <$> (inputs ++ outputs)) ∧
  d = {| m_func_name := func_name; m_inputs := inputs; m_outputs := outputs |}.
Proof.
  unfold function_decl_new.
  rewrite <-size_list_to_set_NoDup, length_fmap, length_app.
  destruct (decide (size (list_to_set (var_name <$> inputs ++ outputs) : gset N)
                    = length inputs + length outputs)) as [Heq|Hne].
  - rewrite bool_decide_eq_false_2 by (intros Hn; by apply Hn).
    split; [by intros [= <-]|by intros [_ ->]].
  - rewrite bool_decide_eq_true_2 by done.
    split; [discriminate|by intros [? _]].
Qed.

(* --------------------------------------------------------------------- *)
(** ** The hash of a call site                                            *)
(* --------------------------------------------------------------------- *)

Section callsite_hash.
Context `{BoostHash}.

Lemma hash_loop_lookup (vs : list variable_t) (msg : string) (k : nat) (res : N) :
  k ≤ length vs →
  foldM (λ res i,
           t ← match vs !! N.to_nat (N.of_nat i) with
                | Some v => Ok (get_type v)
                | None => CrabError msg
                end;
           Ok (hash_combine res t)) (seq 0 k) res
  = Ok (fold_left hash_combine (take k (get_type <$> vs)) res).
Proof.
  induction k as [|k IH]; intros Hk; [done|].
  rewrite seq_S, foldM_app, IH by lia. simpl.
  rewrite Nat2N.id.
  destruct (lookup_lt_is_Some_2 vs k) as [v Hv]; [lia|].
  rewrite Hv. simpl.
  rewrite (take_S_r _ _ (get_type v)) by (by rewrite list_lookup_fmap, Hv).
  by rewrite fold_left_app.
Qed.

Lemma fold_left_types (vs : list variable_t) (res : N) :
  fold_left (λ res vt, hash_combine res (get_type vt)) vs res
  = fold_left hash_combine (get_type <$> vs) res.
Proof. revert res. induction vs as [|v vs IH]; intros res; simpl; [done|apply IH]. Qed.

(** X7. The hash of a call site never raises.  It combines the name with
    the types of the left-hand sides (the results of the call) first and
    with the types of the arguments second, so it equals the hash of the
    declaration that lists the call's left-hand sides as its inputs and the
    call's arguments as its outputs. *)
Theorem callsite_hash_as_declaration (func_name : string)
    (lhs args : list variable_t) :
  (N.of_nat (length lhs) < 2 ^ 32)%N →
  cfg_hasher_hash_callsite func_name lhs args
    = Ok (fold_left hash_combine
            (take (counted (length args)) (get_type <$> args))
            (fold_left hash_combine (get_type <$> lhs)
               (hash_value_string func_name))) ∧
  cfg_hasher_hash_callsite func_name lhs args
    = cfg_hasher_hash {| m_func_name := func_name;
                         m_inputs := lhs; m_outputs := args |}.
Proof.
  intros Hlhs.
  assert (cfg_hasher_hash_callsite func_name lhs args
          = Ok (fold_left hash_combine
                  (take (counted (length args)) (get_type <$> args))
                  (fold_left hash_combine (get_type <$> lhs)
                     (hash_value_string func_name)))) as Hcs.
  { unfold cfg_hasher_hash_callsite, hash_loop, get_arg_type, get_num_args.
    change (N.to_nat (N.of_nat (length args) mod 2 ^ 32))
      with (counted (length args)).
    rewrite hash_loop_lookup by apply counted_le.
    by rewrite fold_left_types. }
  split; [done|].
  rewrite Hcs, cfg_hasher_hash_signature.
  unfold signature_hash, signature_hash_of. simpl.
  rewrite !length_fmap. rewrite (counted_small (length lhs)) by done.
  by rewrite <-(length_fmap get_type lhs), firstn_all.
Qed.

End callsite_hash.

Lemma callsite_hash_as_declaration_witness :
  (N.of_nat (length [Samples.b0]) < 2 ^ 32)%N ∧
  cfg_hasher_hash_callsite "foo" [Samples.b0] [Samples.x]
    = cfg_hasher_hash {| m_func_name := "foo"; m_inputs := [Samples.b0];
                         m_outputs := [Samples.x] |} ∧
  cfg_hasher_hash_callsite "foo" [Samples.b0] [Samples.x]
    ≠ cfg_hasher_hash {| m_func_name := "foo"; m_inputs := [Samples.x];
                         m_outputs := [Samples.b0] |}.
Proof.
  split; [vm_compute; reflexivity|]. split.
  - apply (callsite_hash_as_declaration "foo" [Samples.b0] [Samples.x]).
    vm_compute. reflexivity.
  - vm_compute. discriminate.
Defined.

(* --------------------------------------------------------------------- *)
(** ** The variable factory                                               *)
(* --------------------------------------------------------------------- *)

Lemma factory_get_wf (s : string) (vf : VariableFactory) :
  factory_wf vf → (_next_id vf + 1 < index_max)%N →
  factory_wf (factory_get s vf).2 ∧
  _map (factory_get s vf).2 !! s = Some (factory_get s vf).1 ∧
  (∀ s' r, _map vf !! s' = Some r → _map (factory_get s vf).2 !! s' = Some r) ∧
  (_next_id (factory_get s vf).2 ≤ _next_id vf + 1)%N.
Proof.
  intros [Hb Hi] Hlt. unfold factory_get.
  destruct (_map vf !! s) as [r|] eqn:Hs; simpl.
  { split; [by split|]. split; [done|]. split; [done|lia]. }
  rewrite N.mod_small by done.
  split; [|split; [by rewrite lookup_insert_eq|split; [|lia]]].
  - split; simpl.
    + intros s' r. rewrite lookup_insert_Some.
      intros [[<- <-]|[Hne Hr]]; simpl; [split; [done|lia]|].
      destruct (Hb _ _ Hr). split; [done|lia].
    + intros s1 s2 i1 i2. rewrite !lookup_insert_Some.
      intros [[<- <-]|[Hne1 H1]] [[<- <-]|[Hne2 H2]]; simpl; try done.
      * intros Heq. destruct (Hb _ _ H2). lia.
      * intros Heq. destruct (Hb _ _ H1). lia.
      * by apply Hi.
  - intros s' r Hr. rewrite lookup_insert_ne; [done|]. intros <-. congruence.
Qed.

Lemma factory_get_all_snoc (names : list string) (s : string) (vf : VariableFactory) :
  factory_get_all (names ++ [s]) vf
  = ((factory_get_all names vf).1 ++ [(factory_get s (factory_get_all names vf).2).1],
     (factory_get s (factory_get_all names vf).2).2).
Proof. unfold factory_get_all. by rewrite fold_left_app. Qed.

Lemma factory_get_all_inv (names : list string) (vf : VariableFactory) :
  factory_wf vf → (_next_id vf + N.of_nat (length names) < index_max)%N →
  length (factory_get_all names vf).1 = length names ∧
  factory_wf (factory_get_all names vf).2 ∧
  (_next_id (factory_get_all names vf).2 ≤ _next_id vf + N.of_nat (length names))%N ∧
  ∀ i s r, names !! i = Some s → (factory_get_all names vf).1 !! i = Some r →
           _map (factory_get_all names vf).2 !! s = Some r.
Proof.
  intros Hwf. induction names as [|s names IH] using rev_ind; intros Hlt.
  { simpl. split; [done|]. split; [done|]. split; [lia|]. by intros i s r [=]. }
  rewrite length_app in Hlt. simpl in Hlt.
  destruct IH as (Hlen & Hwf' & Hnext & Hall); [lia|].
  rewrite factory_get_all_snoc. simpl.
  destruct (factory_get_wf s (factory_get_all names vf).2 Hwf')
    as (Hwf2 & Hs & Hkeep & Hnext2); [lia|].
  split; [by rewrite !length_app, Hlen|]. split; [done|].
  split; [rewrite length_app; simpl; lia|].
  intros i s' r Hi Hr.
  destruct (decide (i < length names)) as [Hlt'|Hge].
  - rewrite lookup_app_l in Hi by done.
    rewrite lookup_app_l in Hr by lia. by apply Hkeep, (Hall i).
  - rewrite lookup_app_r in Hi by lia. rewrite lookup_app_r in Hr by lia.
    rewrite Hlen in Hr.
    destruct (i - length names) as [|n]; simpl in Hi, Hr; [|done].
    by simplify_eq.
Qed.

(** X8. While fewer than 2^64 indices have been handed out, the factory
    interns: over any run of lookups each result carries the string that
    was looked up, and two results compare equal (their indices are equal)
    exactly when the same string was looked up. *)
Theorem factory_names_and_indices (start_id : N) (names : list string) :
  (start_id + N.of_nat (length names) < index_max)%N →
  length (factory_get_all names (VariableFactory_from start_id)).1 = length names ∧
  ∀ i j s1 s2 r1 r2,
    names !! i = Some s1 → names !! j = Some s2 →
    (factory_get_all names (VariableFactory_from start_id)).1 !! i = Some r1 →
    (factory_get_all names (VariableFactory_from start_id)).1 !! j = Some r2 →
    str r1 = s1 ∧ (indexed_string_eqb r1 r2 = true ↔ s1 = s2).
Proof.
  intros Hlt.
  assert (factory_wf (VariableFactory_from start_id)) as Hwf0.
  { split; simpl; [intros s r|intros s1 s2 i1 i2]; by rewrite lookup_empty. }
  destruct (factory_get_all_inv names _ Hwf0 Hlt) as (Hlen & [Hb Hi] & _ & Hall).
  split; [done|]. intros i j s1 s2 r1 r2 Hs1 Hs2 Hr1 Hr2.
  pose proof (Hall _ _ _ Hs1 Hr1) as Hm1. pose proof (Hall _ _ _ Hs2 Hr2) as Hm2.
  split; [by apply (Hb _ _ Hm1)|].
  unfold indexed_string_eqb. rewrite N.eqb_eq. split.
  - by apply Hi.
  - intros <-. congruence.
Qed.

Lemma factory_names_and_indices_witness :
  (factory_get_all ["x"; "y"; "x"] VariableFactory_new).1
    = [ {| _s := "x"; _id := 1 |}; {| _s := "y"; _id := 2 |};
        {| _s := "x"; _id := 1 |} ] ∧
  length (factory_get_all ["x"; "y"; "x"] (VariableFactory_from 1)).1 = 3.
Proof.
  split; [vm_compute; reflexivity|].
  apply (factory_names_and_indices 1 ["x"; "y"; "x"]). vm_compute. reflexivity.
Defined.

(* --------------------------------------------------------------------- *)
(** ** What the type checker accepts                                      *)
(* --------------------------------------------------------------------- *)

Lemma foldM_unit {A} (f : A → result unit) (l : list A) :
  foldM (λ (_ : unit) x, f x) l () = Ok () ↔ Forall (λ x, f x = Ok ()) l.
Proof.
  induction l as [|a l IH]; simpl; [by split|].
  rewrite Forall_cons, <-IH. destruct (f a) as [[]|msg]; simpl.
  - tauto.
  - split; [discriminate|by intros [? _]].
Qed.

Lemma check_num_Ok v msg : check_num v msg = Ok () → is_num_var v.
Proof.
  unfold check_num, is_num_var. intros Hc.
  destruct (decide (get_type v = INT_TYPE)) as [?|Hi]; [by left|].
  destruct (decide (get_type v = REAL_TYPE)) as [?|Hr]; [by right|].
  by rewrite !bool_decide_eq_true_2 in Hc.
Qed.

Lemma check_bitwidth_if_int_Ok v msg :
  check_bitwidth_if_int v msg = Ok () →
  get_type v = INT_TYPE → (1 < get_bitwidth v)%N.
Proof.
  unfold check_bitwidth_if_int. intros Hc Hi.
  rewrite bool_decide_eq_true_2 in Hc by done.
  destruct (N.leb_spec (get_bitwidth v) 1); [done|lia].
Qed.

Lemma check_agrees v w msg1 msg2 :
  check_same_type v w msg1 = Ok () → check_same_bitwidth v w msg2 = Ok () →
  agrees v w.
Proof.
  unfold check_same_type, check_same_bitwidth, agrees. intros Ht Hw.
  destruct (decide (get_type v = get_type w)) as [Heq|Hne];
    [|by rewrite bool_decide_eq_true_2 in Ht].
  split; [done|]. intros Hib.
  destruct (bool_decide (get_type v = INT_TYPE)
            || bool_decide (get_type v = BOOL_TYPE)) eqn:Hor.
  - destruct (N.eqb_spec (get_bitwidth v) (get_bitwidth w)); done.
  - apply orb_false_elim in Hor as [Hi%bool_decide_eq_false Hb%bool_decide_eq_false].
    by destruct Hib.
Qed.

Lemma check_all_like_Ok lhs vars msg1 msg2 :
  check_all_like lhs vars msg1 msg2 = Ok () → Forall (agrees lhs) vars.
Proof.
  unfold check_all_like. intros (u & Hf & _)%bind_Ok. destruct u.
  apply foldM_unit in Hf. eapply Forall_impl; [exact Hf|].
  intros v (u & Ht & Hw)%bind_Ok. destruct u. by eapply check_agrees.
Qed.

Lemma like_first_loop_Ok (vars : list variable_t) (first : variable_t)
    (st : option variable_t) msg1 msg2 msg3 :
  foldM (λ (first_var : option variable_t) v,
           _ ← check_num v msg1;
           let fv := default v first_var in
           _ ← check_same_type fv v msg2;
           _ ← check_same_bitwidth fv v msg3;
           Ok (Some fv)) vars (Some first) = Ok st →
  Forall (λ v, is_num_var v ∧ agrees first v) vars.
Proof.
  revert st. induction vars as [|v vars IH]; intros st; simpl; [constructor|].
  intros (st1 & Hstep & Hrest)%bind_Ok.
  apply bind_Ok in Hstep as ([] & Hn & Hstep).
  apply bind_Ok in Hstep as ([] & Ht & Hstep).
  apply bind_Ok in Hstep as ([] & Hw & [= <-]).
  constructor; [|by eapply IH].
  split; [by eapply check_num_Ok|by eapply check_agrees].
Qed.

Lemma check_all_like_first_Ok vars msg1 msg2 msg3 :
  check_all_like_first vars msg1 msg2 msg3 = Ok () →
  Forall is_num_var vars ∧
  ∀ first, head vars = Some first → Forall (agrees first) vars.
Proof.
  unfold check_all_like_first. intros (st & Hf & _)%bind_Ok.
  destruct vars as [|v vars]; [by split; [constructor|]|].
  simpl in Hf. apply bind_Ok in Hf as (st1 & Hstep & Hrest).
  apply bind_Ok in Hstep as ([] & Hn & Hstep).
  apply bind_Ok in Hstep as ([] & Ht & Hstep).
  apply bind_Ok in Hstep as ([] & Hw & [= <-]).
  apply like_first_loop_Ok in Hrest.
  split.
  - constructor; [by eapply check_num_Ok|].
    eapply Forall_impl; [exact Hrest|]. by intros ? [? _].
  - intros first [= <-]. constructor; [by eapply check_agrees|].
    eapply Forall_impl; [exact Hrest|]. by intros ? [_ ?].
Qed.

(** X9. An arithmetic statement that the checker accepts is well typed:
    the left-hand side of a binary operation or an assignment is an integer
    wider than one bit or a real, and every variable operand has its type
    (and, for integers, its width); the first operand of a binary operation
    must be a variable, a constant is admitted as the second only.  The
    variables of an accepted assume or assert are numeric and agree with
    the first of them. *)
Theorem arithmetic_statements_checked (s : statement) :
  type_checker_visit s = Ok () →
  match m_body s with
  | BinOp lhs _ op1 op2 =>
      is_num_lhs lhs ∧
      (∃ v1, le_get_variable op1 = Some v1 ∧ agrees lhs v1) ∧
      (∀ v2, le_get_variable op2 = Some v2 → agrees lhs v2)
  | Assign lhs rhs => is_num_lhs lhs ∧ Forall (agrees lhs) (le_variables rhs)
  | Assume cst | Assert cst =>
      Forall is_num_var (lc_variables cst) ∧
      ∀ first, head (lc_variables cst) = Some first →
               Forall (agrees first) (lc_variables cst)
  | _ => True
  end.
Proof.
  unfold type_checker_visit.
  destruct (m_body s) as [lhs op op1 op2|lhs rhs|cst| | | |cst| | | | | | | | | |
                          | | | | | | | | | | |]; try done.
  - intros ([] & Hn & Hr)%bind_Ok. apply bind_Ok in Hr as ([] & Hw & Hr).
    apply bind_Ok in Hr as ([] & H1 & H2).
    split; [split; [by eapply check_num_Ok|by eapply check_bitwidth_if_int_Ok]|].
    split.
    + destruct (le_get_variable op1) as [v1|]; [|done].
      apply bind_Ok in H1 as ([] & Ht & Hb). exists v1.
      split; [done|by eapply check_agrees].
    + intros v2 Hv2. rewrite Hv2 in H2.
      apply bind_Ok in H2 as ([] & Ht & Hb). by eapply check_agrees.
  - intros ([] & Hn & Hr)%bind_Ok. apply bind_Ok in Hr as ([] & Hw & Hr).
    split; [split; [by eapply check_num_Ok|by eapply check_bitwidth_if_int_Ok]|].
    by eapply check_all_like_Ok.
  - apply check_all_like_first_Ok.
  - apply check_all_like_first_Ok.
Qed.

Lemma arithmetic_statements_checked_witness :
  type_checker_visit
    (binary_op Samples.y BINOP_ADD (var_exp Samples.x) (num_exp 1) no_debug_info)
    = Ok () ∧
  is_error (type_checker_visit
    (binary_op Samples.y BINOP_ADD (num_exp 1) (var_exp Samples.x) no_debug_info))
    = true ∧
  is_num_lhs Samples.y ∧
  (∃ v1, le_get_variable (var_exp Samples.x) = Some v1 ∧ agrees Samples.y v1) ∧
  (∀ v2, le_get_variable (num_exp 1) = Some v2 → agrees Samples.y v2).
Proof.
  split; [reflexivity|]. split; [reflexivity|].
  apply (arithmetic_statements_checked
           (binary_op Samples.y BINOP_ADD (var_exp Samples.x) (num_exp 1)
              no_debug_info)).
  reflexivity.
Defined.

Lemma type_check_block_Ok (b : basic_block) :
  type_check_block b = Ok () ↔
  Forall (λ s, type_checker_visit s = Ok ()) (m_stmts b).
Proof. apply foldM_unit. Qed.

(** X11. [type_checker::run] accepts a CFG exactly when it has at least
    one block, an exit has been declared, the exit is the entry if there is
    a single block, and every statement of every block passes its check.
    Nothing else is looked at: neither the entry nor the exit label needs
    to name a block of the CFG. *)
Theorem type_checker_run_accepts (c : Cfg) :
  type_checker_run c = Ok () ↔
  cfg_size c ≠ 0 ∧ has_exit c = true ∧
  (cfg_size c = 1 → m_exit c = cfg_entry c) ∧
  ∀ l bb s, m_blocks c !! l = Some bb → s ∈ m_stmts bb →
            type_checker_visit s = Ok ().
Proof.
  assert (foldM (λ (_ : unit) (p : string * basic_block), type_check_block p.2)
            (map_to_list (m_blocks c)) () = Ok () ↔
          ∀ l bb s, m_blocks c !! l = Some bb → s ∈ m_stmts bb →
                    type_checker_visit s = Ok ()) as Hblocks.
  { rewrite foldM_unit, Forall_forall. split.
    - intros Hall l bb s Hl Hs.
      specialize (Hall (l, bb)). rewrite elem_of_map_to_list in Hall.
      specialize (Hall Hl). apply type_check_block_Ok in Hall.
      rewrite Forall_forall in Hall. by apply Hall.
    - intros Hall [l bb] Hl%elem_of_map_to_list. simpl.
      apply type_check_block_Ok, Forall_forall. intros s Hs. by eapply Hall. }
  unfold type_checker_run, cfg_exit.
  destruct (decide (cfg_size c = 0)) as [H0|H0].
  { rewrite bool_decide_eq_true_2 by done. split; [discriminate|tauto]. }
  rewrite bool_decide_eq_false_2 by done.
  destruct (has_exit c) eqn:Hex; simpl; [|split; [discriminate|by intros (_ & ? & _)]].
  destruct (decide (cfg_size c = 1)) as [H1|H1].
  - rewrite (bool_decide_eq_true_2 _ H1). simpl.
    destruct (decide (m_exit c = cfg_entry c)) as [He|He].
    + rewrite (bool_decide_eq_true_2 _ He). simpl. rewrite Hblocks. tauto.
    + rewrite (bool_decide_eq_false_2 _ He). simpl.
      split; [discriminate|]. intros (_ & _ & Hx & _). by destruct He; apply Hx.
  - rewrite (bool_decide_eq_false_2 _ H1). simpl. rewrite Hblocks. tauto.
Qed.

(* --------------------------------------------------------------------- *)
(** ** The variables of a CFG                                             *)
(* --------------------------------------------------------------------- *)

Lemma elem_of_get_vars (c : Cfg) (n : varname_t) :
  n ∈ get_vars c ↔ ∃ l bb, m_blocks c !! l = Some bb ∧ n ∈ m_bb_live bb.
Proof.
  unfold get_vars. rewrite elem_of_elements.
  apply (map_fold_weak_ind
           (λ (r : gset varname_t) (m : gmap string basic_block),
              n ∈ r ↔ ∃ l bb, m !! l = Some bb ∧ n ∈ m_bb_live bb)).
  - split; [by intros ?%elem_of_empty|]. intros (l & bb & Hl & _).
    by rewrite lookup_empty in Hl.
  - intros l bb m r Hl IH. rewrite elem_of_union, IH. split.
    + intros [(l' & bb' & Hl' & Hn)|Hn].
      * exists l', bb'. split; [|done]. rewrite lookup_insert_ne; [done|].
        intros <-. congruence.
      * exists l, bb. by rewrite lookup_insert_eq.
    + intros (l' & bb' & Hl' & Hn). apply lookup_insert_Some in Hl'.
      destruct Hl' as [[<- <-]|[Hne Hl']]; [by right|]. left. eauto.
Qed.

(** X12. [get_vars] returns, each once, exactly the variables that occur
    in the live set of some block of the CFG. *)
Theorem get_vars_collects_live_sets (c : Cfg) :
  NoDup (get_vars c) ∧
  ∀ n, n ∈ get_vars c ↔ ∃ l bb, m_blocks c !! l = Some bb ∧ n ∈ m_bb_live bb.
Proof. split; [unfold get_vars; apply NoDup_elements|apply elem_of_get_vars]. Qed.

Lemma elem_of_live_names (vs : list variable_t) (n : varname_t) :
  n ∈ live_names vs ↔ ∃ v, v ∈ vs ∧ var_name v = n.
Proof.
  unfold live_names. rewrite elem_of_list_to_set, list_elem_of_fmap.
  split; intros (v & ? & ?); exists v; done.
Qed.

(** X13. Appending a statement to a block of the CFG adds the variables
    the statement uses or defines to the variables of the CFG and removes
    none. *)
Theorem get_vars_after_insertion (l : string) (bb : basic_block)
    (s : statement) (c : Cfg) (n : varname_t) :
  m_blocks c !! l = Some bb →
  n ∈ get_vars (on_block l (bb_insert s) c) ↔
  n ∈ get_vars c ∨
  ∃ v, (v ∈ m_uses (m_live s) ∨ v ∈ m_defs (m_live s)) ∧ var_name v = n.
Proof.
  intros Hl. rewrite !elem_of_get_vars. unfold on_block. simpl. split.
  - intros (k & bk & Hk & Hn). rewrite lookup_alter in Hk.
    case_decide as Hkl.
    + subst k. rewrite Hl in Hk. simpl in Hk. injection Hk as <-.
      simpl in Hn. rewrite !elem_of_union, !elem_of_live_names in Hn.
      destruct Hn as [[Hn|(v & Hv & Hvn)]|(v & Hv & Hvn)]; [left|right..]; eauto.
    + left. eauto.
  - intros [(k & bk & Hk & Hn)|(v & Hv & Hvn)].
    + destruct (decide (l = k)) as [<-|Hne].
      * exists l, (bb_insert s bb). rewrite lookup_alter, decide_True, Hl by done.
        split; [done|]. simpl. rewrite !elem_of_union. left. left. congruence.
      * exists k, bk. by rewrite lookup_alter, decide_False.
    + exists l, (bb_insert s bb). rewrite lookup_alter, decide_True, Hl by done.
      split; [done|]. simpl. rewrite !elem_of_union, !elem_of_live_names.
      destruct Hv; [left; right|right]; eauto.
Qed.

Lemma get_vars_after_insertion_witness :
  m_blocks (Cfg_new "entry" NUM) !! "entry" = Some (bb_create "entry" NUM) ∧
  (1%N ∈ get_vars (on_block "entry" (bb_insert (havoc_stmt Samples.x))
                     (Cfg_new "entry" NUM)) ↔
   1%N ∈ get_vars (Cfg_new "entry" NUM) ∨
   ∃ v, (v ∈ m_uses (m_live (havoc_stmt Samples.x)) ∨
         v ∈ m_defs (m_live (havoc_stmt Samples.x))) ∧ var_name v = 1%N).
Proof.
  split; [reflexivity|].
  apply (get_vars_after_insertion "entry" (bb_create "entry" NUM)). reflexivity.
Defined.

(* --------------------------------------------------------------------- *)
(** ** Insertion of blocks                                                *)
(* --------------------------------------------------------------------- *)

(** X14. [Cfg::insert] is a find-or-create: the block under the label is
    the one that was there, or a fresh empty block of the CFG's precision;
    every other block is left alone, the number of blocks grows by one for
    a new label only, and a second insertion of the label changes
    nothing. *)
Theorem cfg_insert_find_or_create (bb_id : string) (c : Cfg) :
  m_blocks (cfg_insert bb_id c) !! bb_id
    = Some (default (bb_create bb_id (m_cfg_track_prec c)) (m_blocks c !! bb_id)) ∧
  (∀ l, l ≠ bb_id → m_blocks (cfg_insert bb_id c) !! l = m_blocks c !! l) ∧
  cfg_size (cfg_insert bb_id c)
    = match m_blocks c !! bb_id with
      | Some _ => cfg_size c
      | None => S (cfg_size c)
      end ∧
  cfg_insert bb_id (cfg_insert bb_id c) = cfg_insert bb_id c.
Proof.
  unfold cfg_insert at 1 2 3 5 6, cfg_size.
  destruct (m_blocks c !! bb_id) as [bb|] eqn:Hb; simpl.
  - rewrite Hb. repeat split; try done. unfold cfg_insert. by rewrite Hb.
  - unfold unordered_insert. rewrite Hb. rewrite lookup_insert_eq.
    split; [done|]. split; [|split].
    + intros l Hl. by rewrite lookup_insert_ne.
    + by rewrite map_size_insert_None.
    + unfold cfg_insert. simpl. by rewrite lookup_insert_eq.
Qed.

(* --------------------------------------------------------------------- *)
(** ** Edges                                                              *)
(* --------------------------------------------------------------------- *)

Lemma insert_adjacent_idemp (c : list string) (e : string) :
  insert_adjacent (insert_adjacent c e) e = insert_adjacent c e.
Proof.
  unfold insert_adjacent at 1. rewrite bool_decide_eq_true_2; [done|].
  apply elem_of_insert_adjacent. by right.
Qed.

Lemma remove_insert_adjacent (c : list string) (e : string) :
  e ∉ c → remove_adjacent (insert_adjacent c e) e = c.
Proof.
  intros He. unfold insert_adjacent. rewrite bool_decide_eq_false_2 by done.
  unfold remove_adjacent. rewrite bool_decide_eq_true_2
    by (apply elem_of_app; right; by apply list_elem_of_singleton).
  rewrite filter_app, filter_cons_False, filter_nil, app_nil_r by (by intros ?).
  induction c as [|x c IH]; [done|].
  apply not_elem_of_cons in He as [Hx Hc].
  rewrite filter_cons_True by done. by rewrite IH.
Qed.



Lemma block_eq (b1 b2 : basic_block) :
  m_bb_id b1 = m_bb_id b2 → m_stmts b1 = m_stmts b2 → m_prev b1 = m_prev b2 →
  m_next b1 = m_next b2 → m_track_prec b1 = m_track_prec b2 →
  m_insert_point_at_front b1 = m_insert_point_at_front b2 →
  m_bb_live b1 = m_bb_live b2 → b1 = b2.
Proof. destruct b1, b2; simpl; by intros -> -> -> -> -> -> ->. Qed.

(** Apart from the two adjacency vectors a rewired block is the block. *)
Lemma rewire_content fn fp a b k bk :
  m_stmts (rewire fn fp a b k bk) = m_stmts bk ∧
  m_track_prec (rewire fn fp a b k bk) = m_track_prec bk ∧
  m_insert_point_at_front (rewire fn fp a b k bk) = m_insert_point_at_front bk ∧
  m_bb_live (rewire fn fp a b k bk) = m_bb_live bk.
Proof. unfold rewire. by repeat case_decide. Qed.

Lemma rewire_rewire fn fp fn' fp' a b k bk :
  (a = k → fn' (fn (m_next bk)) = m_next bk) →
  (b = k → fp' (fp (m_prev bk)) = m_prev bk) →
  rewire fn' fp' a b k (rewire fn fp a b k bk) = bk.
Proof.
  intros Hn Hp. destruct (rewire_content fn fp a b k bk) as (?&?&?&?).
  destruct (rewire_content fn' fp' a b k (rewire fn fp a b k bk)) as (?&?&?&?).
  apply block_eq; rewrite ?rewire_id, ?rewire_next, ?rewire_prev; try congruence.
  - case_decide; [by apply Hp|done].
  - case_decide; [by apply Hn|done].
Qed.

Lemma rewire_twice fn fp a b k bk :
  (fn (fn (m_next bk)) = fn (m_next bk)) →
  (fp (fp (m_prev bk)) = fp (m_prev bk)) →
  rewire fn fp a b k (rewire fn fp a b k bk) = rewire fn fp a b k bk.
Proof.
  intros Hn Hp. destruct (rewire_content fn fp a b k bk) as (?&?&?&?).
  destruct (rewire_content fn fp a b k (rewire fn fp a b k bk)) as (?&?&?&?).
  apply block_eq; rewrite ?rewire_id, ?rewire_next, ?rewire_prev; try congruence;
    by case_decide.
Qed.

(** X15. Adding an edge twice is adding it once: after [a >> b], a second
    [a >> b] succeeds and leaves every block as it is. *)
Theorem add_edge_idempotent (a b : string) (g g1 : gmap string basic_block) :
  add_edge a b g = Ok g1 → add_edge a b g1 = Ok g1.
Proof.
  intros (this & other & Ha & Hb & ->)%add_edge_Ok.
  apply add_edge_Ok.
  exists (rewire (λ c, insert_adjacent c (m_bb_id other))
                 (λ c, insert_adjacent c (m_bb_id this)) a b a this),
         (rewire (λ c, insert_adjacent c (m_bb_id other))
                 (λ c, insert_adjacent c (m_bb_id this)) a b b other).
  rewrite !rewire_lookup, Ha, Hb. split; [done|]. split; [done|].
  rewrite !rewire_id. apply map_eq. intros k.
  rewrite !rewire_lookup. destruct (g !! k) as [bk|]; [|done]. simpl.
  f_equal. symmetry. apply rewire_twice; apply insert_adjacent_idemp.
Qed.

Lemma add_edge_idempotent_witness :
  ∃ g1, add_edge "P" "B" Samples.branch_blocks = Ok g1 ∧
        add_edge "P" "B" g1 = Ok g1 ∧ g1 = Samples.branch_blocks.
Proof.
  destruct (add_edge "P" "B" Samples.branch_blocks) as [g1|msg] eqn:Hadd;
    [|by vm_compute in Hadd].
  exists g1. split; [done|]. split.
  - exact (add_edge_idempotent "P" "B" Samples.branch_blocks g1 Hadd).
  - vm_compute in Hadd. injection Hadd as <-. by vm_compute.
Defined.

(** X16. Removing an edge undoes adding it: when the edge from [a] to [b]
    is in neither adjacency vector, [a >> b] followed by [a -= b] gives the
    block map back, the order of the other neighbours included. *)
Theorem add_then_remove_edge (a b : string) (ba bb : basic_block)
    (g : gmap string basic_block) :
  labels_ok g → g !! a = Some ba → g !! b = Some bb →
  b ∉ m_next ba → a ∉ m_prev bb →
  ∃ g1, add_edge a b g = Ok g1 ∧ remove_edge a b g1 = Ok g.
Proof.
  intros Hl Ha Hb Hn Hp.
  pose proof (Hl a ba Ha) as Hida. pose proof (Hl b bb Hb) as Hidb.
  simpl in Hida, Hidb.
  eexists. split; [apply add_edge_Ok; by eauto|].
  apply remove_edge_Ok.
  exists (rewire (λ c, insert_adjacent c (m_bb_id bb))
                 (λ c, insert_adjacent c (m_bb_id ba)) a b a ba),
         (rewire (λ c, insert_adjacent c (m_bb_id bb))
                 (λ c, insert_adjacent c (m_bb_id ba)) a b b bb).
  rewrite !rewire_lookup, Ha, Hb. split; [done|]. split; [done|].
  rewrite !rewire_id. apply map_eq. intros k.
  rewrite !rewire_lookup. destruct (g !! k) as [bk|] eqn:Hk; [|done]. simpl.
  f_equal. symmetry. apply rewire_rewire.
  - intros ->. apply remove_insert_adjacent. rewrite Hidb.
    rewrite Ha in Hk. by injection Hk as <-.
  - intros ->. apply remove_insert_adjacent. rewrite Hida.
    rewrite Hb in Hk. by injection Hk as <-.
Qed.

Lemma add_then_remove_edge_witness :
  ∃ g1, add_edge "D" "P" Samples.branch_blocks = Ok g1 ∧
        remove_edge "D" "P" g1 = Ok Samples.branch_blocks.
Proof.
  destruct (Samples.branch_blocks !! "D") as [ba|] eqn:Ha; [|by vm_compute in Ha].
  destruct (Samples.branch_blocks !! "P") as [bb|] eqn:Hb; [|by vm_compute in Hb].
  apply (add_then_remove_edge "D" "P" ba bb Samples.branch_blocks).
  - by_evaluation.
  - exact Ha.
  - exact Hb.
  - vm_compute in Ha. injection Ha as <-. by_evaluation.
  - vm_compute in Hb. injection Hb as <-. by_evaluation.
Defined.

(* --------------------------------------------------------------------- *)
(** ** Removal of blocks                                                  *)
(* --------------------------------------------------------------------- *)

(** X17. [Cfg::remove] of a label that names no block raises the error of
    [get_node]; in a map with closed adjacency it succeeds for every label
    that names a block. *)
Theorem cfg_remove_defined (bb_id : string) (g : gmap string basic_block) :
  labels_ok g → adjacency_closed g →
  (g !! bb_id = None →
   cfg_remove bb_id g = CrabError "Basic block not found in the CFG") ∧
  (is_Some (g !! bb_id) → ∃ g', cfg_remove bb_id g = Ok g').
Proof.
  intros Hl Hc. split.
  - intros Hnone. unfold cfg_remove, get_node. by rewrite Hnone.
  - by apply cfg_remove_succeeds.
Qed.

Lemma cfg_remove_defined_witness :
  labels_ok Samples.branch_blocks ∧ adjacency_closed Samples.branch_blocks ∧
  cfg_remove "X" Samples.branch_blocks
    = CrabError "Basic block not found in the CFG" ∧
  ∃ g', cfg_remove "B" Samples.branch_blocks = Ok g'.
Proof.
  assert (labels_ok Samples.branch_blocks) as Hl by by_evaluation.
  assert (adjacency_closed Samples.branch_blocks) as Hc by by_evaluation.
  split; [done|]. split; [done|].
  destruct (cfg_remove_defined "X" Samples.branch_blocks Hl Hc) as [Hx _].
  destruct (cfg_remove_defined "B" Samples.branch_blocks Hl Hc) as [_ Hb].
  split; [apply Hx; reflexivity|]. apply Hb. by_evaluation.
Defined.

(** X18. A successful [Cfg::remove] erases the block and every trace of
    it: the label names no block any more, exactly this label has left the
    map, which is one block smaller, and no remaining block lists the label
    among its successors or predecessors. *)
Theorem cfg_remove_erases_block (bb_id : string) (g g' : gmap string basic_block) :
  labels_ok g → adjacency_symmetric g → cfg_remove bb_id g = Ok g' →
  g' !! bb_id = None ∧
  dom g' = dom g ∖ {[bb_id]} ∧
  size g = S (size g') ∧
  ∀ k bk, g' !! k = Some bk → (bb_id ∉ m_next bk) ∧ (bb_id ∉ m_prev bk).
Proof.
  intros Hl Hs Hrem.
  destruct (cfg_remove_detaches bb_id g g' Hl Hs Hrem) as [Hnone Hdet].
  pose proof (cfg_remove_dom bb_id g g' Hrem) as Hdom.
  split; [done|]. split; [done|]. split; [|done].
  destruct (cfg_remove_Ok bb_id g g' Hrem) as (bb & _ & _ & Hbb & _).
  rewrite <-!size_dom, Hdom.
  assert (bb_id ∈ dom g) as Hin by (apply elem_of_dom; eauto).
  rewrite (union_difference_L {[bb_id]} (dom g)) at 1
    by (by apply singleton_subseteq_l).
  rewrite size_union, size_singleton; [done|].
  apply disjoint_singleton_l. intros [_ Hn]%elem_of_difference.
  by apply Hn, elem_of_singleton.
Qed.

Lemma cfg_remove_erases_block_witness :
  ∃ g', cfg_remove "B" Samples.branch_blocks = Ok g' ∧
        g' !! "B" = None ∧ size Samples.branch_blocks = S (size g').
Proof.
  destruct (cfg_remove "B" Samples.branch_blocks) as [g'|msg] eqn:Hrem;
    [|by vm_compute in Hrem].
  exists g'. split; [done|].
  destruct (cfg_remove_erases_block "B" Samples.branch_blocks g')
    as (Hnone & _ & Hsize & _); [by_evaluation|by_evaluation|exact Hrem|].
  by split.
Defined.

Lemma cfg_remove_others_witness :
  ∃ g' bk bk', cfg_remove "B" Samples.branch_blocks = Ok g' ∧
    Samples.branch_blocks !! "P" = Some bk ∧ g' !! "P" = Some bk' ∧
    m_stmts bk' = m_stmts bk ∧ m_next bk = ["B"; "C"] ∧
    (∀ x, x ≠ "B" → x ∈ m_next bk → x ∈ m_next bk').
Proof.
  destruct (cfg_remove "B" Samples.branch_blocks) as [g'|msg] eqn:Hrem;
    [|by vm_compute in Hrem].
  destruct (Samples.branch_blocks !! "P") as [bk|] eqn:Hbk;
    [|by vm_compute in Hbk].
  destruct (cfg_remove_others "B" Samples.branch_blocks g' "P" bk)
    as (bk' & Hbk' & Hst & _ & _ & Hn & _);
    [by_evaluation|exact Hrem|done|exact Hbk|].
  exists g', bk, bk'. repeat (split; [done|]).
  split; [|exact Hn]. vm_compute in Hbk. by injection Hbk as <-.
Defined.

(* --------------------------------------------------------------------- *)
(** ** Adjacency vectors hold no label twice                              *)
(* --------------------------------------------------------------------- *)








(* --------------------------------------------------------------------- *)
(** ** The fusion step                                                    *)
(* --------------------------------------------------------------------- *)

Lemma remove_edges_content (L : list (string * string))
    (g g1 : gmap string basic_block) :
  foldM (λ g p, remove_edge p.1 p.2 g) L g = Ok g1 →
  ∀ k bk bk1, g !! k = Some bk → g1 !! k = Some bk1 →
    m_stmts bk1 = m_stmts bk ∧ m_bb_live bk1 = m_bb_live bk.
Proof.
  revert g. induction L as [|[a b] L IH]; intros g; simpl.
  - intros [= <-] k bk bk1 Hk Hk1. rewrite Hk in Hk1. by injection Hk1 as <-.
  - intros (g2 & Hg2 & Hrest)%bind_Ok k bk bk1 Hk Hk1.
    apply remove_edge_Ok in Hg2 as (this & other & _ & _ & ->).
    destruct (rewire_content (λ c, remove_adjacent c (m_bb_id other))
                (λ c, remove_adjacent c (m_bb_id this)) a b k bk)
      as (Hs & _ & _ & Hlive).
    rewrite <-Hs, <-Hlive. eapply (IH _ Hrest k); [|done].
    by rewrite rewire_lookup, Hk.
Qed.

Lemma fuse_Ok parent child curId cur (g g' : gmap string basic_block) l :
  fuse parent child curId cur g = Ok (g', l) →
  ∃ g2 cb, cfg_remove curId (alter (merge_back cur) parent g) = Ok g2 ∧
           add_edge parent child g2 = Ok g' ∧
           g' !! child = Some cb ∧ l = m_bb_id cb.
Proof.
  unfold fuse. simpl.
  intros (g2 & Hg2 & (g3 & Hg3 & (cb & Hcb & [= <- <-])%bind_Ok)%bind_Ok)%bind_Ok.
  apply get_node_Ok in Hcb. by exists g2, cb.
Qed.

Lemma labels_ok_alter f k (g : gmap string basic_block) :
  (∀ bb, m_bb_id (f bb) = m_bb_id bb) → labels_ok g → labels_ok (alter f k g).
Proof.
  intros Hf Hl l bl. rewrite lookup_alter. case_decide as Hk.
  - subst l. rewrite fmap_Some. intros (b0 & Hb0 & ->). rewrite Hf. by apply Hl.
  - apply Hl.
Qed.

(** X23. A fusion splices the block into its parent: afterwards the
    parent holds its own statements followed by those of the fused block
    and the union of the two live sets, the fused block is gone (and only
    it), the child is a successor of the parent, and the traversal resumes
    at the child. *)
Theorem fuse_splices (parent child curId : string) (cur pb : basic_block)
    (g g' : gmap string basic_block) (l : string) :
  labels_ok g → g !! parent = Some pb →
  fuse parent child curId cur g = Ok (g', l) →
  l = child ∧ g' !! curId = None ∧ dom g' = dom g ∖ {[curId]} ∧
  ∃ pb', g' !! parent = Some pb' ∧
         m_stmts pb' = m_stmts pb ++ m_stmts cur ∧
         m_bb_live pb' = m_bb_live pb ∪ m_bb_live cur ∧
         child ∈ m_next pb'.
Proof.
  intros Hl Hpb (g2 & cb & Hrem & Hadd & Hcb & ->)%fuse_Ok.
  assert (labels_ok (alter (merge_back cur) parent g)) as Hl1
    by (by apply labels_ok_alter).
  pose proof (add_edge_dom _ _ _ _ Hadd) as Hd3.
  pose proof (cfg_remove_dom _ _ _ Hrem) as Hd2. rewrite dom_alter_L in Hd2.
  destruct (cfg_remove_Ok _ _ _ Hrem) as (bbc & dead & g1 & _ & _ & Hg1 & ->).
  destruct (remove_edges_lookup dead _ g1 Hl1 Hg1) as (Hlg1 & Hdom1 & _).
  apply add_edge_Ok in Hadd as (this & other & Hthis & Hother & ->).
  apply lookup_delete_Some in Hthis as [Hpne Hthis].
  apply lookup_delete_Some in Hother as [Hcne Hother].
  pose proof (Hlg1 child other Hother) as Hido. simpl in Hido.
  rewrite rewire_lookup in Hcb. rewrite lookup_delete_ne, Hother in Hcb by done.
  simpl in Hcb. injection Hcb as <-.
  split; [by rewrite rewire_id|].
  split; [by rewrite rewire_lookup, lookup_delete_eq|].
  split; [by rewrite Hd3|].
  eexists. split; [by rewrite rewire_lookup, lookup_delete_ne, Hthis|].
  destruct (rewire_content (λ c, insert_adjacent c (m_bb_id other))
              (λ c, insert_adjacent c (m_bb_id this)) parent child parent this)
    as (Hs & _ & _ & Hlive).
  destruct (remove_edges_content dead _ g1 Hg1 parent (merge_back cur pb) this)
    as [Hs1 Hlive1]; [by rewrite lookup_alter, decide_True, Hpb|done|].
  rewrite Hs, Hlive, Hs1, Hlive1. split; [done|]. split; [done|].
  rewrite rewire_next, decide_True, elem_of_insert_adjacent by done. by right.
Qed.

Lemma fuse_splices_witness :
  ∃ pb cur g',
    Samples.branch_blocks !! "P" = Some pb ∧
    Samples.branch_blocks !! "B" = Some cur ∧
    fuse "P" "D" "B" cur Samples.branch_blocks = Ok (g', "D") ∧
    g' !! "B" = None ∧
    ∃ pb', g' !! "P" = Some pb' ∧ m_stmts pb' = m_stmts pb ++ m_stmts cur.
Proof.
  destruct (Samples.branch_blocks !! "P") as [pb|] eqn:Hpb;
    [|by vm_compute in Hpb].
  destruct (Samples.branch_blocks !! "B") as [cur|] eqn:Hcur;
    [|by vm_compute in Hcur].
  destruct (fuse "P" "D" "B" cur Samples.branch_blocks) as [[g' l]|msg] eqn:Hf;
    [|vm_compute in Hcur; injection Hcur as <-; by vm_compute in Hf].
  destruct (fuse_splices "P" "D" "B" cur pb Samples.branch_blocks g' l)
    as (-> & Hnone & _ & pb' & Hpb' & Hst & _); [by_evaluation|exact Hpb|exact Hf|].
  exists pb, cur, g'. repeat (split; [done|]). exists pb'. by split.
Defined.

(* --------------------------------------------------------------------- *)
(** ** The invariant of the block map through [simplify]                  *)
(* --------------------------------------------------------------------- *)



Lemma cfg_remove_wf bb_id (g g' : gmap string basic_block) :
  blocks_wf g → cfg_remove bb_id g = Ok g' → blocks_wf g'.
Proof.
  intros (Hl & Hs & Hc) Hrem.
  destruct (cfg_remove_preserves bb_id g g' Hl Hs Hrem).
  split; [done|]. split; [done|].
  exact (cfg_remove_closed bb_id g g' Hl Hs Hc Hrem).
Qed.





Lemma remove_all_Ok (L : list string) (g g' : gmap string basic_block) :
  foldM (λ g bb_id, cfg_remove bb_id g) L g = Ok g' →
  dom g' = dom g ∖ list_to_set L ∧ (blocks_wf g → blocks_wf g').
Proof.
  revert g. induction L as [|l L IH]; intros g; simpl.
  - intros [= <-]. split; [|done]. by rewrite difference_empty_L.
  - intros (g1 & Hg1 & Hrest)%bind_Ok.
    destruct (IH g1 Hrest) as [Hd Hwf]. split.
    + rewrite Hd, (cfg_remove_dom _ _ _ Hg1). by rewrite difference_difference_l_L.
    + intros Hg. apply Hwf. by eapply cfg_remove_wf.
Qed.







(* --------------------------------------------------------------------- *)
(** ** The two sweeps remove exactly the blocks that are not reached      *)
(* --------------------------------------------------------------------- *)

Lemma ffold_no_error {A B} (f : B → A → option (result B)) (l : list A) (acc : B) :
  (∀ b a msg, a ∈ l → f b a ≠ Some (CrabError msg)) →
  ∀ msg, ffold f l acc ≠ Some (CrabError msg).
Proof.
  revert acc. induction l as [|a l IH]; intros acc Hf msg; simpl; [done|].
  destruct (f acc a) as [[b|msg']|] eqn:Hfa; simpl; [|exfalso|done].
  2: { eapply (Hf acc a msg'); [by left|done]. }
  apply IH. intros b' a' msg' Hin. apply Hf. by right.
Qed.

Section sweep.
Variable nexts : string → result (list string).

Lemma mark_alive_blocks_sweep (fuel : nat) :
  ∀ (cur : string) (vis vis' : gset string),
    mark_alive_blocks fuel cur nexts vis = Some (Ok vis') →
    vis ⊆ vis' ∧ cur ∈ vis' ∧
    ∀ n, n ∈ vis' → n ∉ vis → rtc (edge_of nexts) cur n ∧ closed_at nexts vis' n.
Proof.
  induction fuel as [|fuel IH]; intros cur vis vis'; [done|].
  simpl. case_bool_decide as Hvis.
  { intros [= <-]. split; [done|]. split; [done|]. by intros n Hn Hnot. }
  destruct (nexts cur) as [children|msg] eqn:Hch; simpl; [|done].
  assert (∀ (cs : list string) (v0 v' : gset string),
            ffold (λ v c, mark_alive_blocks fuel c nexts v) cs v0 = Some (Ok v') →
            v0 ⊆ v' ∧ (∀ c, c ∈ cs → c ∈ v') ∧
            ∀ n, n ∈ v' → n ∉ v0 →
                 (∃ c, c ∈ cs ∧ rtc (edge_of nexts) c n) ∧ closed_at nexts v' n) as Hloop.
  { induction cs as [|c cs IHcs]; intros v0 v'; simpl.
    - intros [= <-]. split; [done|]. split; [by intros c ?%elem_of_nil|].
      by intros n Hn Hnot.
    - intros (v1 & Hc & Hrest)%fbind_Ok.
      destruct (IH c v0 v1 Hc) as (Hsub1 & Hc1 & Hnew1).
      destruct (IHcs v1 v' Hrest) as (Hsub2 & Hcs2 & Hnew2).
      split; [by etrans|]. split.
      + intros c' [->|Hin]%elem_of_cons; [by apply Hsub2|by apply Hcs2].
      + intros n Hn Hnot. destruct (decide (n ∈ v1)) as [Hn1|Hn1].
        * destruct (Hnew1 n Hn1 Hnot) as [Hreach (ls & Hls & Hin)].
          split; [exists c; split; [by left|done]|].
          exists ls. split; [done|]. intros m Hm. by apply Hsub2, Hin.
        * destruct (Hnew2 n Hn Hn1) as [(c' & Hc' & Hreach) Hcl].
          split; [exists c'; split; [by right|done]|done]. }
  intros Hfold. destruct (Hloop children _ _ Hfold) as (Hsub & Hcs & Hnew).
  split; [etrans; [apply union_subseteq_l|exact Hsub]|].
  assert (cur ∈ vis') as Hcur
    by (apply Hsub, elem_of_union; right; by apply elem_of_singleton).
  split; [done|]. intros n Hn Hnot.
  destruct (decide (n = cur)) as [->|Hne].
  - split; [done|]. exists children. split; [done|]. exact Hcs.
  - destruct (Hnew n Hn) as [(c & Hc & Hreach) Hcl].
    { intros [?|?%elem_of_singleton]%elem_of_union; done. }
    split; [|done]. eapply rtc_l; [|exact Hreach]. by exists children.
Qed.

(** Started with nothing visited, the sweep returns the labels that are
    reachable from the label it starts at. *)
Lemma mark_alive_blocks_reach (fuel : nat) (entry : string) (alive : gset string) :
  mark_alive_blocks fuel entry nexts ∅ = Some (Ok alive) →
  ∀ n, n ∈ alive ↔ rtc (edge_of nexts) entry n.
Proof.
  intros (_ & Hentry & Hnew)%mark_alive_blocks_sweep n. split.
  - intros Hn. by apply Hnew.
  - revert n. apply (rtc_ind_r (λ n, n ∈ alive) entry); [done|].
    intros y z _ Hyz IH.
    destruct (Hnew y IH) as [_ (ls & Hls & Hin)]; [done|].
    destruct Hyz as (ls' & Hls' & Hz). apply Hin. congruence.
Qed.

Lemma mark_alive_blocks_no_error (g : gmap string basic_block) (fuel : nat) :
  (∀ l, is_Some (g !! l) →
        ∃ ls, nexts l = Ok ls ∧ ∀ m, m ∈ ls → is_Some (g !! m)) →
  ∀ (cur : string) (vis : gset string) msg,
    is_Some (g !! cur) →
    mark_alive_blocks fuel cur nexts vis ≠ Some (CrabError msg).
Proof.
  intros Hclosed. induction fuel as [|fuel IH]; intros cur vis msg Hcur; [done|].
  simpl. case_bool_decide; [done|].
  destruct (Hclosed cur Hcur) as (ls & Hls & Hin). rewrite Hls. simpl.
  apply ffold_no_error. intros v c msg' Hc. apply IH. by apply Hin.
Qed.

End sweep.

Lemma elem_of_labels_outside (keep : gset string) (g : gmap string basic_block)
    (l : string) :
  labels_ok g → l ∈ labels_outside keep g ↔ is_Some (g !! l) ∧ l ∉ keep.
Proof.
  intros Hl. unfold labels_outside.
  rewrite elem_of_elements, elem_of_list_to_set, list_elem_of_filter,
    list_elem_of_fmap.
  split.
  - intros [Hk (bb & -> & Hbb)]. split; [|done].
    apply list_elem_of_fmap in Hbb as ([k bb'] & -> & Hin).
    apply elem_of_map_to_list in Hin. simpl.
    rewrite (Hl k bb' Hin). by eauto.
  - intros [[bb Hbb] Hk]. split; [done|]. exists bb.
    split; [by rewrite (Hl l bb Hbb)|].
    apply list_elem_of_fmap. exists (l, bb). split; [done|].
    by apply elem_of_map_to_list.
Qed.

Lemma remove_all_succeeds (L : list string) (g : gmap string basic_block) :
  blocks_wf g → NoDup L → (∀ l, l ∈ L → is_Some (g !! l)) →
  ∃ g', foldM (λ g bb_id, cfg_remove bb_id g) L g = Ok g'.
Proof.
  revert g. induction L as [|l L IH]; intros g Hwf Hnd Hin; simpl; [by eauto|].
  apply NoDup_cons in Hnd as [Hl Hnd].
  destruct Hwf as (Hlab & Hsym & Hcl).
  destruct (cfg_remove_succeeds l g Hlab Hcl) as [g1 Hg1]; [apply Hin; by left|].
  rewrite Hg1. simpl. apply IH; [|done|].
  - eapply cfg_remove_wf; [|exact Hg1]. by split.
  - intros l' Hl'. apply elem_of_dom. rewrite (cfg_remove_dom _ _ _ Hg1).
    apply elem_of_difference. split; [apply elem_of_dom, Hin; by right|].
    intros ->%elem_of_singleton. done.
Qed.

(** A sweep from [start] followed by the removal of the labels it has not
    marked: on a well-formed map it succeeds and leaves exactly the labels
    reachable from [start]. *)
Lemma sweep_and_remove (g : gmap string basic_block)
    (nexts : string → result (list string)) (start : string) :
  blocks_wf g →
  (∀ l ls, nexts l = Ok ls → is_Some (g !! l)) →
  (∀ l, is_Some (g !! l) →
        ∃ ls, nexts l = Ok ls ∧ ∀ m, m ∈ ls → is_Some (g !! m)) →
  is_Some (g !! start) →
  ∃ alive g',
    mark_alive_blocks (S (size g)) start nexts ∅ = Some (Ok alive) ∧
    foldM (λ g bb_id, cfg_remove bb_id g) (labels_outside alive g) g = Ok g' ∧
    blocks_wf g' ∧
    ∀ l, is_Some (g' !! l) ↔ rtc (edge_of nexts) start l.
Proof.
  intros Hwf Hdom Hclosed Hstart.
  destruct (mark_alive_blocks (S (size g)) start nexts ∅) as [[alive|msg]|]
    eqn:Hsweep.
  - exists alive.
    pose proof (mark_alive_blocks_reach nexts _ _ _ Hsweep) as Hreach.
    destruct (mark_alive_blocks_sweep nexts _ _ _ _ Hsweep) as (_ & _ & Hnew).
    assert (∀ l, l ∈ alive → is_Some (g !! l)) as Halive.
    { intros l Hl. destruct (Hnew l Hl) as [_ (ls & Hls & _)]; [done|].
      by eapply Hdom. }
    destruct (remove_all_succeeds (labels_outside alive g) g Hwf) as [g' Hg'].
    { unfold labels_outside. apply NoDup_elements. }
    { intros l Hl. by apply (elem_of_labels_outside alive g l (proj1 Hwf)) in Hl as [? _]. }
    exists g'. split; [done|]. split; [done|].
    destruct (remove_all_Ok _ _ _ Hg') as [Hd Hwf'].
    split; [by apply Hwf'|].
    intros l. rewrite <-Hreach, <-elem_of_dom, Hd, elem_of_difference,
      elem_of_list_to_set, (elem_of_labels_outside alive g l (proj1 Hwf)),
      elem_of_dom.
    split.
    + intros [Hl Hnot]. destruct (decide (l ∈ alive)); [done|]. by destruct Hnot.
    + intros Hl. split; [by apply Halive|]. by intros [_ ?].
  - by destruct (mark_alive_blocks_no_error nexts g (S (size g)) Hclosed
                   start ∅ msg Hstart).
  - by destruct (proj1 (mark_alive_blocks_total g nexts (S (size g)) Hdom start ∅
                          (unvisited_empty g))).
Qed.

Lemma next_nodes_closed (g : gmap string basic_block) (l : string) :
  adjacency_closed g → is_Some (g !! l) →
  ∃ ls, next_nodes l g = Ok ls ∧ ∀ m, m ∈ ls → is_Some (g !! m).
Proof.
  intros Hc [bb Hbb]. exists (m_next bb). unfold next_nodes, get_node.
  rewrite Hbb. split; [done|]. intros m Hm.
  apply (proj1 (adjacency_closed_lookup g) Hc l bb m Hbb). by left.
Qed.

Lemma prev_nodes_closed (g : gmap string basic_block) (l : string) :
  adjacency_closed g → is_Some (g !! l) →
  ∃ ls, prev_nodes l g = Ok ls ∧ ∀ m, m ∈ ls → is_Some (g !! m).
Proof.
  intros Hc [bb Hbb]. exists (m_prev bb). unfold prev_nodes, get_node.
  rewrite Hbb. split; [done|]. intros m Hm.
  apply (proj1 (adjacency_closed_lookup g) Hc l bb m Hbb). by right.
Qed.

(** X28. On a well-formed CFG whose entry names a block,
    [remove_unreachable_blocks] succeeds, and the blocks it leaves are
    exactly those reachable from the entry along successor edges; the
    result is again well formed. *)
Theorem remove_unreachable_blocks_correct (c : Cfg) :
  blocks_wf (m_blocks c) → is_Some (m_blocks c !! m_entry c) →
  ∃ c', remove_unreachable_blocks c = Some (Ok c') ∧
        blocks_wf (m_blocks c') ∧
        ∀ l, is_Some (m_blocks c' !! l) ↔
             rtc (edge_of (λ l, next_nodes l (m_blocks c))) (m_entry c) l.
Proof.
  intros Hwf Hentry.
  destruct (sweep_and_remove (m_blocks c) (λ l, next_nodes l (m_blocks c))
              (m_entry c) Hwf) as (alive & g' & Hsweep & Hg' & Hwf' & Hreach).
  - intros l ls. apply next_nodes_Ok.
  - intros l. apply next_nodes_closed, Hwf.
  - done.
  - exists (with_blocks c g'). split; [|by split].
    unfold remove_unreachable_blocks, cfg_entry. rewrite Hsweep. cbn [fbind].
    by rewrite Hg'.
Qed.

(** X29. On a well-formed CFG with an exit that names a block,
    [remove_useless_blocks] succeeds, and the blocks it leaves are exactly
    those from which the exit can be reached, found by walking the
    predecessor edges back from the exit; without an exit it leaves the CFG
    as it is. *)
Theorem remove_useless_blocks_correct (c : Cfg) :
  blocks_wf (m_blocks c) →
  (has_exit c = false → remove_useless_blocks c = Some (Ok c)) ∧
  (has_exit c = true → is_Some (m_blocks c !! m_exit c) →
   ∃ c', remove_useless_blocks c = Some (Ok c') ∧
         blocks_wf (m_blocks c') ∧
         ∀ l, is_Some (m_blocks c' !! l) ↔
              rtc (edge_of (λ l, prev_nodes l (m_blocks c))) (m_exit c) l).
Proof.
  intros Hwf. unfold remove_useless_blocks.
  split; intros Hex; rewrite Hex; cbn [negb]; [done|].
  intros Hexit.
  destruct (sweep_and_remove (m_blocks c) (λ l, prev_nodes l (m_blocks c))
              (m_exit c) Hwf) as (alive & g' & Hsweep & Hg' & Hwf' & Hreach).
  - intros l ls. apply prev_nodes_Ok.
  - intros l. apply prev_nodes_closed, Hwf.
  - done.
  - exists (with_blocks c g'). split; [|by split].
    unfold cfg_rev_new. cbn [fbind]. unfold rev_entry, cfg_exit. cbn [_cfg].
    rewrite Hex. cbn [negb fbind].
    change (mark_alive_blocks (S (size (m_blocks c))) (m_exit c) _ ∅)
      with (mark_alive_blocks (S (size (m_blocks c))) (m_exit c)
              (λ l, prev_nodes l (m_blocks c)) ∅).
    rewrite Hsweep. cbn [fbind]. by rewrite Hg'.
Qed.

Lemma remove_unreachable_blocks_correct_witness :
  ∃ c', remove_unreachable_blocks sample_island_cfg = Some (Ok c') ∧
        dom (m_blocks sample_island_cfg)
          = ({[ "entry"; "exit"; "island" ]} : gset string) ∧
        dom (m_blocks c') = ({[ "entry"; "exit" ]} : gset string).
Proof.
  destruct (remove_unreachable_blocks_correct sample_island_cfg)
    as (c' & Hr & _ & _).
  - split; [by_evaluation|]. split; by_evaluation.
  - by_evaluation.
  - exists c'. split; [done|]. split; [by_evaluation|].
    vm_compute in Hr. injection Hr as <-. by_evaluation.
Defined.

Lemma remove_useless_blocks_correct_witness :
  ∃ c', remove_useless_blocks sample_island_cfg = Some (Ok c') ∧
        dom (m_blocks c') = ({[ "entry"; "exit" ]} : gset string).
Proof.
  destruct (remove_useless_blocks_correct sample_island_cfg) as [_ Hex].
  { split; [by_evaluation|]. split; by_evaluation. }
  destruct Hex as (c' & Hr & _ & _); [reflexivity|by_evaluation|].
  exists c'. split; [done|].
  vm_compute in Hr. injection Hr as <-. by_evaluation.
Defined.

(* --------------------------------------------------------------------- *)
(** ** The reversed view presents the same blocks with the edges flipped  *)
(* --------------------------------------------------------------------- *)

Lemma rev_bbs_lookup (g : gmap string basic_block) :
  labels_ok g →
  ∀ l, map_fold (λ k bb (acc : gmap string basic_block_rev),
                   match acc !! m_bb_id bb with
                   | Some _ => acc
                   | None => <[m_bb_id bb := {| _bb := k |}]> acc
                   end) ∅ g !! l
       = (λ _, {| _bb := l |}) <$> g !! l.
Proof.
  apply (map_fold_weak_ind
           (λ (r : gmap string basic_block_rev) (m : gmap string basic_block),
              labels_ok m → ∀ l, r !! l = (λ _, {| _bb := l |}) <$> m !! l)).
  - intros _ l. by rewrite !lookup_empty.
  - intros k bb m r Hk IH Hl l.
    assert (m_bb_id bb = k) as Hid by (apply (Hl k bb); by rewrite lookup_insert_eq).
    assert (labels_ok m) as Hlm.
    { intros k' bb' Hk'. apply (Hl k' bb'). rewrite lookup_insert_ne; [done|].
      intros <-. congruence. }
    specialize (IH Hlm). rewrite Hid.
    rewrite (IH k), Hk. simpl. destruct (decide (k = l)) as [->|Hne].
    + by rewrite !lookup_insert_eq.
    + rewrite !lookup_insert_ne by done. apply IH.
Qed.

(** X30. The reversed view of a well-formed CFG presents the same blocks
    with everything turned round: a label names a block of the view exactly
    when it names a block of the CFG; the reversed block answers with the
    same label, the statements last first, the predecessors as its
    successors and the successors as its predecessors; and the view has an
    edge from [a] to [b] exactly when the CFG has an edge from [b] to
    [a]. *)
Theorem reversed_view (c : Cfg) (r : cfg_rev) :
  blocks_wf (m_blocks c) → cfg_rev_new c = Ok r →
  (∀ l, (∃ b, rev_get_node l r = Ok b) ↔ is_Some (m_blocks c !! l)) ∧
  (∀ l b bb, rev_get_node l r = Ok b → m_blocks c !! l = Some bb →
     rev_label b r = Ok l ∧
     rev_stmts b r = Ok (reverse (m_stmts bb)) ∧
     rev_next_blocks b r = Ok (m_prev bb) ∧
     rev_prev_blocks b r = Ok (m_next bb)) ∧
  (∀ a b, edge_of (λ l, rev_next_nodes l r) a b ↔
          edge_of (λ l, next_nodes l (m_blocks c)) b a).
Proof.
  intros (Hl & Hs & Hc) [= <-].
  pose proof (rev_bbs_lookup (m_blocks c) Hl) as Hrev.
  assert (∀ l b, rev_get_node l
                   {| _cfg := c;
                      _rev_bbs := map_fold
                        (λ k bb (acc : gmap string basic_block_rev),
                           match acc !! m_bb_id bb with
                           | Some _ => acc
                           | None => <[m_bb_id bb := {| _bb := k |}]> acc
                           end) ∅ (m_blocks c) |} = Ok b ↔
                 is_Some (m_blocks c !! l) ∧ b = {| _bb := l |}) as Hget.
  { intros l b. unfold rev_get_node. simpl. rewrite Hrev.
    destruct (m_blocks c !! l) as [bb|]; simpl.
    - split; [intros [= <-]; by eauto|by intros [_ ->]].
    - split; [done|by intros [[? [=]] _]]. }
  split; [|split].
  - intros l. split.
    + intros [b Hb]. by apply Hget in Hb as [? _].
    + intros Hsome. eexists. by apply Hget.
  - intros l b bb Hb Hbb. apply Hget in Hb as [_ ->].
    unfold rev_label, rev_stmts, rev_next_blocks, rev_prev_blocks, get_node.
    simpl. rewrite Hbb. simpl. by rewrite (Hl l bb Hbb).
  - intros a b. unfold edge_of, rev_next_nodes, prev_nodes, next_nodes, get_node.
    simpl.
    pose proof (proj1 (adjacency_symmetric_lookup _) Hs) as Hsym.
    pose proof (proj1 (adjacency_closed_lookup _) Hc) as Hcl.
    split.
    + intros (ls & Hls & Hin).
      destruct (m_blocks c !! a) as [ba|] eqn:Ha; [|done].
      simpl in Hls. injection Hls as <-.
      destruct (Hcl a ba b Ha) as [bb Hbb]; [by right|].
      rewrite Hbb. simpl. exists (m_next bb). split; [done|].
      by apply (Hsym b a bb ba).
    + intros (ls & Hls & Hin).
      destruct (m_blocks c !! b) as [bb|] eqn:Hb; [|done].
      simpl in Hls. injection Hls as <-.
      destruct (Hcl b bb a Hb) as [ba Hba]; [by left|].
      rewrite Hba. simpl. exists (m_prev ba). split; [done|].
      by apply (Hsym b a bb ba).
Qed.

Lemma reversed_view_witness :
  ∃ r, cfg_rev_new sample_island_cfg = Ok r ∧
       rev_entry r = Ok "exit" ∧
       (edge_of (λ l, rev_next_nodes l r) "exit" "entry" ↔
        edge_of (λ l, next_nodes l (m_blocks sample_island_cfg)) "entry" "exit").
Proof.
  destruct (cfg_rev_new sample_island_cfg) as [r|msg] eqn:Hr; [|done].
  exists r. split; [done|].
  split; [by injection Hr as <-|].
  apply (reversed_view sample_island_cfg r); [|exact Hr].
  split; [by_evaluation|]. split; by_evaluation.
Defined.

(* --------------------------------------------------------------------- *)
(** ** What a clone keeps                                                 *)
(* --------------------------------------------------------------------- *)

(** X22. Apart from the entry block, a clone is faithful: it has the
    entry label, the exit, the precision and the declaration of the
    original; its labels are those of the original (and the entry); and
    every block other than the entry is there with the same label,
    predecessors, successors and live set, and with statements of the same
    classes and operands in the same order. *)
Theorem clone_faithful_outside_entry (c c' : Cfg) :
  labels_ok (m_blocks c) → cfg_clone c = Ok c' →
  m_entry c' = m_entry c ∧ m_has_exit c' = m_has_exit c ∧
  (m_has_exit c = true → m_exit c' = m_exit c) ∧
  m_func_decl c' = m_func_decl c ∧ m_cfg_track_prec c' = m_cfg_track_prec c ∧
  (∀ l, is_Some (m_blocks c' !! l) ↔ l = m_entry c ∨ is_Some (m_blocks c !! l)) ∧
  ∀ l bb, l ≠ m_entry c → m_blocks c !! l = Some bb →
    ∃ b, m_blocks c' !! l = Some b ∧ m_bb_id b = l ∧
         m_prev b = m_prev bb ∧ m_next b = m_next bb ∧
         m_bb_live b = m_bb_live bb ∧
         m_body <$> m_stmts b = m_body <$> m_stmts bb.
Proof.
  intros Hl Hc.
  destruct (clone_metadata c c' Hc) as (He & Hh & Hx & Hd & Hp).
  repeat (split; [done|]).
  pose proof (clone_blocks_lookup c c' Hl Hc) as Hlook.
  split.
  - intros l. split.
    + intros [b Hb]. apply Hlook in Hb as [[-> _]|[_ (bb & Hbb & _)]];
        [by left|right; by eauto].
    + intros [->|[bb Hbb]].
      * eexists. apply Hlook. by left.
      * destruct (decide (l = m_entry c)) as [->|Hne].
        -- eexists. apply Hlook. by left.
        -- destruct (clone_other_block c c' l bb Hl Hc Hne Hbb) as (b & Hb & _).
           by eauto.
  - intros l bb Hne Hbb.
    destruct (clone_other_block c c' l bb Hl Hc Hne Hbb) as (b & Hb & Hcl).
    exists b. split; [done|].
    destruct (bb_clone_Ok bb b Hcl) as (Hid & Hpv & Hnx & _ & Hlv & _).
    destruct (bb_clone_stmts bb b Hcl) as [_ Hbody].
    rewrite Hid, (Hl l bb Hbb). done.
Qed.

Lemma clone_faithful_outside_entry_witness :
  ∃ c', cfg_clone sample_island_cfg = Ok c' ∧
        m_entry c' = "entry" ∧
        (m_stmts <$> m_blocks sample_island_cfg !! "exit")
          = Some [havoc_stmt Samples.y] ∧
        (m_stmts <$> m_blocks c' !! "exit") = Some [havoc_stmt Samples.y] ∧
        (m_prev <$> m_blocks c' !! "exit") = Some ["entry"].
Proof.
  destruct (cfg_clone sample_island_cfg) as [c'|msg] eqn:Hc;
    [|by vm_compute in Hc].
  exists c'.
  destruct (clone_faithful_outside_entry sample_island_cfg c')
    as (He & _); [by_evaluation|exact Hc|].
  split; [done|]. split; [done|]. split; [by vm_compute|].
  vm_compute in Hc. injection Hc as <-. split; by vm_compute.
Defined.

Lemma constructors_record_definitions_witness :
  stmt_clone (select_stmt Samples.x Samples.x_positive (var_exp Samples.y)
                (var_exp Samples.z))
    = Ok (select_stmt Samples.x Samples.x_positive (var_exp Samples.y)
            (var_exp Samples.z)) ∧
  covers (m_defs (m_live (select_stmt Samples.x Samples.x_positive
                            (var_exp Samples.y) (var_exp Samples.z))))
         [Samples.x].
Proof.
  split; [reflexivity|].
  apply (constructors_record_definitions
           (select_stmt Samples.x Samples.x_positive (var_exp Samples.y)
              (var_exp Samples.z))); [reflexivity|done].
Defined.

Lemma constructors_record_expression_uses_witness :
  stmt_clone (select_stmt Samples.x Samples.x_positive (var_exp Samples.y)
                (var_exp Samples.z))
    = Ok (select_stmt Samples.x Samples.x_positive (var_exp Samples.y)
            (var_exp Samples.z)) ∧
  covers (m_uses (m_live (select_stmt Samples.x Samples.x_positive
                            (var_exp Samples.y) (var_exp Samples.z))))
         [Samples.x; Samples.y; Samples.z].
Proof.
  split; [reflexivity|].
  apply (constructors_record_expression_uses
           (select_stmt Samples.x Samples.x_positive (var_exp Samples.y)
              (var_exp Samples.z))); [reflexivity|done].
Defined.

Lemma bool_statements_checked_witness :
  type_checker_visit
    (bool_binary_op Samples.b0 BINOP_BAND Samples.b1 Samples.b2 no_debug_info)
    = Ok () ∧
  is_bool_var Samples.b0 ∧ is_bool_var Samples.b1 ∧ is_bool_var Samples.b2.
Proof.
  split; [reflexivity|].
  apply (bool_statements_checked
           (bool_binary_op Samples.b0 BINOP_BAND Samples.b1 Samples.b2
              no_debug_info)).
  reflexivity.
Defined.



